(** * better-fileexplorer: the live index of [src/server.js]

    A shallow embedding of the index server: the path normaliser, the
    in-memory SQLite store with its prepared statements, the git metadata
    collector, the initial scan, the watcher event handlers, tag search,
    the two tag endpoints and the watcher mode switch; and the read side:
    the tag filters of a search, GET /api/search, /api/suggestions and
    /api/tags, the snippets of a file search, the parser of
    [git remote -v] and the tree of GET /api/tree.

    Conventions of the embedding.
    - JavaScript strings are [string]: one [ascii] is one code unit below
      U+0100, and on such text [trim], [toLowerCase], [parseInt] and
      [\s] are the JavaScript ones (the no-break space is white space,
      the capitals U+00C0 to U+00DE have small letters), and so is
      [toUpperCase] but for the two letters whose capitals lie higher.
      Text with a code unit from U+0100 on is outside the embedding, and
      no statement below speaks of it.  SQLite, for LIKE and NOCASE,
      folds the ASCII letters only.
    - An absolute path is the list of its segments below the filesystem
      root ([path.resolve] and chokidar hand out normalised POSIX paths);
      [abs_string] renders it.  Root-relative paths are strings, as the
      store keeps them.
    - Every asynchronous function is run to completion: one watcher event
      or one request is one step.  The filesystem, the clock and the git
      binary are read from a [world].  With no two updates in flight at
      once, [pendingGitMetadataUpdates] is empty whenever it is read and
      is left out.
    - The body of [switchWatcherMode] is the exception: it is cut at
      [await oldWatcher.close()], and other events may arrive before the
      old watcher has closed.  chokidar itself is not part of the
      embedding: its [add] returns the watcher, not a promise (the older
      server under [src/unnamed] calls it without [await]) and does not
      throw for a string, so [await newWatcher.add(START_PATH)] goes on
      before any event is handled and never rejects; its watchers are
      numbered in the order they are created, and [instance.unwatch] has
      no counterpart.
    - The guards [if (!absolutePath)] are left out: the string of an
      absolute path is never empty. *)

From Stdlib Require Import ZArith QArith Qround Ascii String List Bool Lia.
From stdpp Require Import base gmap strings list fin_maps sorting.


Local Open Scope Z_scope.

(** ** JavaScript string primitives *)

Module JsString.

(** The characters of a string are the code units below U+0100, one
    [ascii] each.  [toLowerCase] moves A-Z and the capitals U+00C0 to
    U+00DE, the sign U+00D7 apart, up by 32 and changes nothing else. *)
Definition lower_char (c : ascii) : ascii :=
  let n := N_of_ascii c in
  if ((65 <=? n) && (n <=? 90)
      || (192 <=? n) && (n <=? 222) && negb (n =? 215))%N
  then ascii_of_N (n + 32) else c.

(** [toUpperCase] moves a-z and the small letters U+00E0 to U+00FE, the
    sign U+00F7 apart, down by 32 and writes U+00DF as [SS].  The
    capitals of U+00B5 and U+00FF lie above U+00FF: the two letters are
    left as they are, which a comparison with an ASCII word, the only
    use the server makes of upper-cased text, cannot tell apart. *)
Definition upper_char (c : ascii) : ascii :=
  let n := N_of_ascii c in
  if ((97 <=? n) && (n <=? 122)
      || (224 <=? n) && (n <=? 254) && negb (n =? 247))%N
  then ascii_of_N (n - 32) else c.

Fixpoint map_chars (f : ascii → ascii) (s : string) : string :=
  match s with
  | EmptyString => EmptyString
  | String c s' => String (f c) (map_chars f s')
  end.

Definition toLowerCase : string → string := map_chars lower_char.

Fixpoint toUpperCase (s : string) : string :=
  match s with
  | EmptyString => EmptyString
  | String c s' =>
      if (N_of_ascii c =? 223)%N then String "S" (String "S" (toUpperCase s'))
      else String (upper_char c) (toUpperCase s')
  end.

(** [s.startsWith(p)] *)
Definition startsWith (s p : string) : bool := String.prefix p s.

(** [s.split(c)] for a one-character separator. *)
Fixpoint split (c : ascii) (s : string) : list string :=
  match s with
  | EmptyString => [EmptyString]
  | String a s' =>
      if Ascii.eqb a c then EmptyString :: split c s'
      else match split c s' with
           | h :: t => String a h :: t
           | [] => [String a EmptyString]
           end
  end.

(** [parts.join(sep)] *)
Definition join (sep : string) (parts : list string) : string :=
  String.concat sep parts.

Fixpoint lastIndexOf_from (c : ascii) (s : string) (i acc : Z) : Z :=
  match s with
  | EmptyString => acc
  | String a s' => lastIndexOf_from c s' (i + 1) (if Ascii.eqb a c then i else acc)
  end.

(** [s.lastIndexOf(c)], [-1] when [c] does not occur. *)
Definition lastIndexOf (c : ascii) (s : string) : Z := lastIndexOf_from c s 0 (-1).

(** [s.indexOf(m)], [-1] when [m] does not occur. *)
Fixpoint indexOf (m s : string) : Z :=
  if String.prefix m s then 0
  else match s with
       | EmptyString => -1
       | String _ s' => let r := indexOf m s' in if r <? 0 then -1 else r + 1
       end.

(** [s.includes(m)] *)
Definition includes (s m : string) : bool := 0 <=? indexOf m s.

(** [s.slice(0, n)] and [s.slice(n)] for [0 <= n]. *)
Definition slice_to (s : string) (n : Z) : string := String.substring 0 (Z.to_nat n) s.

Fixpoint drop_chars (n : nat) (s : string) : string :=
  match n, s with
  | O, _ => s
  | S n', String _ s' => drop_chars n' s'
  | S _, EmptyString => EmptyString
  end.

Definition slice_from (s : string) (n : Z) : string := drop_chars (Z.to_nat n) s.

(** White space and line terminators, as [trim], [parseInt] and [\s]
    take them: tab to carriage return, the space and the no-break space
    U+00A0 (the others lie above U+00FF). *)
Definition is_whitespace (c : ascii) : bool :=
  let n := N_of_ascii c in
  ((n =? 32) || ((9 <=? n) && (n <=? 13)) || (n =? 160))%N.

Fixpoint trimStart (s : string) : string :=
  match s with
  | String c s' => if is_whitespace c then trimStart s' else s
  | EmptyString => EmptyString
  end.

Fixpoint trimEnd (s : string) : string :=
  match s with
  | EmptyString => EmptyString
  | String c s' =>
      match trimEnd s' with
      | EmptyString => if is_whitespace c then EmptyString else String c EmptyString
      | t => String c t
      end
  end.

Definition trim (s : string) : string := trimEnd (trimStart s).

(** Truthiness of a string. *)
Definition truthy (s : string) : bool :=
  match s with EmptyString => false | _ => true end.

End JsString.

(** ** SQLite's LIKE and NOCASE

    SQLite folds the 26 ASCII capitals to small letters and no other
    character.  [x LIKE pat] without an ESCAPE clause: [%] matches any
    run of characters, [_] exactly one, every other character itself,
    ASCII letters regardless of case. *)

Module Sql.

Definition percent : ascii := "%"%char.
Definition underscore : ascii := "_"%char.

Definition fold_char (c : ascii) : ascii :=
  let n := N_of_ascii c in
  if ((65 <=? n) && (n <=? 90))%N then ascii_of_N (n + 32) else c.

Definition same_nocase (a b : ascii) : bool :=
  Ascii.eqb (fold_char a) (fold_char b).

(** [a <= b] under COLLATE NOCASE: the folded strings compared
    character by character, a proper prefix first. *)
Definition nocase_leb (a b : string) : bool :=
  String.leb (JsString.map_chars fold_char a) (JsString.map_chars fold_char b).

Fixpoint like (pat : string) : string → bool :=
  match pat with
  | EmptyString => fun s => match s with EmptyString => true | _ => false end
  | String p pat' =>
      if Ascii.eqb p percent then
        fix skip (s : string) : bool :=
          like pat' s ||
          match s with
          | EmptyString => false
          | String _ s' => skip s'
          end
      else if Ascii.eqb p underscore then
        fun s => match s with
                 | EmptyString => false
                 | String _ s' => like pat' s'
                 end
      else
        fun s => match s with
                 | EmptyString => false
                 | String c s' => same_nocase p c && like pat' s'
                 end
  end.

End Sql.

(** ** Paths *)

(** An absolute path: its segments below the filesystem root. *)
Definition abspath : Type := list string.

Definition abs_string (p : abspath) : string := "/" +:+ JsString.join "/" p.

(** The three names a normalised path never has as a segment, and the
    separator a segment never contains. *)
Fixpoint has_char (c : ascii) (s : string) : bool :=
  match s with
  | EmptyString => false
  | String a s' => Ascii.eqb a c || has_char c s'
  end.

Definition segment_ok (s : string) : bool :=
  negb (String.eqb s "") && negb (String.eqb s ".") && negb (String.eqb s "..")
  && negb (has_char "/" s).

Definition abspath_ok (p : abspath) : bool := forallb segment_ok p.

(** [path.basename(s)]: the last segment, trailing separators dropped. *)
Definition basename (s : string) : string :=
  List.last (List.filter JsString.truthy (JsString.split "/" s)) "".

(** [path.extname(s)]: from the last dot of the base name, unless that dot
    opens the base name or the base name is [..]. *)
Definition extname (s : string) : string :=
  let b := basename s in
  let i := JsString.lastIndexOf "." b in
  if (i <=? 0) || String.eqb b ".." then "" else JsString.slice_from b i.

(** [path.normalize] on segments: [.] and empty segments vanish, [..]
    removes the segment before it. *)
Fixpoint normalize_segments (acc : list string) (segs : list string) : list string :=
  match segs with
  | [] => List.rev acc
  | s :: rest =>
      if String.eqb s "" || String.eqb s "." then normalize_segments acc rest
      else if String.eqb s ".." then normalize_segments (List.tl acc) rest
      else normalize_segments (s :: acc) rest
  end.

(** [path.relative(from, to)] on two resolved paths. *)
Fixpoint relative (from to : abspath) : list string :=
  match from, to with
  | f :: from', t :: to' =>
      if String.eqb f t then relative from' to'
      else List.map (fun _ => "..") from ++ to
  | _, _ => List.map (fun _ => "..") from ++ to
  end.

Section Paths.

(** [START_PATH = path.resolve(process.env.START_PATH || process.cwd())] *)
Variable START_PATH : abspath.

Definition normalizeRelative (absolutePath : abspath) : string :=
  let rel := JsString.join "/" (relative START_PATH absolutePath) in
  if JsString.truthy rel then rel else "/".

Definition absoluteFromRelative (relativePath : string) : abspath :=
  if String.eqb relativePath "/" || negb (JsString.truthy relativePath) then START_PATH
  else normalize_segments (List.rev START_PATH) (JsString.split "/" relativePath).

Definition parentOf (relativePath : string) : option string :=
  if String.eqb relativePath "/" || negb (JsString.truthy relativePath) then None
  else
    let idx := JsString.lastIndexOf "/" relativePath in
    if idx <=? 0 then Some "/" else Some (JsString.slice_to relativePath idx).

Definition depthOf (relativePath : string) : Z :=
  if String.eqb relativePath "/" || negb (JsString.truthy relativePath) then 0
  else Z.of_nat (List.length (JsString.split "/" relativePath)).

(** [null] is [None]. *)
Definition repoPathFromGitInternal (relativePath : string) : option string :=
  if negb (JsString.truthy relativePath) then None
  else if String.eqb relativePath ".git" || JsString.startsWith relativePath ".git/" then Some "/"
  else
    let marker := "/.git" in
    let idx := JsString.indexOf marker relativePath in
    if idx =? -1 then None
    else
      let suffix := JsString.slice_from relativePath (idx + Z.of_nat (String.length marker)) in
      match suffix with
      | String c _ => if negb (Ascii.eqb c "/") then None
                      else let candidate := JsString.slice_to relativePath idx in
                           Some (if JsString.truthy candidate then candidate else "/")
      | EmptyString => let candidate := JsString.slice_to relativePath idx in
                       Some (if JsString.truthy candidate then candidate else "/")
      end.

End Paths.

(** ** The store: the three tables and the prepared statements *)

Inductive kind : Type := file | directory.

#[global] Instance kind_eq_dec : EqDecision kind.
Proof. solve_decision. Defined.

Module Entry.
(** A row of [entries]; [path] is the primary key. *)
Record t : Type := Build
  { path : string;
    name : string;
    parent_path : option string;
    type : kind;
    size : option Z;
    mtime : Z;
    extension : string;
    depth : Z }.

#[global] Instance eq_dec : EqDecision t.
Proof. solve_decision. Defined.
End Entry.

Module Tag.
(** A row of [tags] without its rowid; the table keeps insertion order
    and the triple is UNIQUE. *)
Record t : Type := Build
  { entry_path : string;
    key : string;
    value : string }.

#[global] Instance eq_dec : EqDecision t.
Proof. solve_decision. Defined.
End Tag.

Module GitRow.
Record remote : Type := Remote
  { remote_name : string;
    fetchUrl : option string;
    pushUrl : option string }.

(** A row of [git_metadata], keyed by [entry_path] in the table. *)
Record t : Type := Build
  { detected_at : Z;
    current_branch : option string;
    commit_count : option Z;
    branch_count : option Z;
    remote_count : Z;
    remotes : list remote }.
End GitRow.

Record database : Type := Database
  { entries : gmap string Entry.t;
    tags : list Tag.t;
    git_metadata : gmap string GitRow.t }.

Definition empty_database : database :=
  {| entries := ∅; tags := []; git_metadata := ∅ |}.

(** What a statement's [run] yields: the new database, or the
    SQLITE_CONSTRAINT error it throws. *)
Inductive run_result : Type :=
| Done (d : database)
| ConstraintFailed.

Module statements.

(** INSERT ... ON CONFLICT(path) DO UPDATE: the row at [path] is
    created or overwritten in place; no row is deleted. *)
Definition upsertEntry (e : Entry.t) (d : database) : database :=
  {| entries := <[Entry.path e := e]> (entries d);
     tags := tags d;
     git_metadata := git_metadata d |}.

(** DELETE FROM entries WHERE [sel path], with the ON DELETE CASCADE of
    the two referencing tables: rows of [tags] and [git_metadata] that
    point at a deleted entry go with it. *)
Definition delete_entries (sel : string → bool) (d : database) : database :=
  let gone (q : string) : bool := sel q && bool_decide (is_Some (entries d !! q)) in
  {| entries := filter (λ kv, sel kv.1 = false) (entries d);
     tags := List.filter (λ t, negb (gone (Tag.entry_path t))) (tags d);
     git_metadata := filter (λ kv, gone kv.1 = false) (git_metadata d) |}.

Definition removeEntry (p : string) : database → database :=
  delete_entries (String.eqb p).

Definition removeEntriesUnder (pattern : string) : database → database :=
  delete_entries (Sql.like pattern).

Definition singleEntry (p : string) (d : database) : option Entry.t :=
  entries d !! p.

Definition entry_le (a b : Entry.t) : bool :=
  (Entry.depth a <? Entry.depth b)
  || ((Entry.depth a =? Entry.depth b) && Sql.nocase_leb (Entry.name a) (Entry.name b)).

(** SELECT * FROM entries ORDER BY depth ASC, name COLLATE NOCASE ASC.
    SQL leaves the order of rows that tie open, and no statement below
    depends on the order [merge_sort] gives them. *)
Definition allEntries (d : database) : list Entry.t :=
  merge_sort (λ a b, Is_true (entry_le a b)) ((map_to_list (entries d)).*2).

Definition allTags (d : database) : list Tag.t := tags d.

Definition tag_le (a b : Tag.t) : bool :=
  String.ltb (Tag.key a) (Tag.key b)
  || (String.eqb (Tag.key a) (Tag.key b) && String.leb (Tag.value a) (Tag.value b)).

(** SELECT key, value FROM tags WHERE entry_path = ? ORDER BY key, value
    (the rows keep their [entry_path] here). *)
Definition entryTags (p : string) (d : database) : list Tag.t :=
  merge_sort (λ a b, Is_true (tag_le a b))
    (List.filter (λ t, String.eqb (Tag.entry_path t) p) (tags d)).

(** INSERT OR IGNORE INTO tags: a triple already present is ignored; a
    path without entry violates the foreign key, which OR IGNORE does
    not cover. *)
Definition addTag (p k v : string) (d : database) : run_result :=
  let row := Tag.Build p k v in
  if bool_decide (row ∈ tags d) then Done d
  else if bool_decide (is_Some (entries d !! p)) then
    Done {| entries := entries d; tags := tags d ++ [row]; git_metadata := git_metadata d |}
  else ConstraintFailed.

Definition deleteTag (p k v : string) (d : database) : database :=
  {| entries := entries d;
     tags := List.filter (λ t, negb (bool_decide (t = Tag.Build p k v))) (tags d);
     git_metadata := git_metadata d |}.

(** SELECT entry_path FROM tags WHERE key = ? AND value = ? *)
Definition pathsForTag (k v : string) (d : database) : list string :=
  Tag.entry_path <$>
    List.filter (λ t, String.eqb (Tag.key t) k && String.eqb (Tag.value t) v) (tags d).

Definition deleteTagsForEntry (p : string) (d : database) : database :=
  {| entries := entries d;
     tags := List.filter (λ t, negb (String.eqb (Tag.entry_path t) p)) (tags d);
     git_metadata := git_metadata d |}.

Definition deleteTagsUnder (pattern : string) (d : database) : database :=
  {| entries := entries d;
     tags := List.filter (λ t, negb (Sql.like pattern (Tag.entry_path t))) (tags d);
     git_metadata := git_metadata d |}.

(** INSERT ... ON CONFLICT(entry_path) DO UPDATE on [git_metadata]; the
    foreign key wants an entry at [p]. *)
Definition upsertGitMetadata (p : string) (row : GitRow.t) (d : database) : run_result :=
  if bool_decide (is_Some (entries d !! p)) then
    Done {| entries := entries d; tags := tags d;
            git_metadata := <[p := row]> (git_metadata d) |}
  else ConstraintFailed.

Definition deleteGitMetadata (p : string) (d : database) : database :=
  {| entries := entries d; tags := tags d;
     git_metadata := delete p (git_metadata d) |}.

Definition allGitMetadata (d : database) : list (string * GitRow.t) :=
  map_to_list (git_metadata d).

End statements.

(** ** The world outside the process *)

(** A filesystem node as [fsp.stat] and [fsp.readdir] show it ([stat]
    follows symbolic links, so a link is the node it leads to). *)
Inductive fsnode : Type :=
| Broken (code : string)
    (** [stat] rejects with [err.code = code] *)
| File (size : Z) (mtimeMs : Q)
| Dir (mtimeMs : Q) (listable : bool) (children : listing)
    (** [readdir] yields the children's names, or rejects when not
        [listable] *)
with listing : Type :=
| no_more
| child (name : string) (node : fsnode) (rest : listing).

Scheme fsnode_listing_ind := Induction for fsnode Sort Prop
  with listing_fsnode_ind := Induction for listing Sort Prop.
Combined Scheme fsnode_mutual_ind from fsnode_listing_ind, listing_fsnode_ind.

Fixpoint child_named (nm : string) (cs : listing) : option fsnode :=
  match cs with
  | no_more => None
  | child n c rest => if String.eqb n nm then Some c else child_named nm rest
  end.

Fixpoint child_names (cs : listing) : list string :=
  match cs with
  | no_more => []
  | child n _ rest => n :: child_names rest
  end.

(** A listing as [readdir] gives it: every name is a proper segment and
    no name comes twice. *)
Fixpoint names_ok (n : fsnode) : bool :=
  match n with
  | Dir _ _ cs => listing_ok cs
  | _ => true
  end
with listing_ok (cs : listing) : bool :=
  match cs with
  | no_more => true
  | child nm c rest =>
      segment_ok nm && negb (bool_decide (nm ∈ child_names rest))
      && names_ok c && listing_ok rest
  end.

(** The node a path leads to from [n]. *)
Fixpoint node_at (n : fsnode) (p : list string) : fsnode :=
  match p with
  | [] => n
  | s :: rest =>
      match n with
      | Broken code => Broken code
      | File _ _ => Broken "ENOTDIR"
      | Dir _ _ cs =>
          match child_named s cs with
          | Some c => node_at c rest
          | None => Broken "ENOENT"
          end
      end
  end.

(** What one git command yields: its parsed standard output, a missing
    binary ([ENOENT] from [execFile]), or a failed command, with whether
    [isNotGitRepositoryError] recognises the failure. *)
Inductive gitres (A : Type) : Type :=
| GitOk (out : A)
| GitEnoent
| GitFail (notARepository : bool).
Arguments GitOk {A} out.
Arguments GitEnoent {A}.
Arguments GitFail {A} notARepository.

Record world : Type := World
  { w_root : fsnode;                 (** the node at the filesystem root *)
    w_now : Z;                       (** [Date.now()] *)
    (** [git rev-parse --show-toplevel], trimmed, as a path *)
    git_show_toplevel : abspath → gitres abspath;
    (** [git symbolic-ref --quiet --short HEAD], trimmed *)
    git_symbolic_ref : abspath → gitres string;
    (** [git rev-parse --short HEAD], trimmed *)
    git_short_head : abspath → gitres string;
    (** [git rev-list --all --count] through [parseInt]; [None] is NaN *)
    git_commit_count : abspath → gitres (option Z);
    (** the non-blank lines of [git branch --format=%(refname:short)] *)
    git_branch_count : abspath → gitres Z;
    (** [git remote -v] through [parseGitRemoteOutput] *)
    git_remotes : abspath → gitres (list GitRow.remote) }.

(** [fsp.stat(absolutePath)] *)
Definition stat (w : world) (absolutePath : abspath) : fsnode :=
  node_at (w_root w) absolutePath.

(** ** The process state *)

Inductive watch_mode : Type := native | polling.

#[global] Instance watch_mode_eq_dec : EqDecision watch_mode.
Proof. solve_decision. Defined.

(** Where the body of an unsettled [switchWatcherMode] call waits: at
    [await oldWatcher.close()], on its way to [mode]. *)
Inductive switch_phase : Type :=
| Closing (mode : watch_mode).

(** What [broadcast] sends. *)
Inductive message : Type :=
| entry_added (p : string)
| entry_updated (p : string)
| entry_removed (p : string)
| tag_added (p k v : string)
| tag_removed (p k v : string).

(** The lines written to the console. *)
Inductive log_line : Type :=
| warn_git_unavailable
| warn_git_root_failed (absolutePath : abspath)
| warn_git_update_failed (key : string)
| warn_watcher_error_diagnostics
| warn_skipping_unsupported
| warn_limit_switching
| warn_limit_in_polling
| warn_close_failed
| warn_polling_mode
| error_watcher_error.

Record server : Type := Server
  { db : database;
    entryCache : list Entry.t;
    tagCache : list Tag.t;
    unsupportedPaths : gset string;
    gitBinaryUnavailable : bool;
    gitUnavailableLogged : bool;
    watcher : option nat;              (** the live FSWatcher object *)
    watcherMode : watch_mode;
    watcherSwitchPromise : option switch_phase;
    watcherErrorDiagnosticsLogged : bool;
    watchersCreated : nat;             (** names the next FSWatcher object *)
    sent : list message;
    console : list log_line }.

Definition initial_server : server :=
  {| db := empty_database; entryCache := []; tagCache := [];
     unsupportedPaths := ∅;
     gitBinaryUnavailable := false; gitUnavailableLogged := false;
     watcher := None; watcherMode := native; watcherSwitchPromise := None;
     watcherErrorDiagnosticsLogged := false; watchersCreated := 0%nat;
     sent := []; console := [] |}.

Definition with_db (f : database → database) (s : server) : server :=
  Server (f (db s)) (entryCache s) (tagCache s) (unsupportedPaths s)
    (gitBinaryUnavailable s) (gitUnavailableLogged s) (watcher s) (watcherMode s)
    (watcherSwitchPromise s) (watcherErrorDiagnosticsLogged s) (watchersCreated s)
    (sent s) (console s).

Definition with_caches (ec : list Entry.t) (tc : list Tag.t) (s : server) : server :=
  Server (db s) ec tc (unsupportedPaths s)
    (gitBinaryUnavailable s) (gitUnavailableLogged s) (watcher s) (watcherMode s)
    (watcherSwitchPromise s) (watcherErrorDiagnosticsLogged s) (watchersCreated s)
    (sent s) (console s).

Definition with_unsupportedPaths (f : gset string → gset string) (s : server) : server :=
  Server (db s) (entryCache s) (tagCache s) (f (unsupportedPaths s))
    (gitBinaryUnavailable s) (gitUnavailableLogged s) (watcher s) (watcherMode s)
    (watcherSwitchPromise s) (watcherErrorDiagnosticsLogged s) (watchersCreated s)
    (sent s) (console s).

Definition with_git_flags (unavailable logged : bool) (s : server) : server :=
  Server (db s) (entryCache s) (tagCache s) (unsupportedPaths s)
    unavailable logged (watcher s) (watcherMode s)
    (watcherSwitchPromise s) (watcherErrorDiagnosticsLogged s) (watchersCreated s)
    (sent s) (console s).

Definition with_watcher (wt : option nat) (m : watch_mode) (pr : option switch_phase)
    (created : nat) (s : server) : server :=
  Server (db s) (entryCache s) (tagCache s) (unsupportedPaths s)
    (gitBinaryUnavailable s) (gitUnavailableLogged s) wt m pr
    (watcherErrorDiagnosticsLogged s) created (sent s) (console s).

Definition with_diagnostics_logged (s : server) : server :=
  Server (db s) (entryCache s) (tagCache s) (unsupportedPaths s)
    (gitBinaryUnavailable s) (gitUnavailableLogged s) (watcher s) (watcherMode s)
    (watcherSwitchPromise s) true (watchersCreated s) (sent s) (console s).

(** [broadcast(message)]: the sockets are not modelled, the message is
    recorded. *)
Definition broadcast (m : message) (s : server) : server :=
  Server (db s) (entryCache s) (tagCache s) (unsupportedPaths s)
    (gitBinaryUnavailable s) (gitUnavailableLogged s) (watcher s) (watcherMode s)
    (watcherSwitchPromise s) (watcherErrorDiagnosticsLogged s) (watchersCreated s)
    (sent s ++ [m]) (console s).

Definition log (l : log_line) (s : server) : server :=
  Server (db s) (entryCache s) (tagCache s) (unsupportedPaths s)
    (gitBinaryUnavailable s) (gitUnavailableLogged s) (watcher s) (watcherMode s)
    (watcherSwitchPromise s) (watcherErrorDiagnosticsLogged s) (watchersCreated s)
    (sent s) (console s ++ [l]).

(** ** State and exceptions

    A function that may throw returns what it returned or what it threw,
    next to the state it left behind. *)

Inductive thrown : Type :=
| GIT_UNAVAILABLE
| CommandFailed (notARepository : bool)
| FsError (code : string)
| SqliteConstraint.

Inductive outcome (A : Type) : Type :=
| Returned (a : A)
| Threw (e : thrown).
Arguments Returned {A} a.
Arguments Threw {A} e.

Definition M (A : Type) : Type := server → outcome A * server.

Definition ret {A} (a : A) : M A := fun s => (Returned a, s).
Definition throw {A} (e : thrown) : M A := fun s => (Threw e, s).

Definition bind {A B} (m : M A) (k : A → M B) : M B :=
  fun s => match m s with
           | (Returned a, s') => k a s'
           | (Threw e, s') => (Threw e, s')
           end.

(** [try { m } catch (err) { handler err }] *)
Definition try_catch {A} (m : M A) (handler : thrown → M A) : M A :=
  fun s => match m s with
           | (Returned a, s') => (Returned a, s')
           | (Threw e, s') => handler e s'
           end.

(** A statement that changes the state and returns nothing. *)
Definition exec (f : server → server) : M unit := fun s => (Returned tt, f s).

Notation "'let!' x ':=' m 'in' k" := (bind m (fun x => k))
  (at level 10, x name, m at level 100, k at level 200).
Notation "m ';;' k" := (bind m (fun _ => k))
  (at level 100, k at level 200, right associativity).

Definition UNSUPPORTED_FS_CODES : list string :=
  ["ENOTSUP"; "EOPNOTSUPP"; "EPERM"; "EACCES"; "ENAMETOOLONG"].

Definition is_unsupported_code (code : string) : bool :=
  existsb (String.eqb code) UNSUPPORTED_FS_CODES.

(** [fs.Stats], as far as the server reads it.  [size] of a directory is
    never read. *)
Record Stats : Type := MkStats
  { isDirectory : bool;
    size : Z;
    mtimeMs : Q }.

(** [Math.round]: to the nearest integer, halves upwards. *)
Definition Math_round (x : Q) : Z := Qfloor (x + (1 # 2))%Q.

Section Server.

Variable START_PATH : abspath.
(** The world as it is while the step runs. *)
Variable w : world.

Abbreviation normalizeRelative := (normalizeRelative START_PATH).
Abbreviation absoluteFromRelative := (absoluteFromRelative START_PATH).

(** *** Ignored paths *)

Definition markPathUnsupported (absolutePath : abspath) (s : server) : server :=
  let s := with_unsupportedPaths (λ u, {[abs_string absolutePath]} ∪ u) s in
  let relative := normalizeRelative absolutePath in
  if JsString.truthy relative && negb (String.eqb relative "/")
     && negb (JsString.startsWith relative "..")
  then with_unsupportedPaths (λ u, {[relative]} ∪ u) s
  else s.

Definition shouldIgnorePath (s : server) (absolutePath : abspath) : bool :=
  if bool_decide (abs_string absolutePath ∈ unsupportedPaths s) then true
  else
    let relative := normalizeRelative absolutePath in
    if bool_decide (relative ∈ unsupportedPaths s) then true
    else if JsString.startsWith relative ".." then false
    else
      let lowerExt := JsString.toLowerCase (extname relative) in
      String.eqb lowerExt ".sock".

(** *** Entries *)

Definition entryFromStats (relativePath : string) (stats : Stats) : Entry.t :=
  let name := if String.eqb relativePath "/" then basename (abs_string START_PATH)
              else basename relativePath in
  let type := if isDirectory stats then directory else file in
  let extension :=
    match type with
    | file =>
        JsString.toLowerCase
          (match extname relativePath with
           | String "." rest => rest
           | e => e
           end)
    | directory => ""
    end in
  {| Entry.path := relativePath;
     Entry.name := name;
     Entry.parent_path := parentOf relativePath;
     Entry.type := type;
     Entry.size := match type with file => Some (size stats) | directory => None end;
     Entry.mtime := if Qeq_bool (mtimeMs stats) 0 then w_now w
                    else Math_round (mtimeMs stats);
     Entry.extension := extension;
     Entry.depth := depthOf relativePath |}.

(** *** The git metadata collector *)

Definition runGitCommand {A} (r : gitres A) : M A :=
  fun s =>
    if gitBinaryUnavailable s then (Threw GIT_UNAVAILABLE, s)
    else match r with
         | GitOk out => (Returned out, with_git_flags false (gitUnavailableLogged s) s)
         | GitEnoent =>
             let s := with_git_flags true (gitUnavailableLogged s) s in
             let s := if gitUnavailableLogged s then s
                      else with_git_flags true true (log warn_git_unavailable s) in
             (Threw GIT_UNAVAILABLE, s)
         | GitFail notARepository =>
             let s := if negb (gitUnavailableLogged s) && gitBinaryUnavailable s
                      then with_git_flags (gitBinaryUnavailable s) true
                             (log warn_git_unavailable s)
                      else s in
             (Threw (CommandFailed notARepository), s)
         end.

Definition deleteGitMetadata_run (relativePath : string) : M unit :=
  exec (with_db (statements.deleteGitMetadata relativePath)).

Definition upsertGitMetadata_run (relativePath : string) (row : GitRow.t) : M unit :=
  fun s => match statements.upsertGitMetadata relativePath row (db s) with
           | Done d => (Returned tt, with_db (λ _, d) s)
           | ConstraintFailed => (Threw SqliteConstraint, s)
           end.

(** A failed command leaves a field [null] unless git itself is gone. *)
Definition or_null {A} (m : M (option A)) : M (option A) :=
  try_catch m (λ err, match err with
                      | GIT_UNAVAILABLE => throw GIT_UNAVAILABLE
                      | _ => ret None
                      end).

Definition nonempty (o : option string) : option string :=
  match o with
  | Some str => if JsString.truthy str then Some str else None
  | None => None
  end.

(** The second half of [gatherGitMetadata]: branch, counts, remotes,
    then the upsert. *)
Definition collectGitMetadata (absolutePath : abspath) (relativePath : string)
  : M (option GitRow.t) :=
  let! currentBranch :=
    try_catch
      (let! out := runGitCommand (git_symbolic_ref w absolutePath) in ret (Some out))
      (λ err, match err with
              | GIT_UNAVAILABLE => throw GIT_UNAVAILABLE
              | CommandFailed true => ret None
              | _ =>
                  or_null (let! detached := runGitCommand (git_short_head w absolutePath) in
                           ret (nonempty (Some detached)))
              end) in
  let! commitCount := or_null (runGitCommand (git_commit_count w absolutePath)) in
  let! branchCount :=
    or_null (let! n := runGitCommand (git_branch_count w absolutePath) in ret (Some n)) in
  let! remotes :=
    try_catch (runGitCommand (git_remotes w absolutePath))
      (λ err, match err with
              | GIT_UNAVAILABLE => throw GIT_UNAVAILABLE
              | _ => ret []
              end) in
  let row :=
    {| GitRow.detected_at := w_now w;
       GitRow.current_branch := nonempty currentBranch;
       GitRow.commit_count := commitCount;
       GitRow.branch_count := branchCount;
       GitRow.remote_count := Z.of_nat (List.length remotes);
       GitRow.remotes := remotes |} in
  upsertGitMetadata_run relativePath row ;;
  ret (Some row).

Definition gatherGitMetadata (absolutePath : abspath) (relativePath : string)
  : M (option GitRow.t) :=
  if negb (JsString.truthy relativePath) then ret None
  else if negb (String.eqb relativePath "/") && String.eqb (basename relativePath) ".git"
  then ret None
  else
    match stat w absolutePath with
    | Broken code =>
        if String.eqb code "ENOENT"
        then deleteGitMetadata_run relativePath ;; ret None
        else throw (FsError code)
    | File _ _ => deleteGitMetadata_run relativePath ;; ret None
    | Dir _ _ _ =>
        match stat w (absolutePath ++ [".git"])%list with
        | Broken code =>
            if String.eqb code "ENOENT" || String.eqb code "ENOTDIR"
            then deleteGitMetadata_run relativePath ;; ret None
            else if is_unsupported_code code then ret None
            else throw (FsError code)
        | _ =>
            fun s =>
              match runGitCommand (git_show_toplevel w absolutePath) s with
              | (Threw GIT_UNAVAILABLE, s1) => (Threw GIT_UNAVAILABLE, s1)
              | (Threw (CommandFailed true), s1) =>
                  (deleteGitMetadata_run relativePath ;; ret None) s1
              | (Threw _, s1) =>
                  (Returned None, log (warn_git_root_failed absolutePath) s1)
              | (Returned repoRootAbsolute, s1) =>
                  let repoRelative := normalizeRelative repoRootAbsolute in
                  if JsString.startsWith repoRelative ".."
                  then (deleteGitMetadata_run relativePath ;; ret None) s1
                  else if negb (String.eqb repoRelative relativePath)
                  then (deleteGitMetadata_run relativePath ;; ret None) s1
                  else collectGitMetadata absolutePath relativePath s1
              end
        end
    end.

(** [updateGitMetadataForDirectory] swallows every exception.  A step
    runs to its end before the next one starts, so no update for the
    same key is ever pending when it is called. *)
Definition updateGitMetadataForDirectory (absolutePath : abspath) (relativePath : string)
    (s : server) : option GitRow.t * server :=
  let relPath := if JsString.truthy relativePath then relativePath
                 else normalizeRelative absolutePath in
  if negb (JsString.truthy relPath) then (None, s)
  else if negb (String.eqb relPath "/") && String.eqb (basename relPath) ".git"
  then (None, s)
  else
    match gatherGitMetadata absolutePath relPath s with
    | (Returned r, s') => (r, s')
    | (Threw GIT_UNAVAILABLE, s') => (None, s')
    | (Threw _, s') => (None, log (warn_git_update_failed relPath) s')
    end.

Definition refreshGitMetadataForPath (relativePath : string) (s : server) : server :=
  match repoPathFromGitInternal relativePath with
  | None => s
  | Some repoPath =>
      let absolute := absoluteFromRelative repoPath in
      (updateGitMetadataForDirectory absolute repoPath s).2
  end.

(** *** The initial scan

    [walk] stands on the node its path leads to: [fsp.stat] and
    [fsp.readdir] are read off that node.  [seen] is the scan's own set. *)
Fixpoint walk (absolutePath : abspath) (n : fsnode) (st : server * gset string)
  {struct n} : server * gset string :=
  if shouldIgnorePath st.1 absolutePath then st
  else
    match n with
    | Broken code =>
        if is_unsupported_code code then (markPathUnsupported absolutePath st.1, st.2)
        else st
    | File sz mt =>
        let relativePath := normalizeRelative absolutePath in
        if bool_decide (relativePath ∈ st.2) then st
        else
          let seen := {[relativePath]} ∪ st.2 in
          let entry := entryFromStats relativePath (MkStats false sz mt) in
          let s := with_db (statements.upsertEntry entry) st.1 in
          (refreshGitMetadataForPath relativePath s, seen)
    | Dir mt listable cs =>
        let relativePath := normalizeRelative absolutePath in
        if bool_decide (relativePath ∈ st.2) then st
        else
          let seen := {[relativePath]} ∪ st.2 in
          let entry := entryFromStats relativePath (MkStats true 0 mt) in
          let s := with_db (statements.upsertEntry entry) st.1 in
          let s := (updateGitMetadataForDirectory absolutePath relativePath s).2 in
          if listable then walk_children absolutePath cs (s, seen) else (s, seen)
    end
with walk_children (absolutePath : abspath) (cs : listing) (st : server * gset string)
  {struct cs} : server * gset string :=
  match cs with
  | no_more => st
  | child nm c rest =>
      walk_children absolutePath rest (walk (absolutePath ++ [nm])%list c st)
  end.

Definition scanInitialTree (s : server) : server :=
  (walk START_PATH (stat w START_PATH) (s, ∅)).1.

(** *** Caches *)

(** The fuzzy indices are rebuilt over these two lists; the [git] field
    of a cached entry is left out. *)
Definition refreshCaches (s : server) : server :=
  with_caches (statements.allEntries (db s)) (statements.allTags (db s)) s.

(** *** Reconciling watcher events *)

Definition deleteEntryBranch (relativePath : string) (s : server) : server :=
  if String.eqb relativePath "/" || negb (JsString.truthy relativePath) then s
  else
    let pattern := relativePath +:+ "/%" in
    let deleteBranch (d : database) : database :=
      statements.removeEntriesUnder pattern
        (statements.removeEntry relativePath
           (statements.deleteTagsUnder pattern
              (statements.deleteTagsForEntry relativePath d))) in
    refreshGitMetadataForPath relativePath (with_db deleteBranch s).

Definition indexPath (absolutePath : abspath) (s : server) : bool * server :=
  if shouldIgnorePath s absolutePath then (false, s)
  else
    match stat w absolutePath with
    | Broken code =>
        (false, if is_unsupported_code code then markPathUnsupported absolutePath s else s)
    | File sz mt =>
        let relativePath := normalizeRelative absolutePath in
        let entry := entryFromStats relativePath (MkStats false sz mt) in
        let s := with_db (statements.upsertEntry entry) s in
        let s := with_db (statements.deleteGitMetadata relativePath) s in
        (true, refreshGitMetadataForPath relativePath s)
    | Dir mt _ _ =>
        let relativePath := normalizeRelative absolutePath in
        let entry := entryFromStats relativePath (MkStats true 0 mt) in
        let s := with_db (statements.upsertEntry entry) s in
        (true, (updateGitMetadataForDirectory absolutePath relativePath s).2)
    end.

Definition removePath (relativePath : string) (s : server) : server :=
  let pattern := relativePath +:+ "/%" in
  let remove (d : database) : database :=
    statements.removeEntriesUnder pattern
      (statements.removeEntry relativePath
         (statements.deleteTagsUnder pattern
            (statements.deleteTagsForEntry relativePath d))) in
  refreshGitMetadataForPath relativePath (with_db remove s).

(** The events chokidar emits on a watcher object. *)
Inductive fs_event : Type :=
| add (filePath : abspath)
| change (filePath : abspath)
| unlink (filePath : abspath)
| addDir (dirPath : abspath)
| unlinkDir (dirPath : abspath).

(** The listeners [registerWatcherEvents] puts on [instance]. *)
Definition on_fs_event (instance : nat) (ev : fs_event) (s : server) : server :=
  if negb (bool_decide (watcher s = Some instance)) then s
  else
    match ev with
    | add filePath =>
        match indexPath filePath s with
        | (false, s) => s
        | (true, s) => broadcast (entry_added (normalizeRelative filePath)) (refreshCaches s)
        end
    | change filePath =>
        match indexPath filePath s with
        | (false, s) => s
        | (true, s) => broadcast (entry_updated (normalizeRelative filePath)) (refreshCaches s)
        end
    | unlink filePath =>
        if shouldIgnorePath s filePath then s
        else
          let relativePath := normalizeRelative filePath in
          broadcast (entry_removed relativePath) (refreshCaches (removePath relativePath s))
    | addDir dirPath =>
        match indexPath dirPath s with
        | (false, s) => s
        | (true, s) => broadcast (entry_added (normalizeRelative dirPath)) (refreshCaches s)
        end
    | unlinkDir dirPath =>
        if shouldIgnorePath s dirPath then s
        else
          let relativePath := normalizeRelative dirPath in
          broadcast (entry_removed relativePath)
            (refreshCaches (deleteEntryBranch relativePath s))
    end.

End Server.

(** ** Search *)

(** A search hit: the cached entry with the tags read from the store
    ([git] left out as in the cache). *)
Record search_result : Type := SearchResult
  { hit : Entry.t;
    hit_tags : list Tag.t }.

Record tag_filter : Type := TagFilter
  { filter_key : string;
    filter_value : string }.

(** A JavaScript [Set] of strings: its elements in insertion order. *)
Definition new_Set (l : list string) : list string := remove_dups l.
Definition Set_has (set : list string) (x : string) : bool := bool_decide (x ∈ set).

(** [Array.prototype.reduce] without initial value, on a non-empty array
    it starts from the first element. *)
Definition reduce {A} (f : A → A → A) (l : list A) : option A :=
  match l with
  | [] => None
  | first :: rest => Some (foldl f first rest)
  end.

Definition listTagsForPath (relativePath : string) (s : server) : list Tag.t :=
  statements.entryTags relativePath (db s).

(** [null] is [None]. *)
Definition filterPathsByTags (filters : list tag_filter) (s : server) : option (list string) :=
  match filters with
  | [] => None
  | _ =>
      let sets :=
        List.map (λ f, new_Set (statements.pathsForTag (filter_key f) (filter_value f) (db s)))
          filters in
      reduce (λ acc current, List.filter (λ value, Set_has current value) acc) sets
  end.

(** The loop of [gatherSearchResults] over the fuzzy matches. *)
Fixpoint collect_matches (targetPathsSet : option (list string)) (results : list Entry.t)
    (seen : list string) (list_ : list Entry.t) : list Entry.t :=
  match results with
  | [] => list_
  | entry :: rest =>
      if match targetPathsSet with
         | Some set => negb (Set_has set (Entry.path entry))
         | None => false
         end
      then collect_matches targetPathsSet rest seen list_
      else if negb (Set_has seen (Entry.path entry))
      then collect_matches targetPathsSet rest (seen ++ [Entry.path entry]) (list_ ++ [entry])
      else collect_matches targetPathsSet rest seen list_
  end.

Section Fuse.

(** Fuse.js is taken as given: for a collection and a pattern it ranks
    the matching items, best first; [search(pattern, {limit})] keeps the
    first [limit] of them. *)
Variable entryFuse_rank : list Entry.t → string → list Entry.t.

Definition entryFuse_search (s : server) (query : string) (limit : Z) : list Entry.t :=
  take (Z.to_nat limit) (entryFuse_rank (entryCache s) query).

Definition gatherSearchResults (query : string) (tagFilters : list tag_filter) (s : server)
  : list search_result :=
  let targetPathsSet := filterPathsByTags tagFilters s in
  let candidates :=
    match targetPathsSet with
    | Some set => List.filter (λ entry, Set_has set (Entry.path entry)) (entryCache s)
    | None => entryCache s
    end in
  let decorate (entry : Entry.t) :=
    {| hit := entry; hit_tags := listTagsForPath (Entry.path entry) s |} in
  if JsString.truthy query then
    let fuseResults := entryFuse_search s query 50 in
    List.map decorate (collect_matches targetPathsSet fuseResults [] [])
  else
    List.map decorate (take 50 candidates).

End Fuse.

(** ** The tag endpoints *)

Inductive response (A : Type) : Type :=
| status (code : Z) (error : string)
| json (body : A).
Arguments status {A} code error.
Arguments json {A} body.

(** A JavaScript number as [parseInt] can yield it. *)
Inductive number : Type :=
| NaN
| Infinity (negative : bool)
| Finite (z : Z).

Definition digit_value (c : ascii) : option Z :=
  let n := N_of_ascii c in
  if ((48 <=? n) && (n <=? 57))%N then Some (Z.of_N n - 48) else None.

(** The longest run of decimal digits at the head of [s]: their value
    and how many there are. *)
Fixpoint leading_digits (s : string) (acc : Z) (count : nat) : Z * nat :=
  match s with
  | String c s' =>
      match digit_value c with
      | Some dgt => leading_digits s' (10 * acc + dgt) (S count)
      | None => (acc, count)
      end
  | EmptyString => (acc, count)
  end.

(** Integers from here on round to an infinite double. *)
Definition overflow_threshold : Z := 2 ^ 1024 - 2 ^ 970.

(** [Number.parseInt(s, 10)]: leading white space, an optional sign,
    then digits; NaN without digits.  A finite result stands for the
    double nearest to it. *)
Definition parseInt10 (s : string) : number :=
  let t := JsString.trimStart s in
  let '(negative, body) :=
    match t with
    | String "-" r => (true, r)
    | String "+" r => (false, r)
    | _ => (false, t)
    end in
  match leading_digits body 0 0 with
  | (_, O) => NaN
  | (v, _) =>
      if overflow_threshold <=? v then Infinity negative
      else Finite (if negative then - v else v)
  end.

Record tag_hit : Type := TagHit
  { th_path : string;
    th_key : string;
    th_value : string;
    th_pair : string;
    th_score : Q }.

(** The [limit] the handler passes to Fuse: the clamped [rawLimit] when
    [Number.isFinite] holds of it, 20 otherwise. *)
Definition tags_search_limit (limit_param : option string) : Z :=
  let rawLimit := match limit_param with
                  | Some str => parseInt10 str
                  | None => NaN
                  end in
  match rawLimit with
  | Finite z => Z.min (Z.max z 1) 100
  | _ => 20
  end.

Section TagFuse.

Variable tagFuse_rank : list Tag.t → string → list (Tag.t * Q).

Definition tagFuse_search (s : server) (query : string) (limit : Z) : list (Tag.t * Q) :=
  take (Z.to_nat limit) (tagFuse_rank (tagCache s) query).

(** GET /api/tags/search; a query parameter that is not a single string
    is [None]. *)
Definition get_api_tags_search (q limit_param : option string) (s : server)
  : response (list tag_hit) :=
  let query := match q with Some str => JsString.trim str | None => "" end in
  if negb (JsString.truthy query) then status 400 "q query parameter required"
  else
    let limit := tags_search_limit limit_param in
    let fuseResults := tagFuse_search s query limit in
    json (List.map (λ result,
                      {| th_path := Tag.entry_path result.1;
                         th_key := Tag.key result.1;
                         th_value := Tag.value result.1;
                         th_pair := Tag.key result.1 +:+ ":" +:+ Tag.value result.1;
                         th_score := result.2 |})
            fuseResults).

End TagFuse.

(** POST /api/tags; a body field that is absent or [null] is [None],
    the others are strings. *)
Definition post_api_tags (relativePath key value : option string) (s : server)
  : response bool * server :=
  match relativePath, key, value with
  | Some p, Some k, Some v =>
      if negb (JsString.truthy p) || negb (JsString.truthy k) || negb (JsString.truthy v)
      then (status 400 "path, key, and value are required", s)
      else
        match statements.singleEntry p (db s) with
        | None => (status 404 "Entry not found", s)
        | Some _ =>
            match statements.addTag p k v (db s) with
            | Done d =>
                let s := with_db (λ _, d) s in
                let s := refreshCaches s in
                let s := broadcast (tag_added p k v) s in
                (json true, s)
            | ConstraintFailed => (status 500 "Internal Server Error", s)
            end
        end
  | _, _, _ => (status 400 "path, key, and value are required", s)
  end.

(** DELETE /api/tags *)
Definition delete_api_tags (relativePath key value : option string) (s : server)
  : response bool * server :=
  match relativePath, key, value with
  | Some p, Some k, Some v =>
      if negb (JsString.truthy p) || negb (JsString.truthy k) || negb (JsString.truthy v)
      then (status 400 "path, key, and value are required", s)
      else
        let s := with_db (statements.deleteTag p k v) s in
        let s := refreshCaches s in
        let s := broadcast (tag_removed p k v) s in
        (json true, s)
  | _, _, _ => (status 400 "path, key, and value are required", s)
  end.


(** ** The watcher and its two modes *)

(** The error object of an [error] event. *)
Record watcher_error : Type := WatcherError
  { err_code : option string;       (** [err.code] when it is a string *)
    err_message : option string;    (** [err.message] when it is a string *)
    err_path : option abspath }.    (** [err.path] *)

Definition isWatcherLimitError (err : watcher_error) : bool :=
  let code := match err_code err with Some c => JsString.toUpperCase c | None => "" end in
  if String.eqb code "EMFILE" || String.eqb code "ENOSPC" then true
  else
    let message := match err_message err with
                   | Some m => JsString.toUpperCase m
                   | None => ""
                   end in
    JsString.includes message "EMFILE" || JsString.includes message "ENOSPC".

Definition has_unsupported_code (err : watcher_error) : bool :=
  match err_code err with
  | Some c => is_unsupported_code c
  | None => false
  end.

Section Watcher.

Variable START_PATH : abspath.

(** The rest of the body: [new chokidar.FSWatcher(...)],
    [registerWatcherEvents], the two assignments, [newWatcher.add], the
    warning of the polling mode, and the [finally] that clears
    [watcherSwitchPromise].  [add] returns the watcher itself, so
    [await newWatcher.add(START_PATH)] goes on before any event is
    handled. *)
Definition install_watcher (mode : watch_mode) (s : server) : server :=
  let s := with_watcher (Some (watchersCreated s)) mode None (S (watchersCreated s)) s in
  match mode with
  | polling => log warn_polling_mode s
  | native => s
  end.

(** [switchWatcherMode(mode)] up to [await oldWatcher.close()], or to
    its end when there is no watcher to close. *)
Definition switchWatcherMode (mode : watch_mode) (s : server) : server :=
  if bool_decide (mode = watcherMode s) && bool_decide (is_Some (watcher s)) then s
  else if bool_decide (is_Some (watcherSwitchPromise s)) then s
  else
    match watcher s with
    | Some oldWatcher =>
        with_watcher None (watcherMode s) (Some (Closing mode)) (watchersCreated s) s
    | None => install_watcher mode s
    end.

(** [oldWatcher.close()] settles; a rejection is logged and ignored. *)
Definition close_settled (fulfilled : bool) (s : server) : server :=
  match watcherSwitchPromise s with
  | Some (Closing mode) =>
      install_watcher mode (if fulfilled then s else log warn_close_failed s)
  | _ => s
  end.

Definition handleWatcherError (err : watcher_error) (instance : nat) (s : server) : server :=
  if negb (bool_decide (watcher s = Some instance)) then s
  else
    let s := if watcherErrorDiagnosticsLogged s then s
             else with_diagnostics_logged (log warn_watcher_error_diagnostics s) in
    if has_unsupported_code err then
      let s := match err_path err with
               | Some targetPath => markPathUnsupported START_PATH targetPath s
               | None => s
               end in
      log warn_skipping_unsupported s
    else if isWatcherLimitError err then
      match watcherMode s with
      | native => switchWatcherMode polling (log warn_limit_switching s)
      | polling => log warn_limit_in_polling s
      end
    else log error_watcher_error s.

(** Everything that can happen to the running process. *)
Inductive event : Type :=
| fs (instance : nat) (ev : fs_event)
| error (instance : nat) (err : watcher_error)
| closed (fulfilled : bool).

Definition step (w : world) (e : event) (s : server) : server :=
  match e with
  | fs instance ev => on_fs_event START_PATH w instance ev s
  | error instance err => handleWatcherError err instance s
  | closed fulfilled => close_settled fulfilled s
  end.

(** [bootstrap] up to [server.listen]. *)
Definition bootstrap (w : world) (s : server) : server :=
  switchWatcherMode native (refreshCaches (scanInitialTree START_PATH w s)).

Definition run (trace : list (world * event)) (s : server) : server :=
  foldl (λ s we, step we.1 we.2 s) s trace.

End Watcher.

(** ** Query parameters and the tag filters of a search *)

(** A query parameter as Express hands it over: absent, given once, or
    given several times.  (A nested parameter, which Express turns into
    an object, is not covered.) *)
Inductive query_value : Type :=
| QAbsent
| QString (str : string)
| QArray (items : list string).

(** The loop of [parseTagFilters] over [raw]. *)
Fixpoint parseTagFilters_loop (raw : list string) (clean : list tag_filter)
  : list tag_filter :=
  match raw with
  | [] => clean
  | piece :: rest =>
      let trimmed := JsString.trim piece in
      if negb (JsString.truthy trimmed) then parseTagFilters_loop rest clean
      else
        let splitIndex := JsString.indexOf ":" trimmed in
        if splitIndex =? -1 then parseTagFilters_loop rest clean
        else
          let key := JsString.trim (JsString.slice_to trimmed splitIndex) in
          let value := JsString.trim (JsString.slice_from trimmed (splitIndex + 1)) in
          if JsString.truthy key && JsString.truthy value
          then parseTagFilters_loop rest (clean ++ [TagFilter key value])
          else parseTagFilters_loop rest clean
  end.

Definition parseTagFilters (tagParam : query_value) : list tag_filter :=
  match tagParam with
  | QAbsent => []
  | QString str =>
      if negb (JsString.truthy str) then []
      else parseTagFilters_loop (JsString.split "," str) []
  | QArray items => parseTagFilters_loop items []
  end.

(** The [tags] parameter as [public/app.js] writes it:
    [filters.map((item) => `${item.key}:${item.value}`).join(',')]. *)
Definition encodeTagFilters (filters : list tag_filter) : string :=
  JsString.join ","
    (List.map (λ item, filter_key item +:+ ":" +:+ filter_value item) filters).

(** ** The read endpoints *)

(** [typeof req.query.x === 'string' ? req.query.x : ''] *)
Definition string_param (x : query_value) : string :=
  match x with
  | QString str => str
  | _ => ""
  end.

Section SearchEndpoint.

Variable entryFuse_rank : list Entry.t → string → list Entry.t.

(** GET /api/search *)
Definition get_api_search (q tags : query_value) (s : server) : list search_result :=
  let query := JsString.trim (string_param q) in
  let tagFilters := parseTagFilters tags in
  gatherSearchResults entryFuse_rank query tagFilters s.

End SearchEndpoint.

(** GET /api/tags: the tags of one entry, read from the store, or all
    tags, read from the cache. *)
Definition get_api_tags (path_param : query_value) (s : server) : response (list Tag.t) :=
  let relativePath := string_param path_param in
  if JsString.truthy relativePath then
    match statements.singleEntry relativePath (db s) with
    | None => status 404 "Entry not found"
    | Some _ =>
        json (List.map (λ tag, Tag.Build relativePath (Tag.key tag) (Tag.value tag))
                (listTagsForPath relativePath s))
    end
  else
    json (List.map (λ tag, Tag.Build (Tag.entry_path tag) (Tag.key tag) (Tag.value tag))
            (tagCache s)).

(** ** Suggestions *)

(** [s.split(/\s+/)]: the pieces between the runs of white space; [gap]
    says that the character before was white space. *)
Fixpoint split_spaces (s : string) (gap : bool) : list string :=
  match s with
  | EmptyString => [EmptyString]
  | String c s' =>
      if JsString.is_whitespace c
      then if gap then split_spaces s' true else EmptyString :: split_spaces s' true
      else match split_spaces s' false with
           | h :: t => String c h :: t
           | [] => [String c EmptyString]
           end
  end.

(** One step of the [reduce] that builds [tagValuesByKey], a [Map] from a
    key to the [Set] of its values: both keep insertion order. *)
Fixpoint Map_add_value (map : list (string * list string)) (k v : string)
  : list (string * list string) :=
  match map with
  | [] => [(k, [v])]
  | (k', values) :: rest =>
      if String.eqb k' k
      then (k', if Set_has values v then values else values ++ [v]) :: rest
      else (k', values) :: Map_add_value rest k v
  end.

(** [tagValuesByKey]: [refreshCaches] assigns it together with
    [tagCache], from the same rows, so it is read off [tagCache]. *)
Definition tagValuesByKey (s : server) : list (string * list string) :=
  foldl (λ map row, Map_add_value map (Tag.key row) (Tag.value row)) [] (tagCache s).

(** [map.get(k) || []] *)
Fixpoint Map_get (map : list (string * list string)) (k : string) : list string :=
  match map with
  | [] => []
  | (k', values) :: rest => if String.eqb k' k then values else Map_get rest k
  end.

Inductive suggestion_type : Type := sg_path | sg_tag | sg_tagKey.

#[global] Instance suggestion_type_eq_dec : EqDecision suggestion_type.
Proof. solve_decision. Defined.

Definition type_name (t : suggestion_type) : string :=
  match t with
  | sg_path => "path"
  | sg_tag => "tag"
  | sg_tagKey => "tagKey"
  end.

Record suggestion : Type := Suggestion
  { sg_type : suggestion_type;
    sg_value : string }.

#[global] Instance suggestion_eq_dec : EqDecision suggestion.
Proof. solve_decision. Defined.

(** The loop that drops a suggestion whose token was seen before. *)
Fixpoint unique_suggestions (merged : list suggestion) (seen : list string)
    (unique : list suggestion) : list suggestion :=
  match merged with
  | [] => unique
  | sg :: rest =>
      let token := type_name (sg_type sg) +:+ ":" +:+ sg_value sg in
      if negb (Set_has seen token)
      then unique_suggestions rest (seen ++ [token]) (unique ++ [sg])
      else unique_suggestions rest seen unique
  end.

Section Suggestions.

Variable entryFuse_rank : list Entry.t → string → list Entry.t.
Variable tagFuse_rank : list Tag.t → string → list (Tag.t * Q).

Definition buildSuggestions (queryRaw : string) (s : server) : list suggestion :=
  let query := JsString.trim queryRaw in
  if negb (JsString.truthy query) then
    List.map (λ entry, Suggestion sg_path (Entry.path entry))
      (take 10 (List.filter
                  (λ entry, bool_decide (Entry.type entry = directory)
                            && negb (String.eqb (Entry.path entry) "/"))
                  (entryCache s)))
  else
    let segments := split_spaces query false in
    let current := List.last segments "" in
    let colonIndex := JsString.indexOf ":" current in
    if -1 <? colonIndex then
      let keyPart := JsString.slice_to current colonIndex in
      let valuePart := JsString.slice_from current (colonIndex + 1) in
      let values := Map_get (tagValuesByKey s) keyPart in
      List.map (λ value, Suggestion sg_tag (keyPart +:+ ":" +:+ value))
        (take 10 (List.filter
                    (λ value, JsString.startsWith (JsString.toLowerCase value)
                                (JsString.toLowerCase valuePart))
                    values))
    else
      let pathMatches :=
        List.map (λ item, Suggestion sg_path (Entry.path item))
          (entryFuse_search entryFuse_rank s current 5) in
      let tagMatches :=
        List.map (λ result, Suggestion sg_tag
                              (Tag.key result.1 +:+ ":" +:+ Tag.value result.1))
          (tagFuse_search tagFuse_rank s current 5) in
      let keyMatches :=
        List.map (λ key, Suggestion sg_tagKey (key +:+ ":"))
          (take 5 (List.filter
                     (λ key, JsString.startsWith (JsString.toLowerCase key)
                               (JsString.toLowerCase current))
                     (List.map fst (tagValuesByKey s)))) in
      let merged := pathMatches ++ tagMatches ++ keyMatches in
      take 10 (unique_suggestions merged [] []).

(** GET /api/suggestions *)
Definition get_api_suggestions (q : query_value) (s : server) : list suggestion :=
  buildSuggestions (string_param q) s.

End Suggestions.

(** ** Snippets of a file search *)

(** [text.replace(/\t/g, '    ')] *)
Fixpoint expand_tabs (text : string) : string :=
  match text with
  | EmptyString => EmptyString
  | String c rest =>
      if Ascii.eqb c "009" then "    " +:+ expand_tabs rest
      else String c (expand_tabs rest)
  end.

(** [s.slice(start, end)] for [0 <= start] and [0 <= end]. *)
Definition slice (s : string) (start end_ : Z) : string :=
  String.substring (Z.to_nat start) (Z.to_nat (end_ - start)) s.

Definition string_length (s : string) : Z := Z.of_nat (String.length s).

Section Snippet.

(** The one character [U+2026], the horizontal ellipsis. *)
Variable ellipsis : ascii.

Definition buildFileSnippet (lineText query : string) : string :=
  let text := lineText in
  let trimmedQuery := JsString.trim query in
  let MAX_LENGTH := 240 in
  if negb (JsString.truthy text) then ""
  else
    let normalizedText := expand_tabs text in
    if negb (JsString.truthy trimmedQuery) then
      if string_length normalizedText <=? MAX_LENGTH then normalizedText
      else JsString.slice_to normalizedText (MAX_LENGTH - 1) +:+ String ellipsis ""
    else
      let lowerText := JsString.toLowerCase normalizedText in
      let lowerQuery := JsString.toLowerCase trimmedQuery in
      let index := JsString.indexOf lowerQuery lowerText in
      if index =? -1 then
        if string_length normalizedText <=? MAX_LENGTH then normalizedText
        else JsString.slice_to normalizedText (MAX_LENGTH - 1) +:+ String ellipsis ""
      else
        let preContext := 60 in
        let postContext := 120 in
        let start := Z.max 0 (index - preContext) in
        let end_ := Z.min (string_length normalizedText)
                      (index + string_length lowerQuery + postContext) in
        let snippet := slice normalizedText start end_ in
        let snippet := if 0 <? start then String ellipsis "" +:+ snippet else snippet in
        let snippet := if end_ <? string_length normalizedText
                       then snippet +:+ String ellipsis "" else snippet in
        snippet.

End Snippet.

(** ** The output of [git remote -v] *)

(** [!x] for a field that is [null] or a string. *)
Definition falsy (x : option string) : bool :=
  match x with
  | Some str => negb (JsString.truthy str)
  | None => true
  end.

(** [remotes.has(name)], [remotes.set(name, ...)] when it is not there,
    then [remotes.get(name)] and the assignments [f] to the object found:
    the [Map] keeps its insertion order. *)
Fixpoint remotes_update (remotes : list GitRow.remote) (name : string)
    (f : GitRow.remote → GitRow.remote) : list GitRow.remote :=
  match remotes with
  | [] => [f (GitRow.Remote name None None)]
  | remote :: rest =>
      if String.eqb (GitRow.remote_name remote) name then f remote :: rest
      else remote :: remotes_update rest name f
  end.

(** The body of the loop over the lines. *)
Definition parse_remote_line (remotes : list GitRow.remote) (rawLine : string)
  : list GitRow.remote :=
  let line := JsString.trim rawLine in
  if negb (JsString.truthy line) then remotes
  else
    match split_spaces line false with
    | name :: url :: rest =>
        let type := List.head rest in
        remotes_update remotes name
          (λ remote,
             if bool_decide (type = Some "(fetch)") then
               GitRow.Remote (GitRow.remote_name remote) (Some url) (GitRow.pushUrl remote)
             else if bool_decide (type = Some "(push)") then
               GitRow.Remote (GitRow.remote_name remote) (GitRow.fetchUrl remote) (Some url)
             else
               GitRow.Remote (GitRow.remote_name remote)
                 (if falsy (GitRow.fetchUrl remote) then Some url
                  else GitRow.fetchUrl remote)
                 (if falsy (GitRow.pushUrl remote) then Some url
                  else GitRow.pushUrl remote))
    | _ => remotes
    end.

Definition parseGitRemoteOutput (output : string) : list GitRow.remote :=
  if negb (JsString.truthy output) then []
  else
    let lines := JsString.split "010" output in
    List.map
      (λ remote,
         GitRow.Remote (GitRow.remote_name remote)
           (nonempty (GitRow.fetchUrl remote))
           (match nonempty (GitRow.pushUrl remote) with
            | Some url => Some url
            | None => nonempty (GitRow.fetchUrl remote)
            end))
      (foldl parse_remote_line [] lines).

(** ** The tree of GET /api/tree *)

(** A node object of [buildTree].  The [Map] [nodes] holds one object per
    path, and a [children] array holds such objects: here an object is
    named by the key [nodes] holds it under.  ([git] is left out as in
    the cache.) *)
Record tree_node : Type := TreeNode
  { tn_path : string;
    tn_name : string;
    tn_type : kind;
    tn_size : option Z;
    tn_mtime : Z;
    tn_extension : string;
    tn_depth : Z;
    tn_tags : list Tag.t;
    tn_children : list string }.

Definition with_children (children : list string) (node : tree_node) : tree_node :=
  TreeNode (tn_path node) (tn_name node) (tn_type node) (tn_size node) (tn_mtime node)
    (tn_extension node) (tn_depth node) (tn_tags node) children.

(** [Array.prototype.sort(compare)]: a stable sort that puts [a] before
    [b] when [compare(a, b) <= 0].  An element goes in front of what
    follows it up to the first element it does not come after. *)
Fixpoint Array_insert {A} (compare : A → A → Z) (x : A) (sorted : list A) : list A :=
  match sorted with
  | [] => [x]
  | y :: rest =>
      if compare x y <=? 0 then x :: sorted else y :: Array_insert compare x rest
  end.

Definition Array_sort {A} (compare : A → A → Z) (l : list A) : list A :=
  foldr (Array_insert compare) [] l.

Section Tree.

Variable START_PATH : abspath.
(** [a.localeCompare(b, undefined, { sensitivity: 'base' })] *)
Variable localeCompare : string → string → Z.

(** The object the first loop of [buildTree] makes for an entry. *)
Definition new_node (s : server) (entry : Entry.t) : tree_node :=
  {| tn_path := Entry.path entry;
     tn_name := if String.eqb (Entry.path entry) "/"
                then basename (abs_string START_PATH)
                else Entry.name entry;
     tn_type := Entry.type entry;
     tn_size := Entry.size entry;
     tn_mtime := Entry.mtime entry;
     tn_extension := Entry.extension entry;
     tn_depth := Entry.depth entry;
     tn_tags := listTagsForPath (Entry.path entry) s;
     tn_children := [] |}.

(** The second loop of [buildTree] for one entry. *)
Definition attach (nodes : gmap string tree_node) (entry : Entry.t) : gmap string tree_node :=
  match nonempty (Entry.parent_path entry) with
  | None => nodes
  | Some parent_path =>
      match nodes !! parent_path, nodes !! Entry.path entry with
      | Some parent, Some node =>
          <[parent_path := with_children (tn_children parent ++ [Entry.path entry]) parent]>
            nodes
      | _, _ => nodes
      end
  end.

(** The comparator of the children, on the objects named [a] and [b]. *)
Definition compare_children (nodes : gmap string tree_node) (a b : string) : Z :=
  match nodes !! a, nodes !! b with
  | Some a, Some b =>
      if negb (bool_decide (tn_type a = tn_type b))
      then if bool_decide (tn_type a = directory) then -1 else 1
      else localeCompare (tn_name a) (tn_name b)
  | _, _ => 0
  end.

(** [buildTree()]: the node objects and the root, [None] for [null]. *)
Definition buildTree (s : server) : gmap string tree_node * option string :=
  let entries := statements.allEntries (db s) in
  let nodes :=
    foldl (λ nodes entry, <[Entry.path entry := new_node s entry]> nodes) ∅ entries in
  let root := match nodes !! "/" with Some _ => Some "/" | None => None end in
  let nodes := foldl attach nodes entries in
  let nodes :=
    (λ node, with_children (Array_sort (compare_children nodes) (tn_children node)) node)
      <$> nodes in
  (nodes, root).

End Tree.

(** * The vocabulary of the properties

    Predicates the statements below are written with.  They read the
    embedding and add nothing to it. *)

(** ** Frames *)

(** [s'] differs from [s] at most in the git table, the git flags and the
    console. *)
Record git_only (s s' : server) : Prop := GitOnly
  { same_entries : entries (db s') = entries (db s);
    same_tags : tags (db s') = tags (db s);
    same_unsupported : unsupportedPaths s' = unsupportedPaths s;
    same_entryCache : entryCache s' = entryCache s;
    same_tagCache : tagCache s' = tagCache s;
    same_watcher : watcher s' = watcher s;
    same_mode : watcherMode s' = watcherMode s;
    same_promise : watcherSwitchPromise s' = watcherSwitchPromise s;
    same_created : watchersCreated s' = watchersCreated s;
    same_diagnostics : watcherErrorDiagnosticsLogged s' = watcherErrorDiagnosticsLogged s;
    same_sent : sent s' = sent s }.

(** Whatever the outcome, [m] changes the git side only. *)
Definition frames {A} (m : M A) : Prop := ∀ s, git_only s (m s).2.

(** Whatever the outcome, [m] leaves the three tables alone. *)
Definition keeps_db {A} (m : M A) : Prop := ∀ s, db (m s).2 = db s.

(** [s'] has the watcher variables of [s]. *)
Record same_watching (s s' : server) : Prop := SameWatching
  { sw_watcher : watcher s' = watcher s;
    sw_mode : watcherMode s' = watcherMode s;
    sw_promise : watcherSwitchPromise s' = watcherSwitchPromise s;
    sw_created : watchersCreated s' = watchersCreated s }.

(** ** Removing a branch *)

(** [q] lies strictly below the directory [p]. *)
Definition below (p q : string) : Prop := String.prefix (p +:+ "/") q = true.

(** The four statements both removal transactions run. *)
Definition delete_branch (relativePath : string) (d : database) : database :=
  statements.removeEntriesUnder (relativePath +:+ "/%")
    (statements.removeEntry relativePath
       (statements.deleteTagsUnder (relativePath +:+ "/%")
          (statements.deleteTagsForEntry relativePath d))).

(** What a removal promises about the branch at [p], between the store
    [d] before and the store [d'] after: the row of [p] and the rows
    below it are gone, so are the tags on them, no tag is left on a row
    that went, and nothing came in. *)
Record branch_removed (p : string) (d d' : database) : Prop := BranchRemoved
  { entry_gone : entries d' !! p = None;
    descendants_gone : ∀ q, below p q → entries d' !! q = None;
    tags_gone : ∀ t, t ∈ tags d' → Tag.entry_path t ≠ p ∧ ¬ below p (Tag.entry_path t);
    no_orphan_tags :
      ∀ t, t ∈ tags d' →
           is_Some (entries d !! Tag.entry_path t) → is_Some (entries d' !! Tag.entry_path t);
    nothing_added :
      (∀ q e, entries d' !! q = Some e → entries d !! q = Some e)
      ∧ ∀ t, t ∈ tags d' → t ∈ tags d }.

(** ** Git metadata *)

(** What one call of the collector can do to the row of [relativePath]:
    nothing, clear it, or store a fresh one. *)
Inductive git_effect (relativePath : string) (d d' : database)
  : outcome (option GitRow.t) → Prop :=
| effect_none (out : outcome (option GitRow.t)) :
    d' = d → (∀ row, out ≠ Returned (Some row)) → git_effect relativePath d d' out
| effect_cleared :
    d' = statements.deleteGitMetadata relativePath d →
    git_effect relativePath d d' (Returned None)
| effect_stored (row : GitRow.t) :
    entries d' = entries d → tags d' = tags d →
    git_metadata d' = <[relativePath := row]> (git_metadata d) →
    git_effect relativePath d d' (Returned (Some row)).

(** [gatherGitMetadata] gets as far as asking git for the repository
    root: the path is a directory with a [.git] entry, it is not itself a
    [.git], and the binary has not been found missing. *)
Definition asks_git_for_root (w : world) (absolutePath : abspath) (relativePath : string)
    (s : server) : bool :=
  JsString.truthy relativePath
  && negb (negb (String.eqb relativePath "/") && String.eqb (basename relativePath) ".git")
  && match stat w absolutePath with
     | Dir _ _ _ =>
         match stat w (absolutePath ++ [".git"])%list with
         | Broken _ => false
         | _ => true
         end
     | _ => false
     end
  && negb (gitBinaryUnavailable s).

(** [relativePath] is git-internal and [repo] owns it: it is [.git] or
    begins with [.git/], and [repo] is the root; or it reads [repo/.git]
    followed by nothing or by [/...], where [/.git] does not occur in
    [repo] and the path does not begin with [.git/]. *)
Inductive git_internal_of : string → string → Prop :=
| git_internal_root (relativePath : string) :
    relativePath = ".git" ∨ JsString.startsWith relativePath ".git/" = true →
    git_internal_of "/" relativePath
| git_internal_nested (repo suffix : string) :
    repo ≠ "" →
    JsString.startsWith (repo +:+ "/") ".git/" = false →
    JsString.includes repo "/.git" = false →
    suffix = "" ∨ JsString.startsWith suffix "/" = true →
    git_internal_of repo (repo +:+ "/.git" +:+ suffix).

(** No repository owns [relativePath]: outside a [.git] at the root, it
    holds no [/.git] at all, or its first [/.git] goes on with a
    character other than [/], as in [a/.github/b/.git/HEAD]. *)
Inductive git_unowned : string → Prop :=
| unowned_plain (relativePath : string) :
    relativePath ≠ ".git" →
    JsString.startsWith relativePath ".git/" = false →
    JsString.includes relativePath "/.git" = false →
    git_unowned relativePath
| unowned_lookalike (pre rest : string) (c : ascii) :
    JsString.startsWith (pre +:+ "/") ".git/" = false →
    JsString.includes pre "/.git" = false →
    c ≠ "/"%char →
    git_unowned (pre +:+ "/.git" +:+ String c rest).

(** ** Requests *)

(** The tag table holds, for the path [p], the pair of every filter. *)
Definition carries_all (d : database) (filters : list tag_filter) (p : string) : bool :=
  forallb (λ f, bool_decide (Tag.Build p (filter_key f) (filter_value f) ∈ tags d)) filters.

(** Every character of [s] passes [f]. *)
Fixpoint all_chars (f : ascii → bool) (s : string) : bool :=
  match s with
  | EmptyString => true
  | String c s' => f c && all_chars f s'
  end.

Definition is_digit (c : ascii) : bool :=
  match digit_value c with Some _ => true | None => false end.

Definition starts_with_digit (s : string) : bool :=
  match s with
  | String c _ => is_digit c
  | EmptyString => false
  end.

(** The decimal numeral of an integer, as a request writes it: a minus
    sign for a negative number, then the digits without leading zeros. *)
Definition digit_char (d : Z) : ascii := ascii_of_N (Z.to_N (48 + d)).

Fixpoint numeral_digits (fuel : nat) (n : Z) (tail : string) : string :=
  match fuel with
  | O => tail
  | S fuel =>
      let tail := String (digit_char (n mod 10)) tail in
      if n <? 10 then tail else numeral_digits fuel (n / 10) tail
  end.

Definition numeral (n : Z) : string :=
  let digits := numeral_digits (S (Z.to_nat (Z.log2 (Z.abs n)))) (Z.abs n) "" in
  if n <? 0 then String "-" digits else digits.

(** A body field the handler takes as missing: absent, [null] or empty. *)
Definition missing (field : option string) : bool :=
  match field with
  | Some str => negb (JsString.truthy str)
  | None => true
  end.

(** ** The watcher *)

(** An unsettled switch and the watcher variables agree. *)
Definition switch_sound (s : server) : Prop :=
  match watcherSwitchPromise s with
  | Some (Closing mode) => mode = polling ∧ watcherMode s = native ∧ watcher s = None
  | None => is_Some (watcher s)
  end.

(** The handler treats [err] as a resource limit. *)
Definition limit_error (err : watcher_error) : Prop :=
  has_unsupported_code err = false ∧ isWatcherLimitError err = true.

(** The body of a switch to polling waits for the old watcher to close. *)
Definition awaiting_close (s : server) : Prop :=
  watcherSwitchPromise s = Some (Closing polling)
  ∧ watcher s = None ∧ watcherMode s = native.

(** The event is the settling of [oldWatcher.close()]. *)
Definition is_closed (e : event) : bool :=
  match e with closed _ => true | _ => false end.

(** ** Paths and rows *)

(** A value the normaliser yields only for a path outside the root: [..]
    itself or something below it. *)
Definition is_outside_value (relativePath : string) : bool :=
  String.eqb relativePath ".." || JsString.startsWith relativePath "../".

(** No row is keyed by an outside value. *)
Definition no_outside_entries (d : database) : Prop :=
  ∀ q e, entries d !! q = Some e → is_outside_value q = false.

(** The path an event is about. *)
Definition event_path (ev : fs_event) : abspath :=
  match ev with
  | add p | change p | unlink p | addDir p | unlinkDir p => p
  end.

(** Every row sits under its own path, names the parent of that path,
    and the parent has a row. *)
Record index_consistent (d : database) : Prop := IndexConsistent
  { rows_keyed :
      ∀ q e, entries d !! q = Some e →
             Entry.path e = q ∧ Entry.parent_path e = parentOf q;
    parents_indexed :
      ∀ q e pq, entries d !! q = Some e → Entry.parent_path e = Some pq →
                is_Some (entries d !! pq) }.

(** Every way the store changes: the start of the process with its scan,
    an event of the running process, the two tag requests. *)
Inductive action : Type :=
| boot (w : world)
| happen (w : world) (e : event)
| post_tag (relativePath key value : option string)
| delete_tag (relativePath key value : option string).

(** ** Scans *)

(** The [fs.Stats] of a node that has them. *)
Definition stats_of (n : fsnode) : Stats :=
  match n with
  | File sz mt => MkStats false sz mt
  | Dir mt _ _ => MkStats true 0 mt
  | Broken _ => MkStats false 0 0
  end.

(** No node below [n] has [mtimeMs] zero, the one value for which
    [entryFromStats] reads the clock. *)
Fixpoint clock_free (n : fsnode) : bool :=
  match n with
  | Broken _ => true
  | File _ mt => negb (Qeq_bool mt 0)
  | Dir mt _ cs => negb (Qeq_bool mt 0) && listing_clock_free cs
  end
with listing_clock_free (cs : listing) : bool :=
  match cs with
  | no_more => true
  | child _ c rest => clock_free c && listing_clock_free rest
  end.

(** What one walk leaves behind: the ignore set and [seen] only grow,
    [seen] and the store change at the keys [below] only. *)
Record walk_bounds (below : string → Prop) (st st' : server * gset string) : Prop :=
  WalkBounds
    { ignore_grows : unsupportedPaths st.1 ⊆ unsupportedPaths st'.1;
      seen_bound : ∀ k, k ∈ st'.2 → k ∈ st.2 ∨ below k;
      rows_bound : ∀ k, ¬ below k → entries (db st'.1) !! k = entries (db st.1) !! k }.

Section Vocabulary.

Variable START_PATH : abspath.

(** What the process can be in once [bootstrap] has started the first
    watcher. *)
Inductive reachable : server → Prop :=
| reachable_boot (w : world) : reachable (bootstrap START_PATH w initial_server)
| reachable_step (w : world) (e : event) (s : server) :
    reachable s → reachable (step START_PATH w e s).

(** How often [watcherMode] changes along a trace. *)
Fixpoint mode_changes (trace : list (world * event)) (s : server) : nat :=
  match trace with
  | [] => 0
  | (w, e) :: rest =>
      let s' := step START_PATH w e s in
      (if decide (watcherMode s' = watcherMode s) then 0 else 1)%nat
      + mode_changes rest s'
  end.

(** Whether [oldWatcher.close()] settles somewhere in the trace. *)
Definition closes (trace : list (world * event)) : bool :=
  existsb (λ we, is_closed we.2) trace.

(** What holds of the watcher in a state [s]: the mode changes at most
    once along any trace and never leaves polling; an error with the
    code EMFILE or ENOSPC, in any letter case, is a limit error; a limit
    error of the live watcher in native mode starts the one switch, which
    waits for the old watcher to close, and along every trace from there
    the mode is polling from that moment on and has changed exactly once;
    any other error leaves the watcher variables alone and is logged; a
    request made while a switch is pending changes nothing. *)
Definition watcher_contract (s : server) : Prop :=
  (∀ trace,
      (mode_changes trace s ≤ 1)%nat
      ∧ (watcherMode s = polling →
         watcherMode (run START_PATH trace s) = polling ∧ mode_changes trace s = 0%nat))
  ∧ (∀ err code,
        err_code err = Some code →
        JsString.toUpperCase code = "EMFILE" ∨ JsString.toUpperCase code = "ENOSPC" →
        limit_error err)
  ∧ (∀ err i,
        limit_error err → watcher s = Some i → watcherMode s = native →
        awaiting_close (handleWatcherError START_PATH err i s)
        ∧ ∀ w trace,
            watcherMode (run START_PATH ((w, error i err) :: trace) s)
            = (if closes trace then polling else native)
            ∧ mode_changes ((w, error i err) :: trace) s
              = (if closes trace then 1 else 0)%nat)
  ∧ (∀ err i,
        has_unsupported_code err = true ∨ isWatcherLimitError err = false →
        same_watching s (handleWatcherError START_PATH err i s)
        ∧ (watcher s = Some i →
           ∃ lines, lines ≠ [] ∧ console (handleWatcherError START_PATH err i s)
                                  = (console s ++ lines)%list))
  ∧ (∀ mode, is_Some (watcherSwitchPromise s) → switchWatcherMode mode s = s).

(** [absolutePath] is the root or lies below it. *)
Definition inside (absolutePath : abspath) : Prop :=
  ∃ r, absolutePath = (START_PATH ++ r)%list ∧ forallb segment_ok r = true.

(** [absolutePath] is neither the root nor below it. *)
Definition outside (absolutePath : abspath) : Prop :=
  ∀ r, absolutePath ≠ (START_PATH ++ r)%list.

Definition act (a : action) (s : server) : server :=
  match a with
  | boot w => bootstrap START_PATH w s
  | happen w e => step START_PATH w e s
  | post_tag p k v => (post_api_tags p k v s).2
  | delete_tag p k v => (delete_api_tags p k v s).2
  end.

(** An action that keeps parents before children: a scan of a proper
    tree; an add, change or addDir for a path whose parent has a row; a
    removal that hits neither the root nor, through its LIKE pattern, the
    root's row. *)
Definition orderly (s : server) (a : action) : Prop :=
  match a with
  | boot w => names_ok (stat w START_PATH) = true
  | happen _ (fs _ (add p)) | happen _ (fs _ (change p)) | happen _ (fs _ (addDir p)) =>
      ∀ pq, parentOf (normalizeRelative START_PATH p) = Some pq →
            is_Some (entries (db s) !! pq)
  | happen _ (fs _ (unlink p)) =>
      normalizeRelative START_PATH p ≠ "/"
      ∧ Sql.like (normalizeRelative START_PATH p +:+ "/%") "/" = false
  | happen _ (fs _ (unlinkDir p)) =>
      Sql.like (normalizeRelative START_PATH p +:+ "/%") "/" = false
  | _ => True
  end.

(** The states orderly actions lead to from the empty server. *)
Inductive orderly_reachable : server → Prop :=
| orderly_initial : orderly_reachable initial_server
| orderly_step (a : action) (s : server) :
    orderly_reachable s → orderly s a → orderly_reachable (act a s).

(** With the ignore set of [s0], a walk from [n] at [p] gets to the node
    [m] at [q] and finds stats there. *)
Fixpoint visits (s0 : server) (p : abspath) (n : fsnode) (q : abspath) (m : fsnode) : Prop :=
  shouldIgnorePath START_PATH s0 p = false
  ∧ match n with
    | Broken _ => False
    | File _ _ => q = p ∧ m = n
    | Dir _ l cs => (q = p ∧ m = n) ∨ (l = true ∧ visits_in s0 p cs q m)
    end
with visits_in (s0 : server) (p : abspath) (cs : listing) (q : abspath) (m : fsnode) : Prop :=
  match cs with
  | no_more => False
  | child nm c rest => visits s0 (p ++ [nm]) c q m ∨ visits_in s0 p rest q m
  end.

(** The row a scan in world [w] writes for the node [m] at [q]. *)
Definition scanned_entry (w : world) (q : abspath) (m : fsnode) : Entry.t :=
  entryFromStats START_PATH w (normalizeRelative START_PATH q) (stats_of m).

(** The key of a path at or below [START_PATH ++ r]. *)
Definition key_below (r : list string) (k : string) : Prop :=
  ∃ r', forallb segment_ok r' = true
        ∧ k = normalizeRelative START_PATH (START_PATH ++ r ++ r').

(** The key of a path below one of the children in [cs]. *)
Definition key_in_children (r : list string) (cs : listing) (k : string) : Prop :=
  ∃ nm, nm ∈ child_names cs ∧ key_below (r ++ [nm]) k.


End Vocabulary.

(** ** Invariants, frames and round trips *)

Section Reaching.

Variable START_PATH : abspath.

(** The states any sequence of actions leads to from the empty server. *)
Inductive run_reachable : server → Prop :=
| run_initial : run_reachable initial_server
| run_step (a : action) (s : server) :
    run_reachable s → run_reachable (act START_PATH a s).

End Reaching.

(** [R] holds across [m], whatever [m] returns or throws. *)
Definition across {A} (R : server → server → Prop) (m : M A) : Prop :=
  ∀ s, R s (m s).2.

(** The foreign keys and the UNIQUE constraint of the schema: every tag
    and every git row points at an entry, and no tag triple comes twice. *)
Record store_sound (d : database) : Prop := StoreSound
  { tags_refer : ∀ t, t ∈ tags d → is_Some (entries d !! Tag.entry_path t);
    tags_unique : NoDup (tags d);
    git_refers : ∀ k row, git_metadata d !! k = Some row → is_Some (entries d !! k) }.

(** No row under the root belongs to a socket: a path that does not begin
    with [..] never has the extension [.sock], in any letter case. *)
Definition no_socket_entries (d : database) : Prop :=
  ∀ q e, entries d !! q = Some e →
         JsString.startsWith q ".." = false →
         JsString.toLowerCase (extname q) ≠ ".sock".

(** How often the console says that git is missing. *)
Definition git_warnings (s : server) : nat :=
  length (List.filter (λ l, match l with warn_git_unavailable => true | _ => false end)
            (console s)).

(** The warning is written once and the flag remembers it. *)
Definition warned_once (s : server) : Prop :=
  (git_warnings s ≤ 1)%nat ∧ (gitUnavailableLogged s = false → git_warnings s = 0%nat).

(** The two caches hold what the store holds. *)
Definition caches_fresh (s : server) : Prop :=
  entryCache s = statements.allEntries (db s) ∧ tagCache s = statements.allTags (db s).

Section ReachingMore.

Variable START_PATH : abspath.

(** The state after a list of actions. *)
Definition perform (actions : list action) (s : server) : server :=
  foldl (λ s a, act START_PATH a s) s actions.

End ReachingMore.

(** A property of states that a step hands on. *)
Definition keeps (P : server → Prop) (s s' : server) : Prop := P s → P s'.

(** [p] holds none of the two wildcards of LIKE. *)
Definition wildcard_free (p : string) : bool :=
  negb (has_char Sql.percent p) && negb (has_char Sql.underscore p).

(** [q] begins with [p], ASCII letters compared without case. *)
Fixpoint prefix_nocase (p q : string) : bool :=
  match p, q with
  | EmptyString, _ => true
  | String a p', String b q' => Sql.same_nocase a b && prefix_nocase p' q'
  | String _ _, EmptyString => false
  end.

(** [q] is the path [p] or lies under it, as the removals see it. *)
Definition at_or_under (p q : string) : bool :=
  String.eqb p q || prefix_nocase (p +:+ "/") q.

(** A string that [trim] leaves alone and that is not empty. *)
Definition tidy (s : string) : bool := JsString.truthy s && String.eqb (JsString.trim s) s.

(** A filter that survives the encoding: key and value are tidy and hold
    no comma, and the key holds no colon. *)
Definition encodable (f : tag_filter) : bool :=
  tidy (filter_key f) && tidy (filter_value f)
  && negb (has_char "," (filter_key f)) && negb (has_char "," (filter_value f))
  && negb (has_char ":" (filter_key f)).

(** What the loop makes of one piece. *)
Definition filter_of_piece (piece : string) : option tag_filter :=
  match parseTagFilters_loop [piece] [] with
  | f :: _ => Some f
  | [] => None
  end.

(** What [parseTagFilters] lets through. *)
Definition well_formed_filter (f : tag_filter) : Prop :=
  tidy (filter_key f) = true ∧ tidy (filter_value f) = true
  ∧ has_char ":" (filter_key f) = false.

(** The word a suggestion completes: the last piece of the query. *)
Definition current_word (queryRaw : string) : string :=
  List.last (split_spaces (JsString.trim queryRaw) false) "".

(** A remote as the parser hands it out: it has a name and an address to
    push to, and an address it has is not empty. *)
Definition remote_ok (remote : GitRow.remote) : Prop :=
  JsString.truthy (GitRow.remote_name remote) = true
  ∧ (∃ url, GitRow.pushUrl remote = Some url ∧ JsString.truthy url = true)
  ∧ ∀ url, GitRow.fetchUrl remote = Some url → JsString.truthy url = true.

(** What the loop keeps true of the [Map]. *)
Definition remotes_inv (remotes : list GitRow.remote) : Prop :=
  NoDup (GitRow.remote_name <$> remotes)
  ∧ Forall (λ remote,
              JsString.truthy (GitRow.remote_name remote) = true
              ∧ (falsy (GitRow.fetchUrl remote) = false ∨ falsy (GitRow.pushUrl remote) = false)
              ∧ (∀ url, GitRow.fetchUrl remote = Some url → JsString.truthy url = true)
              ∧ (∀ url, GitRow.pushUrl remote = Some url → JsString.truthy url = true))
      remotes.

(** In the tree [nodes], the object [c] is a child of the object [p]. *)
Definition tree_child (nodes : gmap string tree_node) (p c : string) : Prop :=
  ∃ node, nodes !! p = Some node ∧ c ∈ tn_children node.

(** The object [q] is [p] or below it. *)
Inductive tree_reach (nodes : gmap string tree_node) : string → string → Prop :=
| reach_here (p : string) : is_Some (nodes !! p) → tree_reach nodes p p
| reach_step (p c q : string) :
    tree_reach nodes p c → tree_child nodes c q → tree_reach nodes p q.

(** The paths of the entries in [l] that name [p] as their parent. *)
Definition children_of (l : list Entry.t) (p : string) : list string :=
  Entry.path <$>
    List.filter (λ e, bool_decide (nonempty (Entry.parent_path e) = Some p)) l.

(** ** Sample worlds *)

Definition demo_root : abspath := ["srv"].

Definition no_git {A} : abspath → gitres A := λ _, GitFail true.

(** [/srv] holds [src/a.txt] and [src/b/c.txt]. *)
Definition demo_tree : fsnode :=
  Dir 1 true
    (child "srv"
       (Dir 1700000000000 true
          (child "src"
             (Dir 1700000000100 true
                (child "a.txt" (File 5 (17000000002004 # 10))
                   (child "b"
                      (Dir 1700000000300 true
                         (child "c.txt" (File 7 1700000000400) no_more))
                      no_more)))
             no_more))
       no_more).

Definition demo_world (now : Z) : world :=
  {| w_root := demo_tree; w_now := now;
     git_show_toplevel := no_git; git_symbolic_ref := no_git; git_short_head := no_git;
     git_commit_count := no_git; git_branch_count := no_git; git_remotes := no_git |}.

(** [/srv] holds one file whose modification time is the epoch. *)
Definition epoch_tree : fsnode :=
  Dir 1 true
    (child "srv" (Dir 1700000000000 true (child "epoch.txt" (File 3 0) no_more)) no_more).

Definition epoch_world (now : Z) : world :=
  {| w_root := epoch_tree; w_now := now;
     git_show_toplevel := no_git; git_symbolic_ref := no_git; git_short_head := no_git;
     git_commit_count := no_git; git_branch_count := no_git; git_remotes := no_git |}.

(** The demo tree scanned and two tags added. *)
Definition demo_tagged : server :=
  let s := scanInitialTree demo_root (demo_world 1000) initial_server in
  let s := (post_api_tags (Some "src/b/c.txt") (Some "lang") (Some "txt") s).2 in
  (post_api_tags (Some "src/a.txt") (Some "lang") (Some "txt") s).2.

(** [/srv] is empty when the server starts. *)
Definition empty_world (now : Z) : world :=
  {| w_root := Dir 1 true (child "srv" (Dir 1700000000000 true no_more) no_more);
     w_now := now;
     git_show_toplevel := no_git; git_symbolic_ref := no_git; git_short_head := no_git;
     git_commit_count := no_git; git_branch_count := no_git; git_remotes := no_git |}.

(** Later [/srv/a/b.txt] and [/srv/.git/HEAD] exist. *)
Definition later_world (now : Z) : world :=
  {| w_root :=
       Dir 1 true
         (child "srv"
            (Dir 1700000000000 true
               (child "a" (Dir 1700000000500 true
                             (child "b.txt" (File 2 1700000000600) no_more))
                  (child ".git" (Dir 1700000000700 true
                                   (child "HEAD" (File 23 1700000000800) no_more))
                     no_more)))
            no_more);
     w_now := now;
     git_show_toplevel := no_git; git_symbolic_ref := no_git; git_short_head := no_git;
     git_commit_count := no_git; git_branch_count := no_git; git_remotes := no_git |}.

(** [/srv] holds two repositories below directories named [.github]:
    [.github] itself and [a/.github/b].  Git takes every directory it is
    asked about for the root of a repository on the branch [main]. *)
Definition git_head : fsnode :=
  Dir 1700000000700 true (child "HEAD" (File 23 1700000000800) no_more).

Definition nested_world (now : Z) : world :=
  {| w_root :=
       Dir 1 true
         (child "srv"
            (Dir 1700000000000 true
               (child ".github" (Dir 1700000000100 true (child ".git" git_head no_more))
                  (child "a"
                     (Dir 1700000000200 true
                        (child ".github"
                           (Dir 1700000000300 true
                              (child "b"
                                 (Dir 1700000000400 true (child ".git" git_head no_more))
                                 no_more))
                           no_more))
                     no_more)))
            no_more);
     w_now := now;
     git_show_toplevel := λ p, GitOk p;
     git_symbolic_ref := λ _, GitOk "main";
     git_short_head := λ _, GitOk "0a1b2c3";
     git_commit_count := λ _, GitOk (Some 3);
     git_branch_count := λ _, GitOk 1;
     git_remotes := λ _, GitOk [] |}.

(** The server started over these repositories. *)
Definition demo_nested : server := bootstrap demo_root (nested_world 1000) initial_server.

(** [/srv] holds a file and a directory whose names begin with two
    dots. *)
Definition dotted_world (now : Z) : world :=
  {| w_root :=
       Dir 1 true
         (child "srv"
            (Dir 1700000000000 true
               (child "..cache" (File 4 1700000000100)
                  (child "..old"
                     (Dir 1700000000200 true (child "x.txt" (File 1 1700000000300) no_more))
                     no_more)))
            no_more);
     w_now := now;
     git_show_toplevel := no_git; git_symbolic_ref := no_git; git_short_head := no_git;
     git_commit_count := no_git; git_branch_count := no_git; git_remotes := no_git |}.

(** The server over the empty root, its first watcher installed. *)
Definition demo_running : server :=
  act demo_root (boot (empty_world 1000)) initial_server.

Definition emfile : watcher_error :=
  {| err_code := Some "EMFILE"; err_message := Some "too many open files"; err_path := None |}.

(** [/srv] is a repository, but there is no git to ask. *)
Definition no_git_binary {A} : abspath → gitres A := λ _, GitEnoent.

Definition gitless_world (now : Z) : world :=
  {| w_root :=
       Dir 1 true
         (child "srv"
            (Dir 1700000000000 true
               (child ".git" (Dir 1700000000700 true no_more) no_more))
            no_more);
     w_now := now;
     git_show_toplevel := no_git_binary; git_symbolic_ref := no_git_binary;
     git_short_head := no_git_binary; git_commit_count := no_git_binary;
     git_branch_count := no_git_binary; git_remotes := no_git_binary |}.

(** The server started over that tree. *)
Definition demo_gitless : server :=
  perform demo_root [boot (gitless_world 1000)] initial_server.

(** A session over the demo tree: start, a tag, a new file. *)
Definition demo_session : server :=
  perform demo_root
    [boot (demo_world 1000);
     post_tag (Some "src/a.txt") (Some "lang") (Some "txt");
     happen (demo_world 2000) (fs 0 (change ["srv"; "src"; "a.txt"]))]
    initial_server.

(** The demo tree grows and shrinks while the server runs: the scan,
    a new directory and a file in it, a tag, [src/b/c.txt] goes and
    [src/a.txt] changes. *)
Definition grown_world (now : Z) : world :=
  {| w_root :=
       Dir 1 true
         (child "srv"
            (Dir 1700000000000 true
               (child "src"
                  (Dir 1700000000100 true
                     (child "a.txt" (File 9 1700000000900)
                        (child "b" (Dir 1700000000300 true no_more)
                           (child "d"
                              (Dir 1700000000500 true
                                 (child "f.txt" (File 2 1700000000600) no_more))
                              no_more))))
                  no_more))
            no_more);
     w_now := now;
     git_show_toplevel := no_git; git_symbolic_ref := no_git; git_short_head := no_git;
     git_commit_count := no_git; git_branch_count := no_git; git_remotes := no_git |}.

Definition demo_grown : server :=
  let s := act demo_root (boot (demo_world 1000)) initial_server in
  let s := act demo_root (happen (grown_world 2000) (fs 0 (addDir ["srv"; "src"; "d"]))) s in
  let s := act demo_root
             (happen (grown_world 2001) (fs 0 (add ["srv"; "src"; "d"; "f.txt"]))) s in
  let s := act demo_root (post_tag (Some "src/a.txt") (Some "lang") (Some "txt")) s in
  let s := act demo_root
             (happen (grown_world 2002) (fs 0 (unlink ["srv"; "src"; "b"; "c.txt"]))) s in
  act demo_root (happen (grown_world 2003) (fs 0 (change ["srv"; "src"; "a.txt"]))) s.

(** The demo tree after its first scan. *)
Definition demo_scanned : server :=
  scanInitialTree demo_root (demo_world 1000) initial_server.

(** A comparison of names by their characters. *)
Definition compare_by_code (a b : string) : Z :=
  match String.compare a b with
  | Lt => -1
  | Eq => 0
  | Gt => 1
  end.

(** * Properties *)

(** ** Lists, strings and statements *)

Lemma elem_of_List_filter {A} (f : A → bool) (l : list A) (x : A) :
  x ∈ List.filter f l ↔ x ∈ l ∧ f x = true.
Proof. rewrite !list_elem_of_In. apply filter_In. Qed.

Lemma elem_of_pathsForTag (k v p : string) (d : database) :
  p ∈ statements.pathsForTag k v d ↔ Tag.Build p k v ∈ tags d.
Proof.
  unfold statements.pathsForTag. rewrite list_elem_of_fmap. split.
  - intros (t & -> & Ht). apply elem_of_List_filter in Ht as [Ht Hkv].
    apply andb_prop in Hkv as [Hk Hv].
    apply String.eqb_eq in Hk, Hv. destruct t; simpl in *. by subst.
  - intros Ht. exists (Tag.Build p k v). split; [done|].
    apply elem_of_List_filter. split; [done|]. simpl.
    by rewrite !String.eqb_refl.
Qed.

Lemma elem_of_entryTags (t : Tag.t) (p : string) (d : database) :
  t ∈ statements.entryTags p d ↔ t ∈ tags d ∧ Tag.entry_path t = p.
Proof.
  unfold statements.entryTags. rewrite merge_sort_Permutation.
  rewrite elem_of_List_filter. by rewrite String.eqb_eq.
Qed.

Lemma Set_has_true (set : list string) (x : string) : Set_has set x = true ↔ x ∈ set.
Proof. unfold Set_has. by rewrite bool_decide_eq_true. Qed.

Lemma elem_of_intersect_all (rest : list (list string)) (first : list string) (p : string) :
  p ∈ foldl (λ acc current, List.filter (λ value, Set_has current value) acc) first rest
  ↔ p ∈ first ∧ ∀ current, current ∈ rest → p ∈ current.
Proof.
  revert first. induction rest as [|c rest IH]; intros first; simpl.
  - split; [intros H; split; [done|] | by intros [H _]]. intros c Hc. by apply elem_of_nil in Hc.
  - rewrite IH, elem_of_List_filter, Set_has_true. split.
    + intros [[H1 H2] H3]. split; [done|]. intros c' Hc'.
      apply elem_of_cons in Hc' as [->|Hc']; auto.
    + intros [H1 H2]. repeat split; auto.
      * apply H2. by left.
      * intros c' Hc'. apply H2. by right.
Qed.

Lemma elem_of_List_map {A B} (f : A → B) (l : list A) (y : B) :
  y ∈ List.map f l ↔ ∃ x, y = f x ∧ x ∈ l.
Proof.
  rewrite list_elem_of_In, in_map_iff. split.
  - intros (x & <- & Hx). exists x. by rewrite list_elem_of_In.
  - intros (x & -> & Hx). exists x. by rewrite <- list_elem_of_In.
Qed.

Lemma prefix_split (p q : string) :
  String.prefix p q = true → ∃ rest, q = p +:+ rest.
Proof.
  revert q. induction p as [|c p IH]; intros q H.
  - exists q. done.
  - destruct q as [|d q]; [done|]. simpl in H.
    destruct (ascii_dec c d) as [->|]; [|done].
    destruct (IH q H) as [rest ->]. by exists rest.
Qed.

Lemma append_assoc (a b c : string) : (a +:+ b) +:+ c = a +:+ (b +:+ c).
Proof.
  induction a as [|x a IH]; [done|].
  change (String x ((a +:+ b) +:+ c) = String x (a +:+ (b +:+ c))). by rewrite IH.
Qed.

(** *** What the git collector leaves alone *)

Lemma git_only_refl (s : server) : git_only s s.
Proof. by split. Qed.

Lemma git_only_trans (s1 s2 s3 : server) :
  git_only s1 s2 → git_only s2 s3 → git_only s1 s3.
Proof. intros [] []. split; congruence. Qed.

Lemma frames_ret {A} (a : A) : frames (ret a).
Proof. intros s. apply git_only_refl. Qed.

Lemma frames_throw {A} (e : thrown) : frames (@throw A e).
Proof. intros s. apply git_only_refl. Qed.

Lemma frames_bind {A B} (m : M A) (k : A → M B) :
  frames m → (∀ a, frames (k a)) → frames (bind m k).
Proof.
  intros Hm Hk s. unfold bind. specialize (Hm s).
  destruct (m s) as [[a|e] s1]; simpl in *; [|done].
  eapply git_only_trans; [done|apply Hk].
Qed.

Lemma frames_try_catch {A} (m : M A) (h : thrown → M A) :
  frames m → (∀ e, frames (h e)) → frames (try_catch m h).
Proof.
  intros Hm Hh s. unfold try_catch. specialize (Hm s).
  destruct (m s) as [[a|e] s1]; simpl in *; [done|].
  eapply git_only_trans; [done|apply Hh].
Qed.

Lemma git_only_log (l : log_line) (s : server) : git_only s (log l s).
Proof. by split. Qed.

Lemma git_only_flags (a b : bool) (s : server) : git_only s (with_git_flags a b s).
Proof. by split. Qed.

Lemma frames_runGitCommand {A} (r : gitres A) : frames (runGitCommand r).
Proof.
  intros s. unfold runGitCommand.
  destruct (gitBinaryUnavailable s) eqn:Hu; [apply git_only_refl|].
  destruct r as [out| |nr]; simpl.
  - apply git_only_flags.
  - destruct (gitUnavailableLogged s); by split.
  - rewrite andb_false_r. apply git_only_refl.
Qed.

Lemma frames_deleteGitMetadata_run (p : string) : frames (deleteGitMetadata_run p).
Proof. intros s. by split. Qed.

Lemma frames_upsertGitMetadata_run (p : string) (row : GitRow.t) :
  frames (upsertGitMetadata_run p row).
Proof.
  intros s. unfold upsertGitMetadata_run, statements.upsertGitMetadata.
  destruct (bool_decide _); by split.
Qed.

Lemma frames_exec_log (l : log_line) : frames (exec (log l)).
Proof. intros s. apply git_only_log. Qed.

Create HintDb frames discriminated.
#[global] Hint Resolve frames_ret frames_throw frames_runGitCommand
  frames_deleteGitMetadata_run frames_upsertGitMetadata_run frames_exec_log : frames.

Ltac frames_step :=
  first
    [ apply frames_bind; [|intros ?]
    | apply frames_try_catch; [|intros ?]
    | solve [auto with frames] ].

Section GitFrame.
Variable START_PATH : abspath.
Variable w : world.

Lemma frames_or_null {A} (m : M (option A)) : frames m → frames (or_null m).
Proof.
  intros Hm. unfold or_null. apply frames_try_catch; [done|].
  intros []; auto with frames.
Qed.

Lemma frames_collectGitMetadata (absolutePath : abspath) (relativePath : string) :
  frames (collectGitMetadata w absolutePath relativePath).
Proof.
  unfold collectGitMetadata.
  apply frames_bind.
  { apply frames_try_catch; [repeat frames_step|].
    intros [|[]| |]; auto with frames; apply frames_or_null; repeat frames_step. }
  intros cb. apply frames_bind; [apply frames_or_null; auto with frames|].
  intros cc. apply frames_bind; [apply frames_or_null; repeat frames_step|].
  intros bc. apply frames_bind.
  { apply frames_try_catch; [auto with frames|]. intros []; auto with frames. }
  intros rs. repeat frames_step.
Qed.

Lemma frames_gatherGitMetadata (absolutePath : abspath) (relativePath : string) :
  frames (gatherGitMetadata START_PATH w absolutePath relativePath).
Proof.
  unfold gatherGitMetadata.
  destruct (negb (JsString.truthy relativePath)); [auto with frames|].
  destruct (_ && _); [auto with frames|].
  assert (Hdel : frames (deleteGitMetadata_run relativePath;; ret (@None GitRow.t)))
    by repeat frames_step.
  destruct (stat w absolutePath) as [code|sz mt|mt l cs].
  - destruct (String.eqb code "ENOENT"); auto with frames.
  - done.
  - assert (Hgit : frames (λ s,
        match runGitCommand (git_show_toplevel w absolutePath) s with
        | (Threw GIT_UNAVAILABLE, s1) => (Threw GIT_UNAVAILABLE, s1)
        | (Threw (CommandFailed true), s1) =>
            (deleteGitMetadata_run relativePath ;; ret None) s1
        | (Threw _, s1) =>
            (Returned None, log (warn_git_root_failed absolutePath) s1)
        | (Returned repoRootAbsolute, s1) =>
            let repoRelative := normalizeRelative START_PATH repoRootAbsolute in
            if JsString.startsWith repoRelative ".."
            then (deleteGitMetadata_run relativePath ;; ret None) s1
            else if negb (String.eqb repoRelative relativePath)
            then (deleteGitMetadata_run relativePath ;; ret None) s1
            else collectGitMetadata w absolutePath relativePath s1
        end)).
    { intros s. pose proof (frames_runGitCommand (git_show_toplevel w absolutePath) s) as H1.
      destruct (runGitCommand _ s) as [[root|e] s1]; simpl in *.
      - eapply git_only_trans; [done|].
        destruct (JsString.startsWith _ _); [apply Hdel|].
        destruct (negb _); [apply Hdel|]. apply frames_collectGitMetadata.
      - destruct e as [|[]| |]; simpl; try done.
        + eapply git_only_trans; [done|apply Hdel].
        + eapply git_only_trans; [done|apply git_only_log].
        + eapply git_only_trans; [done|apply git_only_log].
        + eapply git_only_trans; [done|apply git_only_log]. }
    destruct (stat w (absolutePath ++ [".git"])%list) as [code|sz' mt'|mt' l' cs']; try done.
    destruct (_ || _); [done|]. destruct (is_unsupported_code code); auto with frames.
Qed.

Lemma git_only_updateGitMetadataForDirectory (absolutePath : abspath) (relativePath : string)
    (s : server) :
  git_only s (updateGitMetadataForDirectory START_PATH w absolutePath relativePath s).2.
Proof.
  unfold updateGitMetadataForDirectory.
  destruct (negb (JsString.truthy _)); [apply git_only_refl|].
  destruct (_ && _); [apply git_only_refl|].
  match goal with |- context [gatherGitMetadata ?a ?b ?c ?d ?e] =>
    pose proof (frames_gatherGitMetadata c d e) as H end.
  destruct (gatherGitMetadata _ _ _ _ _) as [[r|[]] s']; simpl in *; try done;
    (eapply git_only_trans; [done|apply git_only_log]).
Qed.

Lemma git_only_refreshGitMetadataForPath (relativePath : string) (s : server) :
  git_only s (refreshGitMetadataForPath START_PATH w relativePath s).
Proof.
  unfold refreshGitMetadataForPath.
  destruct (repoPathFromGitInternal relativePath); [|apply git_only_refl].
  apply git_only_updateGitMetadataForDirectory.
Qed.

End GitFrame.

(** *** LIKE on a literal prefix *)

Lemma same_nocase_refl (c : ascii) : Sql.same_nocase c c = true.
Proof. unfold Sql.same_nocase. apply Ascii.eqb_refl. Qed.

Lemma like_percent_any (s : string) : Sql.like "%" s = true.
Proof. induction s as [|c s IH]; [done|]. simpl in *. exact IH. Qed.

Lemma like_common_prefix (p pat s : string) :
  Sql.like pat s = true → Sql.like (p +:+ pat) (p +:+ s) = true.
Proof.
  intros H. induction p as [|c p IH]; [done|].
  change (Sql.like (String c (p +:+ pat)) (String c (p +:+ s)) = true).
  cbn [Sql.like].
  destruct (Ascii.eqb c Sql.percent).
  - rewrite orb_true_iff. right.
    destruct (p +:+ s); rewrite IH; done.
  - destruct (Ascii.eqb c Sql.underscore); [done|].
    by rewrite same_nocase_refl.
Qed.

Lemma like_below (p q : string) : below p q → Sql.like (p +:+ "/%") q = true.
Proof.
  intros H. apply prefix_split in H as [rest ->].
  rewrite append_assoc. apply like_common_prefix.
  change (Sql.like "/%" (String "/" rest) = true).
  cbn [Sql.like].
  change (Sql.same_nocase "/" "/" && Sql.like "%" rest = true).
  rewrite same_nocase_refl. apply like_percent_any.
Qed.

(** *** Deleting rows *)

Lemma lookup_delete_entries (sel : string → bool) (d : database) (q : string) :
  entries (statements.delete_entries sel d) !! q
  = if sel q then None else entries d !! q.
Proof.
  unfold statements.delete_entries. simpl.
  destruct (sel q) eqn:Hq.
  - apply map_lookup_filter_None. right. intros e _. simpl. by rewrite Hq.
  - destruct (entries d !! q) as [e|] eqn:He.
    + apply map_lookup_filter_Some. done.
    + apply map_lookup_filter_None. by left.
Qed.

Lemma elem_of_tags_delete_entries (sel : string → bool) (d : database) (t : Tag.t) :
  t ∈ tags (statements.delete_entries sel d)
  ↔ t ∈ tags d ∧ ¬ (sel (Tag.entry_path t) = true ∧ is_Some (entries d !! Tag.entry_path t)).
Proof.
  unfold statements.delete_entries. simpl. rewrite elem_of_List_filter.
  rewrite negb_true_iff, andb_false_iff, bool_decide_eq_false.
  split; intros [H1 H2]; (split; [done|]).
  - intros [Ha Hb]. destruct H2; [congruence|done].
  - destruct (sel (Tag.entry_path t)); [right|by left]. intros Hs. by apply H2.
Qed.

Lemma lookup_delete_branch (p q : string) (d : database) :
  entries (delete_branch p d) !! q
  = if Sql.like (p +:+ "/%") q || String.eqb p q then None else entries d !! q.
Proof.
  unfold delete_branch, statements.removeEntriesUnder, statements.removeEntry.
  rewrite !lookup_delete_entries. simpl.
  destruct (Sql.like _ q); [done|]. simpl. by destruct (String.eqb p q).
Qed.

Lemma elem_of_tags_delete_branch (p : string) (d : database) (t : Tag.t) :
  t ∈ tags (delete_branch p d)
  ↔ t ∈ tags d
    ∧ Sql.like (p +:+ "/%") (Tag.entry_path t) = false
    ∧ Tag.entry_path t ≠ p.
Proof.
  unfold delete_branch, statements.removeEntriesUnder, statements.removeEntry.
  rewrite !elem_of_tags_delete_entries. simpl.
  rewrite !elem_of_List_filter, !negb_true_iff. rewrite String.eqb_neq.
  split.
  - intros [[[[H1 H2] H3] _] _]. done.
  - intros (H1 & H2 & H3). repeat split; try done.
    + intros [Hp _]. apply String.eqb_eq in Hp. congruence.
    + intros [Hl _]. congruence.
Qed.

Lemma git_metadata_delete_branch_frame (p : string) (d : database) :
  tags (delete_branch p d) ⊆ tags d.
Proof. intros t Ht. by apply elem_of_tags_delete_branch in Ht as [Ht _]. Qed.

Lemma delete_branch_removed (p : string) (d : database) :
  branch_removed p d (delete_branch p d).
Proof.
  split.
  - rewrite lookup_delete_branch, String.eqb_refl, orb_true_r. done.
  - intros q Hq. rewrite lookup_delete_branch, (like_below p q Hq). done.
  - intros t Ht. apply elem_of_tags_delete_branch in Ht as (_ & Hl & Hp).
    split; [done|]. intros Hb. apply like_below in Hb. congruence.
  - intros t Ht Hsome. apply elem_of_tags_delete_branch in Ht as (_ & Hl & Hp).
    rewrite lookup_delete_branch, Hl. simpl.
    destruct (String.eqb p (Tag.entry_path t)) eqn:E; [|done].
    apply String.eqb_eq in E. congruence.
  - split.
    + intros q e. rewrite lookup_delete_branch. by destruct (_ || _).
    + intros t Ht. by apply elem_of_tags_delete_branch in Ht as [Ht _].
Qed.

Section Cascade.
Variable START_PATH : abspath.
Variable w : world.

Lemma removePath_db (p : string) (s : server) :
  entries (db (removePath START_PATH w p s)) = entries (delete_branch p (db s))
  ∧ tags (db (removePath START_PATH w p s)) = tags (delete_branch p (db s)).
Proof.
  unfold removePath.
  destruct (git_only_refreshGitMetadataForPath START_PATH w p
              (with_db (delete_branch p) s)) as [He Ht _ _ _ _ _ _ _ _ _].
  unfold delete_branch in *. by rewrite He, Ht.
Qed.

Lemma deleteEntryBranch_db (p : string) (s : server) :
  p ≠ "/" → p ≠ "" →
  entries (db (deleteEntryBranch START_PATH w p s)) = entries (delete_branch p (db s))
  ∧ tags (db (deleteEntryBranch START_PATH w p s)) = tags (delete_branch p (db s)).
Proof.
  intros Hroot Hempty. unfold deleteEntryBranch.
  apply String.eqb_neq in Hroot. rewrite Hroot.
  destruct p as [|c p]; [done|]. simpl.
  destruct (git_only_refreshGitMetadataForPath START_PATH w (String c p)
              (with_db (delete_branch (String c p)) s)) as [He Ht _ _ _ _ _ _ _ _ _].
  unfold delete_branch in *. by rewrite He, Ht.
Qed.

(** C2: for every store and every path [p] other than the root, both
    removal transactions ([deleteEntryBranch] for a removed directory,
    [removePath] for a removed file) delete the row of [p] and every row
    whose path starts with [p/], delete every tag on those paths, leave
    no tag on a row that went, and add nothing. *)
Theorem remove_directory_cascades (p : string) (s : server) :
  p ≠ "/" → p ≠ "" →
  branch_removed p (db s) (db (deleteEntryBranch START_PATH w p s))
  ∧ branch_removed p (db s) (db (removePath START_PATH w p s)).
Proof.
  intros Hroot Hempty.
  destruct (deleteEntryBranch_db p s Hroot Hempty) as [He Ht].
  destruct (removePath_db p s) as [He' Ht'].
  pose proof (delete_branch_removed p (db s)) as [H1 H2 H3 H4 [H5 H6]].
  split; split; rewrite ?He, ?Ht, ?He', ?Ht'; try done.
Qed.

End Cascade.

(** *** Where the git table changes *)

Lemma keeps_db_ret {A} (a : A) : keeps_db (ret a).
Proof. done. Qed.

Lemma keeps_db_throw {A} (e : thrown) : keeps_db (@throw A e).
Proof. done. Qed.

Lemma keeps_db_bind {A B} (m : M A) (k : A → M B) :
  keeps_db m → (∀ a, keeps_db (k a)) → keeps_db (bind m k).
Proof.
  intros Hm Hk s. unfold bind. specialize (Hm s).
  destruct (m s) as [[a|e] s1]; simpl in *; [|done]. by rewrite Hk.
Qed.

Lemma keeps_db_try_catch {A} (m : M A) (h : thrown → M A) :
  keeps_db m → (∀ e, keeps_db (h e)) → keeps_db (try_catch m h).
Proof.
  intros Hm Hh s. unfold try_catch. specialize (Hm s).
  destruct (m s) as [[a|e] s1]; simpl in *; [done|]. by rewrite Hh.
Qed.

Lemma keeps_db_runGitCommand {A} (r : gitres A) : keeps_db (runGitCommand r).
Proof.
  intros s. unfold runGitCommand.
  destruct (gitBinaryUnavailable s); [done|].
  destruct r as [out| |nr]; simpl; [done| |].
  - by destruct (gitUnavailableLogged s).
  - by rewrite andb_false_r.
Qed.

Lemma keeps_db_or_null {A} (m : M (option A)) : keeps_db m → keeps_db (or_null m).
Proof.
  intros Hm. apply keeps_db_try_catch; [done|]. by intros [].
Qed.

(** Running [m] and then [k], when [m] leaves the store alone: what holds
    of [k]'s outcome and of an exception holds of the whole. *)
Lemma bind_after_keeps {A B} (m : M A) (k : A → M B)
    (P : outcome B → database → database → Prop) :
  keeps_db m →
  (∀ a s, P (k a s).1 (db s) (db (k a s).2)) →
  (∀ e d, P (Threw e) d d) →
  ∀ s, P (bind m k s).1 (db s) (db (bind m k s).2).
Proof.
  intros Hm Hk He s. unfold bind. specialize (Hm s).
  destruct (m s) as [[a|e] s1]; simpl in *; rewrite <- Hm; [apply Hk|apply He].
Qed.

Section Collector.
Variable START_PATH : abspath.
Variable w : world.

Lemma collectGitMetadata_effect (absolutePath : abspath) (relativePath : string) (s : server) :
  let r := collectGitMetadata w absolutePath relativePath s in
  (∃ row, r.1 = Returned (Some row)
          ∧ entries (db r.2) = entries (db s) ∧ tags (db r.2) = tags (db s)
          ∧ git_metadata (db r.2) = <[relativePath := row]> (git_metadata (db s)))
  ∨ ((∃ e, r.1 = Threw e) ∧ db r.2 = db s).
Proof.
  unfold collectGitMetadata.
  set (P := λ (o : outcome (option GitRow.t)) (d d' : database),
         (∃ row, o = Returned (Some row)
                 ∧ entries d' = entries d ∧ tags d' = tags d
                 ∧ git_metadata d' = <[relativePath := row]> (git_metadata d))
         ∨ ((∃ e, o = Threw e) ∧ d' = d)).
  assert (Hthrow : ∀ e d, P (Threw e) d d) by (intros e d; right; eauto).
  simpl. apply (bind_after_keeps _ _ P); [| |done].
  { apply keeps_db_try_catch.
    - apply keeps_db_bind; [apply keeps_db_runGitCommand|done].
    - intros [|[]| |]; try done; apply keeps_db_or_null;
        (apply keeps_db_bind; [apply keeps_db_runGitCommand|done]). }
  intros cb s1. apply (bind_after_keeps _ _ P); [| |done].
  { apply keeps_db_or_null, keeps_db_runGitCommand. }
  intros cc s2. apply (bind_after_keeps _ _ P); [| |done].
  { apply keeps_db_or_null. apply keeps_db_bind; [apply keeps_db_runGitCommand|done]. }
  intros bc s3. apply (bind_after_keeps _ _ P); [| |done].
  { apply keeps_db_try_catch; [apply keeps_db_runGitCommand|]. by intros []. }
  intros rs s4. unfold P, bind, upsertGitMetadata_run, statements.upsertGitMetadata, ret.
  destruct (bool_decide _); simpl.
  - left. eexists. done.
  - right. eauto.
Qed.

Lemma gatherGitMetadata_effect (absolutePath : abspath) (relativePath : string) (s : server) :
  let r := gatherGitMetadata START_PATH w absolutePath relativePath s in
  git_effect relativePath (db s) (db r.2) r.1
  ∧ (∀ row, r.1 = Returned (Some row) →
            asks_git_for_root w absolutePath relativePath s = true
            ∧ ∃ root, git_show_toplevel w absolutePath = GitOk root
                      ∧ normalizeRelative START_PATH root = relativePath
                      ∧ JsString.startsWith relativePath ".." = false)
  ∧ (∀ root, asks_git_for_root w absolutePath relativePath s = true →
             git_show_toplevel w absolutePath = GitOk root →
             normalizeRelative START_PATH root ≠ relativePath
             ∨ JsString.startsWith (normalizeRelative START_PATH root) ".." = true →
             r.1 = Returned None
             ∧ db r.2 = statements.deleteGitMetadata relativePath (db s)).
Proof.
  unfold gatherGitMetadata, asks_git_for_root.
  destruct (JsString.truthy relativePath) eqn:Htr; simpl;
    [|split; [by apply effect_none|done]].
  destruct (negb (String.eqb relativePath "/") && String.eqb (basename relativePath) ".git")
    eqn:Hbase; simpl; [split; [by apply effect_none|done]|].
  destruct (stat w absolutePath) as [code|sz mt|mt l cs] eqn:Hst.
  - destruct (String.eqb code "ENOENT"); simpl;
      (split; [first [by apply effect_cleared | by apply effect_none]|done]).
  - simpl. split; [by apply effect_cleared|done].
  - assert (Hmain :
      let r := (λ s,
        match runGitCommand (git_show_toplevel w absolutePath) s with
        | (Threw GIT_UNAVAILABLE, s1) => (Threw GIT_UNAVAILABLE, s1)
        | (Threw (CommandFailed true), s1) =>
            (deleteGitMetadata_run relativePath ;; ret None) s1
        | (Threw _, s1) =>
            (Returned None, log (warn_git_root_failed absolutePath) s1)
        | (Returned repoRootAbsolute, s1) =>
            let repoRelative := normalizeRelative START_PATH repoRootAbsolute in
            if JsString.startsWith repoRelative ".."
            then (deleteGitMetadata_run relativePath ;; ret None) s1
            else if negb (String.eqb repoRelative relativePath)
            then (deleteGitMetadata_run relativePath ;; ret None) s1
            else collectGitMetadata w absolutePath relativePath s1
        end) s in
      git_effect relativePath (db s) (db r.2) r.1
      ∧ (∀ row, r.1 = Returned (Some row) →
                negb (gitBinaryUnavailable s) = true
                ∧ ∃ root, git_show_toplevel w absolutePath = GitOk root
                          ∧ normalizeRelative START_PATH root = relativePath
                          ∧ JsString.startsWith relativePath ".." = false)
      ∧ (∀ root, negb (gitBinaryUnavailable s) = true →
                 git_show_toplevel w absolutePath = GitOk root →
                 normalizeRelative START_PATH root ≠ relativePath
                 ∨ JsString.startsWith (normalizeRelative START_PATH root) ".." = true →
                 r.1 = Returned None
                 ∧ db r.2 = statements.deleteGitMetadata relativePath (db s))).
    { simpl. pose proof (keeps_db_runGitCommand (git_show_toplevel w absolutePath) s) as Hk.
      unfold runGitCommand in *.
      destruct (gitBinaryUnavailable s) eqn:Hu; simpl in *;
        [split; [by apply effect_none|done]|].
      destruct (git_show_toplevel w absolutePath) as [root| |nr] eqn:Hroot; simpl in *.
      - destruct (JsString.startsWith (normalizeRelative START_PATH root) "..") eqn:Hout; simpl.
        { split; [by apply effect_cleared|]. split; [done|].
          by intros root' _ [= <-] _. }
        destruct (String.eqb (normalizeRelative START_PATH root) relativePath) eqn:Heq; simpl.
        + apply String.eqb_eq in Heq.
          match goal with |- context [collectGitMetadata w absolutePath relativePath ?s1] =>
            pose proof (collectGitMetadata_effect absolutePath relativePath s1) as Hc;
            destruct (collectGitMetadata w absolutePath relativePath s1) as [o s2] end.
          simpl in *.
          destruct Hc as [(row & -> & He & Ht & Hg)|[[e ->] Hdb]].
          * split; [by apply effect_stored|]. split.
            -- intros row' _. split; [done|]. exists root. by rewrite <- Heq at 2.
            -- intros root' _ [= <-] [Hne|Hne]; congruence.
          * split; [by apply effect_none|]. split; [done|].
            intros root' _ [= <-] [Hne|Hne]; congruence.
        + split; [by apply effect_cleared|]. split; [done|].
          by intros root' _ [= <-] _.
      - destruct (gitUnavailableLogged s); simpl;
          (split; [by apply effect_none|done]).
      - rewrite andb_false_r. destruct nr; simpl.
        + split; [by apply effect_cleared|done].
        + split; [by apply effect_none|done]. }
    destruct (stat w (absolutePath ++ [".git"])%list) as [code|sz' mt'|mt' l' cs'] eqn:Hgit;
      simpl in *; try exact Hmain.
    destruct (String.eqb code "ENOENT" || String.eqb code "ENOTDIR"); simpl.
    { split; [by apply effect_cleared|done]. }
    destruct (is_unsupported_code code); simpl; (split; [by apply effect_none|done]).
Qed.

(** C6: one run of the collector on a directory either leaves the git
    rows alone, or deletes the row of that directory, or writes it and
    returns it; it writes only when git was asked for the repository root
    and the root it named normalises to the directory's own path, which
    does not begin with [..]; and when git names a root that normalises to
    another path or to one beginning with [..], nothing is returned and
    the directory has no row afterwards, whatever it had before. *)
Theorem git_metadata_only_at_repository_root (absolutePath : abspath)
    (relativePath : string) (s : server) :
  let r := gatherGitMetadata START_PATH w absolutePath relativePath s in
  git_effect relativePath (db s) (db r.2) r.1
  ∧ (∀ row, r.1 = Returned (Some row) →
            git_metadata (db r.2) !! relativePath = Some row
            ∧ asks_git_for_root w absolutePath relativePath s = true
            ∧ ∃ root, git_show_toplevel w absolutePath = GitOk root
                      ∧ normalizeRelative START_PATH root = relativePath
                      ∧ JsString.startsWith relativePath ".." = false)
  ∧ (∀ root, asks_git_for_root w absolutePath relativePath s = true →
             git_show_toplevel w absolutePath = GitOk root →
             normalizeRelative START_PATH root ≠ relativePath
             ∨ JsString.startsWith (normalizeRelative START_PATH root) ".." = true →
             r.1 = Returned None
             ∧ git_metadata (db r.2) !! relativePath = None
             ∧ entries (db r.2) = entries (db s)
             ∧ tags (db r.2) = tags (db s)).
Proof.
  intros r. destruct (gatherGitMetadata_effect absolutePath relativePath s)
    as (Heff & Hsome & Hnone).
  fold r in Heff, Hsome, Hnone. split; [done|]. split.
  - intros row Hrow. split; [|exact (Hsome row Hrow)].
    inversion Heff as [out Hd Hno|Hd Hout|row' He Ht Hg Hout].
    + by destruct (Hno row).
    + congruence.
    + rewrite Hg. assert (row' = row) as -> by congruence. apply lookup_insert_eq.
  - intros root Hask Hroot Hother.
    destruct (Hnone root Hask Hroot Hother) as [Hout ->].
    split; [done|]. split; [|done]. simpl. apply lookup_delete_eq.
Qed.

End Collector.

Lemma filterPathsByTags_elem (filters : list tag_filter) (s : server) :
  match filterPathsByTags filters s with
  | None => filters = []
  | Some set =>
      filters ≠ []
      ∧ ∀ p, p ∈ set ↔
             ∀ f, f ∈ filters →
                  p ∈ statements.pathsForTag (filter_key f) (filter_value f) (db s)
  end.
Proof.
  destruct filters as [|f0 rest]; [done|].
  unfold filterPathsByTags, reduce. cbn [List.map].
  split; [done|]. intros p. rewrite elem_of_intersect_all.
  unfold new_Set. rewrite elem_of_remove_dups. split.
  - intros [H0 Hrest] f Hf. apply elem_of_cons in Hf as [->|Hf]; [done|].
    specialize (Hrest (new_Set (statements.pathsForTag (filter_key f) (filter_value f) (db s)))).
    unfold new_Set in Hrest. rewrite <- elem_of_remove_dups. apply Hrest.
    apply elem_of_List_map. by exists f.
  - intros H. split; [apply H; by left|].
    intros c Hc. apply elem_of_List_map in Hc as (f & -> & Hf).
    apply elem_of_remove_dups, H. by right.
Qed.

Lemma carries_all_true (d : database) (filters : list tag_filter) (p : string) :
  carries_all d filters p = true
  ↔ ∀ f, f ∈ filters → Tag.Build p (filter_key f) (filter_value f) ∈ tags d.
Proof.
  unfold carries_all. rewrite forallb_forall. split.
  - intros H f Hf. apply list_elem_of_In in Hf.
    exact (proj1 (bool_decide_eq_true _) (H f Hf)).
  - intros H f Hf. apply list_elem_of_In in Hf.
    exact (proj2 (bool_decide_eq_true _) (H f Hf)).
Qed.

Lemma filterPathsByTags_tags (filters : list tag_filter) (s : server) :
  match filterPathsByTags filters s with
  | None => filters = []
  | Some set => filters ≠ [] ∧ ∀ p, Set_has set p = carries_all (db s) filters p
  end.
Proof.
  pose proof (filterPathsByTags_elem filters s) as H.
  destruct (filterPathsByTags filters s) as [set|]; [|done].
  destruct H as [Hne H]. split; [done|]. intros p.
  apply eq_true_iff_eq. rewrite Set_has_true, carries_all_true, H.
  by setoid_rewrite elem_of_pathsForTag.
Qed.

Lemma List_filter_all {A} (l : list A) : List.filter (λ _, true) l = l.
Proof. induction l as [|x l IH]; [done|]. simpl. by rewrite IH. Qed.

Lemma List_filter_ext {A} (f g : A → bool) (l : list A) :
  (∀ x, f x = g x) → List.filter f l = List.filter g l.
Proof. intros H. induction l as [|x l IH]; [done|]. simpl. by rewrite H, IH. Qed.

Lemma hit_decorate (tags_of : Entry.t → list Tag.t) (l : list Entry.t) :
  hit <$> List.map (λ entry, {| hit := entry; hit_tags := tags_of entry |}) l = l.
Proof. induction l as [|x l IH]; [done|]. cbn [List.map]. by rewrite fmap_cons, IH. Qed.

(** The paths the loop of [gatherSearchResults] collects: those already
    collected, and those of the matches the tag filter lets through. *)
Lemma collect_matches_paths (set : option (list string)) (results : list Entry.t)
    (seen : list string) (acc : list Entry.t) (p : string) :
  (∀ q, q ∈ seen → q ∈ Entry.path <$> acc) →
  p ∈ Entry.path <$> collect_matches set results seen acc
  ↔ p ∈ Entry.path <$> acc
    ∨ ∃ e, e ∈ results ∧ Entry.path e = p
           ∧ match set with Some set => Set_has set p | None => true end = true.
Proof.
  revert seen acc. induction results as [|r results IH]; intros seen acc Hseen.
  { simpl. split; [by left|]. intros [H|(e & He & _)]; [done|]. by apply elem_of_nil in He. }
  cbn [collect_matches].
  assert (Hskip : p ∈ Entry.path <$> acc
                  ∨ (∃ e, e ∈ results ∧ Entry.path e = p
                          ∧ match set with Some set => Set_has set p | None => true end = true)
                  → p ∈ Entry.path <$> acc
                    ∨ ∃ e, e ∈ r :: results ∧ Entry.path e = p
                           ∧ match set with Some set => Set_has set p | None => true end
                             = true).
  { intros [H|(e & He & Hp & Hin)]; [by left|]. right. exists e. split; [by right|done]. }
  destruct (match set with Some set0 => negb (Set_has set0 (Entry.path r)) | None => false end)
    eqn:Hout.
  { rewrite (IH seen acc Hseen). split; [exact Hskip|].
    intros [H|(e & He & Hp & Hin)]; [by left|].
    apply elem_of_cons in He as [->|He]; [|right; by exists e].
    rewrite Hp in Hout. destruct set as [set|]; [|done]. by rewrite Hin in Hout. }
  destruct (Set_has seen (Entry.path r)) eqn:Hs; cbn [negb].
  - rewrite (IH seen acc Hseen). split; [exact Hskip|].
    intros [H|(e & He & Hp & Hin)]; [by left|].
    apply elem_of_cons in He as [->|He]; [|right; by exists e].
    left. rewrite <- Hp. by apply Hseen, Set_has_true.
  - rewrite IH.
    2:{ intros q Hq. rewrite fmap_app. apply elem_of_app in Hq as [Hq|Hq].
        - apply elem_of_app. left. by apply Hseen.
        - apply elem_of_app. right. apply list_elem_of_singleton in Hq as ->. by left. }
    rewrite fmap_app, elem_of_app. split.
    + intros [[H|H]|(e & He & Hp & Hin)].
      * by left.
      * apply list_elem_of_singleton in H. right. exists r. split; [by left|].
        split; [done|]. subst p. destruct set as [set|]; [|done].
        by apply negb_false_iff in Hout.
      * right. exists e. split; [by right|done].
    + intros [H|(e & He & Hp & Hin)]; [by left; left|].
      apply elem_of_cons in He as [->|He]; [|right; by exists e].
      left. right. rewrite <- Hp. by left.
Qed.

Section SearchFacts.
Variable entryFuse_rank : list Entry.t → string → list Entry.t.

(** C4: [filterPathsByTags] is [null] exactly for the empty filter list
    and otherwise holds exactly the paths that have, in the tag table, the
    (key, value) of every filter; a search returns, without a query, the
    first 50 cached entries whose path has all those tags, and with a
    query the paths of the fuzzy matches whose path has them all; an
    empty filter list restricts nothing (the first 50 cached entries, or
    every fuzzy match once); and every search result carries, among its
    tags, each requested (key, value). *)
Theorem tag_filtered_search_is_intersection
    (query : string) (filters : list tag_filter) (s : server) :
  match filterPathsByTags filters s with
  | None => filters = []
  | Some set =>
      filters ≠ []
      ∧ ∀ p, p ∈ set ↔
             ∀ f, f ∈ filters →
                  Tag.Build p (filter_key f) (filter_value f) ∈ tags (db s)
  end
  ∧ (let results := hit <$> gatherSearchResults entryFuse_rank query filters s in
     if JsString.truthy query
     then ∀ p, p ∈ Entry.path <$> results ↔
               carries_all (db s) filters p = true
               ∧ ∃ e, e ∈ entryFuse_search entryFuse_rank s query 50 ∧ Entry.path e = p
     else results
          = take 50 (List.filter (λ e, carries_all (db s) filters (Entry.path e))
                       (entryCache s)))
  ∧ (let unrestricted := hit <$> gatherSearchResults entryFuse_rank query [] s in
     if JsString.truthy query
     then ∀ e, e ∈ entryFuse_search entryFuse_rank s query 50 →
               Entry.path e ∈ Entry.path <$> unrestricted
     else unrestricted = take 50 (entryCache s))
  ∧ ∀ r f, r ∈ gatherSearchResults entryFuse_rank query filters s → f ∈ filters →
           Tag.Build (Entry.path (hit r)) (filter_key f) (filter_value f) ∈ hit_tags r.
Proof.
  pose proof (filterPathsByTags_tags filters s) as Hset.
  assert (Hres : let results := hit <$> gatherSearchResults entryFuse_rank query filters s in
     if JsString.truthy query
     then ∀ p, p ∈ Entry.path <$> results ↔
               carries_all (db s) filters p = true
               ∧ ∃ e, e ∈ entryFuse_search entryFuse_rank s query 50 ∧ Entry.path e = p
     else results
          = take 50 (List.filter (λ e, carries_all (db s) filters (Entry.path e))
                       (entryCache s))).
  { cbv zeta. unfold gatherSearchResults. cbv zeta.
    destruct (JsString.truthy query).
    - rewrite (hit_decorate (λ entry, listTagsForPath (Entry.path entry) s)). intros p.
      rewrite collect_matches_paths by (intros q Hq; by apply elem_of_nil in Hq).
      destruct (filterPathsByTags filters s) as [set|].
      + destruct Hset as [_ Hset]. rewrite Hset. split.
        * intros [H|(e & He & Hp & Hin)]; [by apply elem_of_nil in H|]. split; [done|by exists e].
        * intros [Hin (e & He & Hp)]. right. by exists e.
      + subst filters. split.
        * intros [H|(e & He & Hp & _)]; [by apply elem_of_nil in H|]. split; [done|by exists e].
        * intros [_ (e & He & Hp)]. right. by exists e.
    - rewrite (hit_decorate (λ entry, listTagsForPath (Entry.path entry) s)). f_equal.
      destruct (filterPathsByTags filters s) as [set|].
      + destruct Hset as [_ Hset]. apply List_filter_ext. intros e. apply Hset.
      + subst filters. by rewrite List_filter_all. }
  split; [|split; [exact Hres|split]].
  - destruct (filterPathsByTags filters s) as [set|]; [|done].
    destruct Hset as [Hne Hset]. split; [done|]. intros p.
    by rewrite <- Set_has_true, Hset, carries_all_true.
  - unfold gatherSearchResults. simpl. destruct (JsString.truthy query).
    + intros e He. rewrite (hit_decorate (λ entry, listTagsForPath (Entry.path entry) s)).
      apply collect_matches_paths; [intros q Hq; by apply elem_of_nil in Hq|].
      right. by exists e.
    + by rewrite (hit_decorate (λ entry, listTagsForPath (Entry.path entry) s)).
  - intros r f Hr Hf.
    assert (Hin : carries_all (db s) filters (Entry.path (hit r)) = true
                  ∧ hit_tags r = listTagsForPath (Entry.path (hit r)) s).
    { split.
      - cbv zeta in Hres. destruct (JsString.truthy query).
        + apply (Hres (Entry.path (hit r))). apply list_elem_of_fmap. exists (hit r).
          split; [done|]. apply list_elem_of_fmap. by exists r.
        + assert (hit r ∈ hit <$> gatherSearchResults entryFuse_rank query filters s) as He
            by (apply list_elem_of_fmap; by exists r).
          rewrite Hres in He. apply elem_of_take in He as (i & He & _).
          apply list_elem_of_lookup_2 in He. by apply elem_of_List_filter in He as [_ He].
      - unfold gatherSearchResults in Hr.
        destruct (JsString.truthy query);
          by apply elem_of_List_map in Hr as (e & -> & He). }
    destruct Hin as [Hin ->]. unfold listTagsForPath.
    apply elem_of_entryTags. split; [|done].
    rewrite carries_all_true in Hin. by apply Hin.
Qed.
End SearchFacts.

(** C9: POST /api/tags answers 400 and changes nothing when path, key
    or value is missing; answers 404 and changes nothing when no entry
    has the path; otherwise it leaves the entries alone and the triple is
    in the tag table afterwards: appended when new, and with the table
    exactly as before when the triple was already there. *)
Theorem post_api_tags_contract (relativePath key value : option string) (s : server) :
  let (resp, s') := post_api_tags relativePath key value s in
  if missing relativePath || missing key || missing value
  then resp = status 400 "path, key, and value are required" ∧ s' = s
  else ∃ p k v,
      relativePath = Some p ∧ key = Some k ∧ value = Some v
      ∧ match entries (db s) !! p with
        | None => resp = status 404 "Entry not found" ∧ s' = s
        | Some _ =>
            resp = json true
            ∧ entries (db s') = entries (db s)
            ∧ git_metadata (db s') = git_metadata (db s)
            ∧ (∀ t, t ∈ tags (db s') ↔ t ∈ tags (db s) ∨ t = Tag.Build p k v)
            ∧ (Tag.Build p k v ∈ tags (db s) → tags (db s') = tags (db s))
            ∧ (Tag.Build p k v ∉ tags (db s) →
               tags (db s') = (tags (db s) ++ [Tag.Build p k v])%list)
        end.
Proof.
  destruct (post_api_tags relativePath key value s) as [resp s'] eqn:E.
  unfold post_api_tags in E.
  destruct relativePath as [p|], key as [k|], value as [v|]; simpl in *;
    try (rewrite ?orb_true_r; by inversion E).
  destruct (JsString.truthy p) eqn:Hp; simpl in *; [|by inversion E].
  destruct (JsString.truthy k) eqn:Hk; simpl in *; [|by inversion E].
  destruct (JsString.truthy v) eqn:Hv; simpl in *; [|by inversion E].
  exists p, k, v. split; [done|]. split; [done|]. split; [done|].
  unfold statements.singleEntry, statements.addTag in E.
  destruct (entries (db s) !! p) as [e|] eqn:He; [|by inversion E].
  destruct (bool_decide (Tag.Build p k v ∈ tags (db s))) eqn:Hdup.
  - apply bool_decide_eq_true in Hdup. inversion E; subst; clear E. simpl.
    destruct (db s) as [es ts gs] eqn:Hdb. simpl in *.
    repeat split; try done.
    + intros Ht. by left.
    + intros [Ht| ->]; done.
  - apply bool_decide_eq_false in Hdup.
    rewrite bool_decide_eq_true_2 in E by eauto.
    inversion E; subst; clear E. simpl. repeat split; try done.
    + intros Ht. apply elem_of_app in Ht as [Ht|Ht]; [by left|right].
      by apply list_elem_of_singleton in Ht.
    + intros [Ht| ->]; apply elem_of_app; [by left|right]. by apply list_elem_of_singleton.
Qed.

Lemma digit_value_digit_char (d : Z) : 0 ≤ d < 10 → digit_value (digit_char d) = Some d.
Proof.
  intros H.
  assert (d = 0 ∨ d = 1 ∨ d = 2 ∨ d = 3 ∨ d = 4 ∨ d = 5 ∨ d = 6 ∨ d = 7 ∨ d = 8 ∨ d = 9)
    as Hd by lia.
  repeat (destruct Hd as [->|Hd]; [reflexivity|]). by subst.
Qed.

Lemma numeral_digits_append (fuel : nat) (n : Z) (tail rest : string) :
  numeral_digits fuel n tail +:+ rest = numeral_digits fuel n (tail +:+ rest).
Proof.
  revert n tail. induction fuel as [|fuel IH]; intros n tail; [done|].
  cbn [numeral_digits]. cbv zeta. destruct (n <? 10); [done|]. by rewrite IH.
Qed.

Lemma numeral_digits_head (fuel : nat) (n : Z) (tail : string) :
  0 ≤ n →
  ∃ c t, numeral_digits (S fuel) n tail = String c t ∧ is_digit c = true.
Proof.
  revert n tail. induction fuel as [|fuel IH]; intros n tail Hn.
  - cbn [numeral_digits]. cbv zeta. eexists _, _. split; [by destruct (n <? 10)|].
    unfold is_digit. rewrite digit_value_digit_char; [done|]. apply Z.mod_pos_bound. lia.
  - change (numeral_digits (S (S fuel)) n tail)
      with (let tail := String (digit_char (n mod 10)) tail in
            if n <? 10 then tail else numeral_digits (S fuel) (n / 10) tail).
    cbv zeta. destruct (n <? 10) eqn:E.
    + eexists _, _. split; [done|].
      unfold is_digit. rewrite digit_value_digit_char; [done|]. apply Z.mod_pos_bound. lia.
    + apply IH. apply Z.div_pos; lia.
Qed.

Lemma leading_digits_numeral (fuel : nat) (n : Z) (tail : string) :
  0 ≤ n < 2 ^ Z.of_nat (S fuel) →
  ∃ k, ∀ acc count,
    leading_digits (numeral_digits (S fuel) n tail) acc count
    = leading_digits tail (acc * 10 ^ Z.of_nat (S k) + n) (S k + count).
Proof.
  revert n tail. induction fuel as [|fuel IH]; intros n tail Hn;
    change (numeral_digits (S ?f) n tail)
      with (let tail := String (digit_char (n mod 10)) tail in
            if n <? 10 then tail else numeral_digits f (n / 10) tail);
    cbv zeta;
    assert (Hd : 0 ≤ n mod 10 < 10) by (apply Z.mod_pos_bound; lia).
  - change (2 ^ Z.of_nat 1) with 2 in Hn.
    destruct (Z.ltb_spec n 10) as [E|E]; [|lia].
    exists 0%nat. intros acc count. cbn [leading_digits].
    rewrite digit_value_digit_char by done. rewrite Z.mod_small by lia.
    f_equal. change (10 ^ Z.of_nat 1) with 10. lia.
  - destruct (Z.ltb_spec n 10) as [E|E].
    + exists 0%nat. intros acc count. cbn [leading_digits].
      rewrite digit_value_digit_char by done. rewrite Z.mod_small by lia.
      f_equal. change (10 ^ Z.of_nat 1) with 10. lia.
    + destruct (IH (n / 10) (String (digit_char (n mod 10)) tail)) as [k Hk].
      { split; [apply Z.div_pos; lia|]. apply Z.div_lt_upper_bound; [lia|].
        rewrite (Nat2Z.inj_succ (S fuel)), Z.pow_succ_r in Hn by lia. lia. }
      exists (S k). intros acc count. rewrite Hk. cbn [leading_digits].
      rewrite digit_value_digit_char by done. f_equal; try lia.
      rewrite (Nat2Z.inj_succ (S k)), Z.pow_succ_r by lia.
      pose proof (Z.div_mod n 10 ltac:(lia)). lia.
Qed.

Lemma numeral_fuel (n : Z) : 0 ≤ n → n < 2 ^ Z.of_nat (S (Z.to_nat (Z.log2 n))).
Proof.
  intros Hn. rewrite Nat2Z.inj_succ, Z2Nat.id by apply Z.log2_nonneg.
  destruct (decide (n = 0)) as [->|Hne]; [done|].
  apply Z.log2_spec. lia.
Qed.

Lemma leading_digits_stop (s : string) (acc : Z) (count : nat) :
  starts_with_digit s = false → leading_digits s acc count = (acc, count).
Proof.
  destruct s as [|c s]; [done|]. unfold starts_with_digit, is_digit. simpl.
  by destruct (digit_value c).
Qed.

Lemma trimStart_blank (ws t : string) :
  all_chars JsString.is_whitespace ws = true →
  JsString.trimStart (ws +:+ t) = JsString.trimStart t.
Proof.
  induction ws as [|c ws IH]; [done|]. cbn [all_chars]. intros H.
  apply andb_prop in H as [Hc Hws].
  change (String c ws +:+ t) with (String c (ws +:+ t)). cbn [JsString.trimStart].
  rewrite Hc. by apply IH.
Qed.

Lemma is_digit_not_blank (c : ascii) :
  is_digit c = true → JsString.is_whitespace c = false ∧ c ≠ "-"%char ∧ c ≠ "+"%char.
Proof.
  unfold is_digit, digit_value, JsString.is_whitespace.
  destruct c as [[] [] [] [] [] [] [] []]; vm_compute; intros H; try discriminate H;
    repeat split; discriminate.
Qed.

Lemma parseInt10_numeral (ws rest : string) (n : Z) :
  all_chars JsString.is_whitespace ws = true → starts_with_digit rest = false →
  parseInt10 (ws +:+ numeral n +:+ rest)
  = if overflow_threshold <=? Z.abs n then Infinity (n <? 0) else Finite n.
Proof.
  intros Hws Hrest. unfold parseInt10. rewrite trimStart_blank by done.
  unfold numeral. cbv zeta.
  set (fuel := Z.to_nat (Z.log2 (Z.abs n))).
  assert (Hbody : leading_digits (numeral_digits (S fuel) (Z.abs n) "" +:+ rest) 0 0
                  = (Z.abs n, S (Nat.pred (snd (leading_digits
                       (numeral_digits (S fuel) (Z.abs n) "" +:+ rest) 0 0))))).
  { rewrite numeral_digits_append.
    destruct (leading_digits_numeral fuel (Z.abs n) ("" +:+ rest)) as [k Hk].
    { split; [lia|]. apply numeral_fuel. lia. }
    rewrite Hk. rewrite leading_digits_stop by done. simpl. f_equal. }
  destruct (numeral_digits_head fuel (Z.abs n) "" ltac:(lia)) as (c & t & Hct & Hc).
  apply is_digit_not_blank in Hc as (Hc1 & Hc2 & Hc3).
  destruct (n <? 0) eqn:Hneg.
  - change (String "-" (numeral_digits (S fuel) (Z.abs n) "") +:+ rest)
      with (String "-" (numeral_digits (S fuel) (Z.abs n) "" +:+ rest)).
    cbn [JsString.trimStart]. change (JsString.is_whitespace "-") with false. cbv iota.
    rewrite Hbody. apply Z.ltb_lt in Hneg.
    destruct (overflow_threshold <=? Z.abs n); [done|]. f_equal. lia.
  - rewrite Hct in *.
    change (String c t +:+ rest) with (String c (t +:+ rest)) in *.
    cbn [JsString.trimStart]. rewrite Hc1.
    assert (Hsign : match String c (t +:+ rest) with
                    | String "-" r => (true, r)
                    | String "+" r => (false, r)
                    | _ => (false, String c (t +:+ rest))
                    end = (false, String c (t +:+ rest))).
    { destruct c as [[] [] [] [] [] [] [] []]; try done. }
    rewrite Hsign, Hbody. apply Z.ltb_ge in Hneg.
    destruct (overflow_threshold <=? Z.abs n); [done|]. f_equal. lia.
Qed.

Lemma all_chars_trimStart (f : ascii → bool) (s : string) :
  all_chars f s = true → all_chars f (JsString.trimStart s) = true.
Proof.
  induction s as [|c s IH]; [done|]. cbn [JsString.trimStart].
  destruct (JsString.is_whitespace c); [|done].
  cbn [all_chars]. intros H. apply andb_prop in H as [_ H]. by apply IH.
Qed.

Lemma parseInt10_no_digit (str : string) :
  all_chars (λ c, negb (is_digit c)) str = true → parseInt10 str = NaN.
Proof.
  intros H. apply all_chars_trimStart in H. unfold parseInt10.
  destruct (JsString.trimStart str) as [|c t]; [done|].
  cbn [all_chars] in H. apply andb_prop in H as [Hc Ht]. apply negb_true_iff in Hc.
  assert (Hstop : ∀ u, all_chars (λ c, negb (is_digit c)) u = true →
                       leading_digits u 0 0 = (0, 0%nat)).
  { intros u Hu. apply leading_digits_stop. destruct u as [|d u]; [done|].
    cbn [all_chars] in Hu. apply andb_prop in Hu as [Hd _]. by apply negb_true_iff in Hd. }
  assert (Hall : leading_digits (String c t) 0 0 = (0, 0%nat)).
  { apply Hstop. cbn [all_chars]. by rewrite Hc, Ht. }
  destruct c as [[] [] [] [] [] [] [] []];
    first [by rewrite Hall | by rewrite (Hstop t Ht)].
Qed.

Section TagSearchFacts.
Variable tagFuse_rank : list Tag.t → string → list (Tag.t * Q).

(** C10: GET /api/tags/search answers 400 or a list no longer than the
    limit it computed, which lies between 1 and 100.  The limit is 20
    when the parameter is absent, when its text holds no digit, and when
    it is the numeral of an integer too large for a finite double; for
    the numeral of any other integer [n], white space before it and
    anything but a digit after it, the limit is [min (max n 1) 100], so
    1 for zero and for every negative [n]. *)
Theorem tags_search_result_bound (q limit_param : option string) (s : server) :
  match get_api_tags_search tagFuse_rank q limit_param s with
  | status code _ => code = 400
  | json results => Z.of_nat (length results) ≤ tags_search_limit limit_param
  end
  ∧ 1 ≤ tags_search_limit limit_param ≤ 100
  ∧ tags_search_limit None = 20
  ∧ (∀ ws n rest,
        all_chars JsString.is_whitespace ws = true → starts_with_digit rest = false →
        let limit := tags_search_limit (Some (ws +:+ numeral n +:+ rest)) in
        (Z.abs n < 10 ^ 308 → limit = Z.min (Z.max n 1) 100 ∧ (n ≤ 0 → limit = 1))
        ∧ (10 ^ 309 ≤ Z.abs n → limit = 20))
  ∧ ∀ str, all_chars (λ c, negb (is_digit c)) str = true → tags_search_limit (Some str) = 20.
Proof.
  assert (Hrange : 1 ≤ tags_search_limit limit_param ≤ 100).
  { unfold tags_search_limit. destruct limit_param as [str|]; [|lia].
    destruct (parseInt10 str); lia. }
  split; [|split; [exact Hrange|split; [done|split]]].
  - unfold get_api_tags_search.
    destruct (JsString.truthy _); simpl; [|done].
    rewrite length_map. unfold tagFuse_search. rewrite length_take. lia.
  - intros ws n rest Hws Hrest limit. subst limit. unfold tags_search_limit.
    rewrite parseInt10_numeral by done.
    assert (H1 : 10 ^ 308 < overflow_threshold) by (by apply Z.ltb_lt; vm_compute).
    assert (H2 : overflow_threshold ≤ 10 ^ 309) by (by apply Z.leb_le; vm_compute).
    split.
    + intros Hn. destruct (Z.leb_spec overflow_threshold (Z.abs n)); [lia|].
      split; [done|]. lia.
    + intros Hn. destruct (Z.leb_spec overflow_threshold (Z.abs n)); [done|lia].
  - intros str Hstr. unfold tags_search_limit. by rewrite parseInt10_no_digit.
Qed.

End TagSearchFacts.

Example tags_search_limit_examples :
  tags_search_limit (Some "0") = 1 ∧ tags_search_limit (Some "-7") = 1
  ∧ tags_search_limit (Some " 42px") = 42 ∧ tags_search_limit (Some "5000") = 100
  ∧ tags_search_limit (Some "many") = 20 ∧ tags_search_limit None = 20
  ∧ tags_search_limit (Some (String "160" "50")) = 50
  ∧ numeral 0 = "0" ∧ numeral (-7) = "-7" ∧ numeral 5000 = "5000".
Proof. repeat split; reflexivity. Qed.

(** *** The watcher variables *)

Lemma same_watching_refl (s : server) : same_watching s s.
Proof. by split. Qed.

Lemma same_watching_trans (s1 s2 s3 : server) :
  same_watching s1 s2 → same_watching s2 s3 → same_watching s1 s3.
Proof. intros [] []. split; congruence. Qed.

Lemma git_only_same_watching (s s' : server) : git_only s s' → same_watching s s'.
Proof. intros []. by split. Qed.

Section Watching.
Variable START_PATH : abspath.

Lemma markPathUnsupported_same_watching (p : abspath) (s : server) :
  same_watching s (markPathUnsupported START_PATH p s).
Proof. unfold markPathUnsupported. by destruct (_ && _). Qed.

Lemma walk_same_watching (w : world) :
  (∀ n p st, same_watching st.1 (walk START_PATH w p n st).1)
  ∧ (∀ cs p st, same_watching st.1 (walk_children START_PATH w p cs st).1).
Proof.
  apply fsnode_mutual_ind.
  - intros code p st. simpl. destruct (shouldIgnorePath _ _ _); [apply same_watching_refl|].
    destruct (is_unsupported_code code); [|apply same_watching_refl].
    apply markPathUnsupported_same_watching.
  - intros sz mt p st. simpl. destruct (shouldIgnorePath _ _ _); [apply same_watching_refl|].
    destruct (bool_decide _); [apply same_watching_refl|]. simpl.
    eapply same_watching_trans;
      [|apply git_only_same_watching, git_only_refreshGitMetadataForPath]. done.
  - intros mt l cs IH p st. simpl. destruct (shouldIgnorePath _ _ _); [apply same_watching_refl|].
    destruct (bool_decide _); [apply same_watching_refl|].
    assert (same_watching st.1
              (updateGitMetadataForDirectory START_PATH w p (normalizeRelative START_PATH p)
                 (with_db (statements.upsertEntry
                    (entryFromStats START_PATH w (normalizeRelative START_PATH p)
                       (MkStats true 0 mt))) st.1)).2) as H.
    { eapply same_watching_trans;
        [|apply git_only_same_watching, git_only_updateGitMetadataForDirectory]. done. }
    destruct l; [|exact H].
    eapply same_watching_trans; [exact H|]. apply (IH p (_, _)).
  - intros p st. apply same_watching_refl.
  - intros nm c IHc rest IHrest p st. simpl.
    eapply same_watching_trans; [apply IHc|apply IHrest].
Qed.

Lemma indexPath_same_watching (w : world) (p : abspath) (s : server) :
  same_watching s (indexPath START_PATH w p s).2.
Proof.
  unfold indexPath. destruct (shouldIgnorePath _ _ _); [apply same_watching_refl|].
  destruct (stat w p) as [code|sz mt|mt l cs]; simpl.
  - destruct (is_unsupported_code code); [|apply same_watching_refl].
    apply markPathUnsupported_same_watching.
  - eapply same_watching_trans;
      [|apply git_only_same_watching, git_only_refreshGitMetadataForPath]. done.
  - eapply same_watching_trans;
      [|apply git_only_same_watching, git_only_updateGitMetadataForDirectory]. done.
Qed.

Lemma removePath_same_watching (w : world) (p : string) (s : server) :
  same_watching s (removePath START_PATH w p s).
Proof.
  unfold removePath. eapply same_watching_trans;
    [|apply git_only_same_watching, git_only_refreshGitMetadataForPath]. done.
Qed.

Lemma deleteEntryBranch_same_watching (w : world) (p : string) (s : server) :
  same_watching s (deleteEntryBranch START_PATH w p s).
Proof.
  unfold deleteEntryBranch. destruct (_ || _); [apply same_watching_refl|].
  eapply same_watching_trans;
    [|apply git_only_same_watching, git_only_refreshGitMetadataForPath]. done.
Qed.

Lemma on_fs_event_same_watching (w : world) (i : nat) (ev : fs_event) (s : server) :
  same_watching s (on_fs_event START_PATH w i ev s).
Proof.
  unfold on_fs_event. destruct (negb _); [apply same_watching_refl|].
  destruct ev as [p|p|p|p|p].
  - pose proof (indexPath_same_watching w p s) as H.
    destruct (indexPath _ _ _ _) as [[] s']; simpl in *; [|done].
    eapply same_watching_trans; [exact H|done].
  - pose proof (indexPath_same_watching w p s) as H.
    destruct (indexPath _ _ _ _) as [[] s']; simpl in *; [|done].
    eapply same_watching_trans; [exact H|done].
  - destruct (shouldIgnorePath _ _ _); [apply same_watching_refl|].
    eapply same_watching_trans; [apply removePath_same_watching|done].
  - pose proof (indexPath_same_watching w p s) as H.
    destruct (indexPath _ _ _ _) as [[] s']; simpl in *; [|done].
    eapply same_watching_trans; [exact H|done].
  - destruct (shouldIgnorePath _ _ _); [apply same_watching_refl|].
    eapply same_watching_trans; [apply deleteEntryBranch_same_watching|done].
Qed.

(** *** The mode switch *)

Lemma switch_sound_same_watching (s s' : server) :
  same_watching s s' → switch_sound s → switch_sound s'.
Proof. intros [Hw Hm Hp Hc]. unfold switch_sound. by rewrite Hw, Hm, Hp. Qed.

Lemma handleWatcherError_sound (err : watcher_error) (i : nat) (s : server) :
  switch_sound s → switch_sound (handleWatcherError START_PATH err i s).
Proof.
  intros Hs. unfold handleWatcherError. destruct (negb _); [done|].
  set (s1 := if watcherErrorDiagnosticsLogged s then s else _).
  assert (Hs1 : switch_sound s1) by (subst s1; by destruct (watcherErrorDiagnosticsLogged s)).
  clearbody s1. destruct (has_unsupported_code err).
  { destruct (err_path err) as [p|]; [|done].
    eapply switch_sound_same_watching; [|exact Hs1].
    eapply same_watching_trans; [apply markPathUnsupported_same_watching|done]. }
  destruct (isWatcherLimitError err); [|done].
  destruct (watcherMode s1) eqn:Hm; [|done].
  unfold switchWatcherMode. simpl. rewrite Hm. simpl.
  unfold switch_sound in *.
  destruct (watcherSwitchPromise s1) as [ph|] eqn:Hp; simpl; [by rewrite Hp|].
  destruct (watcher s1) eqn:Hw; simpl; [done|]. by destruct Hs1.
Qed.

Lemma step_sound (w : world) (e : event) (s : server) :
  switch_sound s → switch_sound (step START_PATH w e s).
Proof.
  intros Hs. destruct e as [i ev|i err|f]; simpl.
  - eapply switch_sound_same_watching; [apply on_fs_event_same_watching|done].
  - by apply handleWatcherError_sound.
  - unfold close_settled, switch_sound in *.
    destruct (watcherSwitchPromise s) as [[m]|] eqn:Hp; simpl; rewrite ?Hp; [|done].
    unfold install_watcher. destruct m, f; simpl; eauto.
Qed.

Lemma reachable_sound (s : server) : reachable START_PATH s → switch_sound s.
Proof.
  induction 1 as [w|w e s _ IH]; [|by apply step_sound].
  unfold bootstrap, scanInitialTree.
  destruct (walk_same_watching w) as [Hwalk _].
  specialize (Hwalk (stat w START_PATH) START_PATH (initial_server, ∅)).
  destruct Hwalk as [Hw Hm Hp Hc]. simpl in *.
  unfold switchWatcherMode, refreshCaches. simpl. rewrite Hw, Hm, Hp. simpl.
  unfold switch_sound. simpl. eauto.
Qed.

Lemma limit_error_codes (err : watcher_error) (code : string) :
  err_code err = Some code →
  JsString.toUpperCase code = "EMFILE" ∨ JsString.toUpperCase code = "ENOSPC" →
  limit_error err.
Proof.
  intros Hc Hup. unfold limit_error, has_unsupported_code, isWatcherLimitError.
  rewrite Hc. split.
  - unfold is_unsupported_code, UNSUPPORTED_FS_CODES. cbn [existsb].
    repeat match goal with
           | |- context [String.eqb code ?x] =>
               destruct (String.eqb_spec code x) as [->|_];
               [destruct Hup as [Hup|Hup]; vm_compute in Hup; discriminate|]
           end.
    done.
  - by destruct Hup as [->| ->].
Qed.

Lemma step_polling_stays (w : world) (e : event) (s : server) :
  switch_sound s → watcherMode s = polling → watcherMode (step START_PATH w e s) = polling.
Proof.
  intros Hs Hm. destruct e as [i ev|i err|f]; simpl.
  - by rewrite (sw_mode _ _ (on_fs_event_same_watching w i ev s)).
  - unfold handleWatcherError. destruct (negb _); [done|].
    set (s1 := if watcherErrorDiagnosticsLogged s then s else _).
    assert (Hm1 : watcherMode s1 = polling)
      by (subst s1; by destruct (watcherErrorDiagnosticsLogged s)).
    clearbody s1. destruct (has_unsupported_code err).
    { destruct (err_path err) as [p|]; [|done]. simpl.
      by rewrite (sw_mode _ _ (markPathUnsupported_same_watching p s1)). }
    destruct (isWatcherLimitError err); [|done]. by rewrite Hm1.
  - unfold close_settled, switch_sound in *.
    destruct (watcherSwitchPromise s) as [[m]|]; [|done].
    destruct Hs as (_ & Hn & _). congruence.
Qed.

Lemma run_polling_stays (trace : list (world * event)) (s : server) :
  switch_sound s → watcherMode s = polling →
  watcherMode (run START_PATH trace s) = polling ∧ mode_changes START_PATH trace s = 0%nat.
Proof.
  revert s. induction trace as [|[w e] rest IH]; intros s Hs Hm; [done|].
  simpl. pose proof (step_polling_stays w e s Hs Hm) as Hm'.
  destruct (IH (step START_PATH w e s) (step_sound w e s Hs) Hm') as [H1 H2].
  split; [exact H1|]. rewrite H2. destruct (decide _); [done|congruence].
Qed.

Lemma mode_changes_at_most_once (trace : list (world * event)) (s : server) :
  switch_sound s → (mode_changes START_PATH trace s ≤ 1)%nat.
Proof.
  revert s. induction trace as [|[w e] rest IH]; intros s Hs; simpl; [lia|].
  pose proof (step_sound w e s Hs) as Hs'.
  destruct (decide _) as [Heq|Hne]; [apply (IH _ Hs')|].
  assert (watcherMode (step START_PATH w e s) = polling) as Hp.
  { destruct (watcherMode s) eqn:Hm.
    - by destruct (watcherMode (step START_PATH w e s)).
    - by apply step_polling_stays. }
  destruct (run_polling_stays rest _ Hs' Hp) as [_ ->]. lia.
Qed.

Lemma live_watcher_no_switch (i : nat) (s : server) :
  switch_sound s → watcher s = Some i → watcherSwitchPromise s = None.
Proof.
  unfold switch_sound. intros Hs Hw.
  destruct (watcherSwitchPromise s) as [[m]|]; [|done].
  destruct Hs as (_ & _ & Hn). congruence.
Qed.

Lemma limit_error_starts_switch (err : watcher_error) (i : nat) (s : server) :
  switch_sound s →
  limit_error err → watcher s = Some i → watcherMode s = native →
  awaiting_close (handleWatcherError START_PATH err i s).
Proof.
  intros Hs [Hu Hl] Hw Hm. pose proof (live_watcher_no_switch i s Hs Hw) as Hp.
  unfold handleWatcherError.
  rewrite bool_decide_eq_true_2 by done. simpl. rewrite Hu, Hl.
  set (s1 := if watcherErrorDiagnosticsLogged s then s else _).
  assert (watcher s1 = Some i ∧ watcherMode s1 = native ∧ watcherSwitchPromise s1 = None)
    as (Hw1 & Hm1 & Hp1) by (subst s1; by destruct (watcherErrorDiagnosticsLogged s)).
  clearbody s1. rewrite Hm1. unfold switchWatcherMode. simpl.
  rewrite Hm1, Hp1, Hw1. simpl. done.
Qed.

Lemma awaiting_close_waits (w : world) (e : event) (s : server) :
  awaiting_close s → is_closed e = false → awaiting_close (step START_PATH w e s).
Proof.
  intros (Hp & Hw & Hm) He. unfold awaiting_close.
  destruct e as [i ev|i err|f]; simpl; try done.
  - destruct (on_fs_event_same_watching w i ev s) as [-> -> -> _]. done.
  - unfold handleWatcherError. rewrite Hw. simpl. done.
Qed.

Lemma awaiting_close_ends_polling (fulfilled : bool) (s : server) :
  awaiting_close s →
  watcherMode (close_settled fulfilled s) = polling
  ∧ watcher (close_settled fulfilled s) = Some (watchersCreated s).
Proof.
  intros (Hp & Hw & Hm). unfold close_settled. rewrite Hp. by destruct fulfilled.
Qed.

Lemma awaiting_close_sound (s : server) : awaiting_close s → switch_sound s.
Proof. intros (Hp & Hw & Hm). unfold switch_sound. by rewrite Hp. Qed.

Lemma awaiting_close_run (trace : list (world * event)) (s : server) :
  awaiting_close s →
  watcherMode (run START_PATH trace s)
  = (if closes trace then polling else native)
  ∧ mode_changes START_PATH trace s = (if closes trace then 1 else 0)%nat.
Proof.
  revert s. induction trace as [|[w e] rest IH]; intros s Ha.
  { destruct Ha as (_ & _ & Hm). done. }
  unfold closes. cbn [existsb run foldl mode_changes fst snd].
  destruct (is_closed e) eqn:He; cbn [orb].
  - destruct e as [| |f]; try done. cbn [step].
    destruct (awaiting_close_ends_polling f s Ha) as [Hm _].
    pose proof (step_sound w (closed f) s (awaiting_close_sound s Ha)) as Hs'.
    destruct (run_polling_stays rest _ Hs' Hm) as [H1 H2]. cbn [step] in H1, H2.
    split; [exact H1|]. rewrite H2, Hm. destruct Ha as (_ & _ & ->).
    by destruct (decide (polling = native)).
  - pose proof (awaiting_close_waits w e s Ha He) as Ha'.
    destruct (IH _ Ha') as [H1 H2]. split; [exact H1|].
    fold (closes rest). rewrite H2.
    destruct Ha as (_ & _ & Hm), Ha' as (_ & _ & Hm'). rewrite Hm, Hm'.
    by destruct (decide (native = native)).
Qed.

Lemma other_error_keeps_mode (err : watcher_error) (i : nat) (s : server) :
  has_unsupported_code err = true ∨ isWatcherLimitError err = false →
  same_watching s (handleWatcherError START_PATH err i s)
  ∧ (watcher s = Some i →
     ∃ lines, lines ≠ [] ∧ console (handleWatcherError START_PATH err i s)
                            = (console s ++ lines)%list).
Proof.
  intros Hother. unfold handleWatcherError.
  destruct (bool_decide (watcher s = Some i)) eqn:Hi; simpl.
  2:{ split; [apply same_watching_refl|]. intros Hw.
      apply bool_decide_eq_false in Hi. done. }
  set (s1 := if watcherErrorDiagnosticsLogged s then s else _).
  assert (same_watching s s1 ∧ ∃ pre, console s1 = (console s ++ pre)%list)
    as [Hsw [pre Hpre]].
  { subst s1. destruct (watcherErrorDiagnosticsLogged s).
    - split; [apply same_watching_refl|]. exists []. by rewrite app_nil_r.
    - split; [done|]. by eexists. }
  clearbody s1. destruct (has_unsupported_code err) eqn:Hu.
  - split.
    + eapply same_watching_trans; [exact Hsw|].
      destruct (err_path err); [|done].
      eapply same_watching_trans; [apply markPathUnsupported_same_watching|done].
    + intros _. exists (pre ++ [warn_skipping_unsupported])%list.
      split; [by destruct pre|].
      rewrite app_assoc, <- Hpre. destruct (err_path err) as [p|]; [|done].
      simpl. f_equal. unfold markPathUnsupported. by destruct (_ && _).
  - destruct Hother as [?|Hl]; [done|]. rewrite Hl. split.
    + eapply same_watching_trans; [exact Hsw|done].
    + intros _. exists (pre ++ [error_watcher_error])%list.
      split; [by destruct pre|]. by rewrite app_assoc, <- Hpre.
Qed.

Lemma switch_in_flight_joins (mode : watch_mode) (s : server) :
  is_Some (watcherSwitchPromise s) → switchWatcherMode mode s = s.
Proof.
  intros Hp. unfold switchWatcherMode. destruct (_ && _); [done|].
  by rewrite bool_decide_eq_true_2.
Qed.

Lemma limit_error_one_change (err : watcher_error) (i : nat) (s : server)
    (w : world) (trace : list (world * event)) :
  switch_sound s →
  limit_error err → watcher s = Some i → watcherMode s = native →
  watcherMode (run START_PATH ((w, error i err) :: trace) s)
  = (if closes trace then polling else native)
  ∧ mode_changes START_PATH ((w, error i err) :: trace) s
    = (if closes trace then 1 else 0)%nat.
Proof.
  intros Hs Hl Hw Hm.
  pose proof (limit_error_starts_switch err i s Hs Hl Hw Hm) as Ha.
  destruct (awaiting_close_run trace _ Ha) as [H1 H2].
  cbn [run foldl mode_changes fst snd step]. split; [exact H1|].
  rewrite H2. destruct Ha as (_ & _ & ->). rewrite Hm.
  by destruct (decide (native = native)).
Qed.

(** C5: in every state the running process can reach, [watcherMode]
    changes at most once along any trace of events and never goes back
    from polling; an error whose code is EMFILE or ENOSPC is a limit
    error; a limit error of the live watcher in native mode starts the
    switch to polling, which waits for the old watcher to close, and
    whatever events follow, the mode is polling once the old watcher has
    closed and has changed exactly once; every other error leaves mode,
    watcher and pending switch as they are and writes to the console;
    and [switchWatcherMode] called while a switch is pending starts no
    second one and leaves the state as it is. *)
Theorem watcher_mode_switch (s : server) :
  reachable START_PATH s → watcher_contract START_PATH s.
Proof.
  intros Hr. pose proof (reachable_sound s Hr) as Hs.
  split; [|split; [|split; [|split]]].
  - intros trace. split; [by apply mode_changes_at_most_once|].
    intros Hm. by apply run_polling_stays.
  - intros err code. apply limit_error_codes.
  - intros err i Hl Hw Hm. split; [by apply limit_error_starts_switch|].
    intros w trace. by apply limit_error_one_change.
  - intros err i. apply other_error_keeps_mode.
  - intros mode. apply switch_in_flight_joins.
Qed.

End Watching.

(** *** Segments and separators *)

Lemma segment_ok_inv (x : string) :
  segment_ok x = true → x ≠ "" ∧ x ≠ "." ∧ x ≠ ".." ∧ has_char "/" x = false.
Proof.
  unfold segment_ok. rewrite !andb_true_iff, !negb_true_iff, !String.eqb_neq. tauto.
Qed.

Lemma split_no_slash (x : string) : has_char "/" x = false → JsString.split "/" x = [x].
Proof.
  induction x as [|c x IH]; [done|]. simpl. intros H.
  apply orb_false_iff in H as [Hc Hx]. rewrite Hc, (IH Hx). done.
Qed.

Lemma split_segment_slash (x rest : string) :
  has_char "/" x = false →
  JsString.split "/" (x +:+ String "/" rest) = x :: JsString.split "/" rest.
Proof.
  induction x as [|c x IH]; intros H.
  - done.
  - simpl in H. apply orb_false_iff in H as [Hc Hx].
    change (JsString.split "/" (String c (x +:+ String "/" rest))
            = String c x :: JsString.split "/" rest).
    simpl. rewrite Hc, (IH Hx). done.
Qed.

Lemma join_cons (x : string) (xs : list string) :
  xs ≠ [] → JsString.join "/" (x :: xs) = x +:+ String "/" (JsString.join "/" xs).
Proof. destruct xs; [done|]. intros _. done. Qed.

Lemma split_join (r : list string) :
  forallb segment_ok r = true → r ≠ [] → JsString.split "/" (JsString.join "/" r) = r.
Proof.
  induction r as [|x xs IH]; [done|]. intros Hok _. simpl in Hok.
  apply andb_true_iff in Hok as [Hx Hxs].
  apply segment_ok_inv in Hx as (_ & _ & _ & Hx).
  destruct xs as [|y ys]; [by apply split_no_slash|].
  rewrite join_cons by done. rewrite split_segment_slash by done.
  by rewrite IH.
Qed.

Lemma join_truthy (r : list string) :
  forallb segment_ok r = true → r ≠ [] →
  ∃ c tl, JsString.join "/" r = String c tl ∧ c ≠ "/"%char.
Proof.
  destruct r as [|x xs]; [done|]. intros Hok _. simpl in Hok.
  apply andb_true_iff in Hok as [Hx _].
  apply segment_ok_inv in Hx as (Hne & _ & _ & Hx).
  destruct x as [|c x]; [done|]. simpl in Hx. apply orb_false_iff in Hx as [Hc _].
  apply Ascii.eqb_neq in Hc.
  destruct xs; [by exists c, x|]. rewrite join_cons by done. eexists c, _. done.
Qed.

(** *** The normaliser on paths under the root and elsewhere *)

Lemma relative_inside (from r : abspath) : relative from (from ++ r)%list = r.
Proof. induction from as [|f from IH]; [by destruct r|]. simpl. by rewrite String.eqb_refl. Qed.

Lemma relative_outside (from to : abspath) :
  (∀ r, to ≠ (from ++ r)%list) → ∃ tl, relative from to = ".." :: tl.
Proof.
  revert to. induction from as [|f from IH]; intros to Hout.
  - by destruct (Hout to).
  - destruct to as [|t to]; [by eexists|]. simpl.
    destruct (String.eqb f t) eqn:Hft; [|by eexists].
    apply String.eqb_eq in Hft as ->. apply IH. intros r ->. by apply (Hout r).
Qed.

Lemma join_dotdot (tl : list string) :
  is_outside_value (JsString.join "/" (".." :: tl)) = true
  ∧ JsString.startsWith (JsString.join "/" (".." :: tl)) ".." = true
  ∧ JsString.truthy (JsString.join "/" (".." :: tl)) = true.
Proof.
  destruct tl; [repeat split; reflexivity|].
  rewrite join_cons by done. generalize (JsString.join "/" (s :: tl)). intros j.
  destruct j; repeat split; reflexivity.
Qed.

Lemma is_outside_value_inv (s : string) :
  is_outside_value s = true → s = ".." ∨ ∃ t, s = ".." +:+ String "/" t.
Proof.
  unfold is_outside_value, JsString.startsWith. intros H.
  apply orb_true_iff in H as [H|H].
  - left. by apply String.eqb_eq.
  - right. apply prefix_split in H as [t ->]. by exists t.
Qed.

Lemma join_inside_not_outside (r : list string) :
  forallb segment_ok r = true → is_outside_value (JsString.join "/" r) = false.
Proof.
  destruct r as [|x xs]; [done|]. intros Hok. simpl in Hok.
  apply andb_true_iff in Hok as [Hx _].
  apply segment_ok_inv in Hx as (Hne & Hdot & Hdd & Hx).
  destruct (is_outside_value _) eqn:E; [|done]. exfalso.
  apply is_outside_value_inv in E.
  assert (Hhead : ∃ tl, JsString.split "/" (JsString.join "/" (x :: xs)) = x :: tl).
  { destruct xs as [|y ys]; [exists []; by apply split_no_slash|].
    rewrite join_cons by done. rewrite split_segment_slash by done. by eexists. }
  destruct Hhead as [tl Hhead].
  destruct E as [E|[t E]]; rewrite E in Hhead.
  - simpl in Hhead. congruence.
  - rewrite (split_segment_slash ".." t) in Hhead by done. congruence.
Qed.

Section Normaliser.
Variable START_PATH : abspath.

Lemma normalizeRelative_root : normalizeRelative START_PATH START_PATH = "/".
Proof.
  unfold normalizeRelative.
  rewrite <- (app_nil_r START_PATH) at 2. by rewrite relative_inside.
Qed.

Lemma normalizeRelative_below (r : list string) :
  forallb segment_ok r = true → r ≠ [] →
  normalizeRelative START_PATH (START_PATH ++ r)%list = JsString.join "/" r.
Proof.
  intros Hok Hne. unfold normalizeRelative. rewrite relative_inside.
  destruct (join_truthy r Hok Hne) as (c & tl & -> & _). done.
Qed.

Lemma normalizeRelative_outside (absolutePath : abspath) :
  outside START_PATH absolutePath →
  is_outside_value (normalizeRelative START_PATH absolutePath) = true
  ∧ JsString.startsWith (normalizeRelative START_PATH absolutePath) ".." = true.
Proof.
  intros Hout. destruct (relative_outside START_PATH absolutePath Hout) as [tl Htl].
  unfold normalizeRelative. rewrite Htl.
  destruct (join_dotdot tl) as (H1 & H2 & H3). by rewrite H3.
Qed.

Lemma normalizeRelative_inside_not_outside (absolutePath : abspath) :
  inside START_PATH absolutePath →
  is_outside_value (normalizeRelative START_PATH absolutePath) = false.
Proof.
  intros (r & -> & Hok). destruct r as [|x xs].
  - rewrite app_nil_r, normalizeRelative_root. done.
  - rewrite normalizeRelative_below by done. by apply join_inside_not_outside.
Qed.

Lemma normalizeRelative_inj (r1 r2 : list string) :
  forallb segment_ok r1 = true → forallb segment_ok r2 = true →
  normalizeRelative START_PATH (START_PATH ++ r1)%list
  = normalizeRelative START_PATH (START_PATH ++ r2)%list →
  r1 = r2.
Proof.
  intros H1 H2 Heq.
  destruct r1 as [|x1 r1], r2 as [|x2 r2]; [done| | |].
  - rewrite app_nil_r, normalizeRelative_root, normalizeRelative_below in Heq by done.
    destruct (join_truthy (x2 :: r2) H2) as (c & tl & E & Hc); [done|].
    rewrite E in Heq. congruence.
  - rewrite app_nil_r, normalizeRelative_root, normalizeRelative_below in Heq by done.
    destruct (join_truthy (x1 :: r1) H1) as (c & tl & E & Hc); [done|].
    rewrite E in Heq. congruence.
  - rewrite !normalizeRelative_below in Heq by done.
    rewrite <- (split_join (x1 :: r1)), <- (split_join (x2 :: r2)) by done.
    by rewrite Heq.
Qed.

End Normaliser.

(** *** The parent of a path *)

Lemma lastIndexOf_from_absent (c : ascii) (x : string) (i acc : Z) :
  has_char c x = false → JsString.lastIndexOf_from c x i acc = acc.
Proof.
  revert i acc. induction x as [|d x IH]; intros i acc H; [done|].
  simpl in *. apply orb_false_iff in H as [Hd Hx]. rewrite Hd. by apply IH.
Qed.

Lemma lastIndexOf_from_last (c : ascii) (a x : string) (i acc : Z) :
  has_char c x = false →
  JsString.lastIndexOf_from c (a +:+ String c x) i acc = i + Z.of_nat (String.length a).
Proof.
  revert i acc. induction a as [|d a IH]; intros i acc H.
  - change (JsString.lastIndexOf_from c (String c x) i acc = i + 0). simpl.
    rewrite Ascii.eqb_refl, lastIndexOf_from_absent by done. lia.
  - change (JsString.lastIndexOf_from c (String d (a +:+ String c x)) i acc
            = i + Z.of_nat (S (String.length a))).
    simpl. rewrite IH by done. lia.
Qed.

Lemma substring_prefix (a y : string) : String.substring 0 (String.length a) (a +:+ y) = a.
Proof.
  induction a as [|d a IH]; [by destruct y|].
  change (String.substring 0 (S (String.length a)) (String d (a +:+ y)) = String d a).
  simpl. by rewrite IH.
Qed.

Lemma join_snoc (r : list string) (x : string) :
  r ≠ [] → JsString.join "/" (r ++ [x])%list = JsString.join "/" r +:+ String "/" x.
Proof.
  induction r as [|y r IH]; [done|]. intros _. destruct r as [|z r]; [done|].
  change (JsString.join "/" (y :: ((z :: r) ++ [x])%list)
          = JsString.join "/" (y :: z :: r) +:+ String "/" x).
  rewrite !join_cons by done. rewrite IH by done.
  rewrite append_assoc. done.
Qed.

Section Parent.
Variable START_PATH : abspath.

Lemma parentOf_child (r : list string) (x : string) :
  forallb segment_ok r = true → segment_ok x = true →
  parentOf (normalizeRelative START_PATH (START_PATH ++ r ++ [x])%list)
  = Some (normalizeRelative START_PATH (START_PATH ++ r)%list).
Proof.
  intros Hr Hx.
  assert (Hrx : forallb segment_ok (r ++ [x])%list = true).
  { rewrite forallb_app, Hr. simpl. by rewrite Hx. }
  rewrite (normalizeRelative_below START_PATH (r ++ [x])%list Hrx)
    by (by destruct r).
  destruct (join_truthy (r ++ [x])%list Hrx) as (c & tl & E & Hc); [by destruct r|].
  unfold parentOf. rewrite E.
  assert (String.eqb (String c tl) "/" = false) as ->.
  { apply String.eqb_neq. congruence. }
  simpl. rewrite <- E. clear E c tl Hc.
  apply segment_ok_inv in Hx as (Hne & _ & _ & Hx).
  destruct r as [|y r].
  - rewrite app_nil_r, normalizeRelative_root. simpl.
    unfold JsString.lastIndexOf. rewrite lastIndexOf_from_absent by done. done.
  - rewrite normalizeRelative_below by done.
    rewrite join_snoc by done.
    unfold JsString.lastIndexOf. rewrite lastIndexOf_from_last by done.
    destruct (join_truthy (y :: r) Hr) as (c & tl & E & Hc); [done|].
    assert (0 < Z.of_nat (String.length (JsString.join "/" (y :: r)))) as Hpos.
    { rewrite E. simpl. lia. }
    destruct (Z.leb_spec (0 + Z.of_nat (String.length (JsString.join "/" (y :: r)))) 0);
      [lia|].
    unfold JsString.slice_to. rewrite Z.add_0_l, Nat2Z.id. by rewrite substring_prefix.
Qed.

End Parent.

(** *** Outside values in the store *)

Lemma no_outside_entries_upsert (e : Entry.t) (d : database) :
  is_outside_value (Entry.path e) = false →
  no_outside_entries d → no_outside_entries (statements.upsertEntry e d).
Proof.
  intros He Hd q e'. simpl. rewrite lookup_insert.
  destruct (decide (Entry.path e = q)) as [<-|Hne]; [done|]. apply Hd.
Qed.

Lemma no_outside_entries_same (d d' : database) :
  entries d' = entries d → no_outside_entries d → no_outside_entries d'.
Proof. intros Heq Hd q e. rewrite Heq. apply Hd. Qed.

Lemma no_outside_entries_subset (d d' : database) :
  (∀ q e, entries d' !! q = Some e → entries d !! q = Some e) →
  no_outside_entries d → no_outside_entries d'.
Proof. intros Hsub Hd q e He. eapply Hd, Hsub, He. Qed.

Section Outside.
Variable START_PATH : abspath.

Lemma entryFromStats_path (w : world) (rel : string) (st : Stats) :
  Entry.path (entryFromStats START_PATH w rel st) = rel.
Proof. done. Qed.

Lemma markPathUnsupported_db (p : abspath) (s : server) :
  db (markPathUnsupported START_PATH p s) = db s.
Proof. unfold markPathUnsupported. by destruct (_ && _). Qed.

Lemma walk_no_outside (w : world) :
  (∀ n r st, names_ok n = true → forallb segment_ok r = true →
             no_outside_entries (db st.1) →
             no_outside_entries (db (walk START_PATH w (START_PATH ++ r) n st).1))
  ∧ (∀ cs r st, listing_ok cs = true → forallb segment_ok r = true →
                no_outside_entries (db st.1) →
                no_outside_entries (db (walk_children START_PATH w (START_PATH ++ r) cs st).1)).
Proof.
  apply fsnode_mutual_ind.
  - intros code r st _ Hr Hd. simpl. destruct (shouldIgnorePath _ _ _); [done|].
    destruct (is_unsupported_code code); [|done]. simpl. by rewrite markPathUnsupported_db.
  - intros sz mt r st _ Hr Hd. simpl. destruct (shouldIgnorePath _ _ _); [done|].
    destruct (bool_decide _); [done|]. simpl.
    eapply no_outside_entries_same;
      [apply (same_entries _ _ (git_only_refreshGitMetadataForPath _ _ _ _))|].
    apply no_outside_entries_upsert; [|done].
    apply normalizeRelative_inside_not_outside. by exists r.
  - intros mt l cs IH r st Hok Hr Hd. simpl. destruct (shouldIgnorePath _ _ _); [done|].
    destruct (bool_decide _); [done|].
    match goal with |- context [updateGitMetadataForDirectory ?a ?b ?c ?d ?e] =>
      assert (no_outside_entries (db (updateGitMetadataForDirectory a b c d e).2)) as Hd'
    end.
    { eapply no_outside_entries_same;
        [apply (same_entries _ _ (git_only_updateGitMetadataForDirectory _ _ _ _ _))|].
      apply no_outside_entries_upsert; [|done].
      apply normalizeRelative_inside_not_outside. by exists r. }
    destruct l; [|done]. by apply (IH r (_, _)).
  - done.
  - intros nm c IHc rest IHrest r st Hok Hr Hd. simpl in *.
    apply andb_true_iff in Hok as [Hok Hrest]. apply andb_true_iff in Hok as [Hok Hc].
    apply andb_true_iff in Hok as [Hnm _].
    apply IHrest; [done..|]. rewrite <- app_assoc. apply IHc; [done| |done].
    rewrite forallb_app, Hr. simpl. by rewrite Hnm.
Qed.

Lemma indexPath_no_outside (w : world) (p : abspath) (s : server) :
  inside START_PATH p →
  no_outside_entries (db s) → no_outside_entries (db (indexPath START_PATH w p s).2).
Proof.
  intros Hin Hd. unfold indexPath. destruct (shouldIgnorePath _ _ _); [done|].
  destruct (stat w p) as [code|sz mt|mt l cs]; simpl.
  - destruct (is_unsupported_code code); [|done]. by rewrite markPathUnsupported_db.
  - eapply no_outside_entries_same;
      [apply (same_entries _ _ (git_only_refreshGitMetadataForPath _ _ _ _))|].
    apply no_outside_entries_upsert; [|done].
    by apply normalizeRelative_inside_not_outside.
  - eapply no_outside_entries_same;
      [apply (same_entries _ _ (git_only_updateGitMetadataForDirectory _ _ _ _ _))|].
    apply no_outside_entries_upsert; [|done].
    by apply normalizeRelative_inside_not_outside.
Qed.

Lemma removePath_entries_subset (w : world) (p : string) (s : server) (q : string)
    (e : Entry.t) :
  entries (db (removePath START_PATH w p s)) !! q = Some e → entries (db s) !! q = Some e.
Proof.
  destruct (removePath_db START_PATH w p s) as [-> _].
  rewrite lookup_delete_branch. by destruct (_ || _).
Qed.

Lemma deleteEntryBranch_entries_subset (w : world) (p : string) (s : server) (q : string)
    (e : Entry.t) :
  entries (db (deleteEntryBranch START_PATH w p s)) !! q = Some e →
  entries (db s) !! q = Some e.
Proof.
  destruct (decide (p = "/")) as [->|Hroot]; [done|].
  destruct (decide (p = "")) as [->|Hempty]; [done|].
  destruct (deleteEntryBranch_db START_PATH w p s Hroot Hempty) as [-> _].
  rewrite lookup_delete_branch. by destruct (_ || _).
Qed.

Lemma on_fs_event_no_outside (w : world) (i : nat) (ev : fs_event) (s : server) :
  inside START_PATH (event_path ev) →
  no_outside_entries (db s) → no_outside_entries (db (on_fs_event START_PATH w i ev s)).
Proof.
  intros Hin Hd. unfold on_fs_event. destruct (negb _); [done|].
  destruct ev as [p|p|p|p|p]; simpl in Hin.
  - pose proof (indexPath_no_outside w p s Hin Hd) as H.
    by destruct (indexPath _ _ _ _) as [[] s'].
  - pose proof (indexPath_no_outside w p s Hin Hd) as H.
    by destruct (indexPath _ _ _ _) as [[] s'].
  - destruct (shouldIgnorePath _ _ _); [done|]. simpl.
    eapply no_outside_entries_subset; [|exact Hd]. apply removePath_entries_subset.
  - pose proof (indexPath_no_outside w p s Hin Hd) as H.
    by destruct (indexPath _ _ _ _) as [[] s'].
  - destruct (shouldIgnorePath _ _ _); [done|]. simpl.
    eapply no_outside_entries_subset; [|exact Hd]. apply deleteEntryBranch_entries_subset.
Qed.

(** C8: a path outside the root normalises to [..] or to something
    beginning with [../]; a scan of a properly named tree stores no row
    under such a value; and no watcher event for a path under the root
    does. *)
Theorem outside_paths_never_stored :
  (∀ absolutePath,
      outside START_PATH absolutePath →
      is_outside_value (normalizeRelative START_PATH absolutePath) = true
      ∧ JsString.startsWith (normalizeRelative START_PATH absolutePath) ".." = true)
  ∧ (∀ w s,
        names_ok (stat w START_PATH) = true →
        no_outside_entries (db s) →
        no_outside_entries (db (scanInitialTree START_PATH w s)))
  ∧ (∀ w i ev s,
        inside START_PATH (event_path ev) →
        no_outside_entries (db s) →
        no_outside_entries (db (on_fs_event START_PATH w i ev s))).
Proof.
  split; [apply normalizeRelative_outside|]. split.
  - intros w s Hok Hd. unfold scanInitialTree.
    destruct (walk_no_outside w) as [Hwalk _].
    specialize (Hwalk (stat w START_PATH) [] (s, ∅) Hok eq_refl Hd).
    by rewrite app_nil_r in Hwalk.
  - apply on_fs_event_no_outside.
Qed.

End Outside.

(** *** Parents in the store *)

Lemma like_trailing_percent (pat s t : string) :
  Sql.like (pat +:+ "%") s = true → Sql.like (pat +:+ "%") (s +:+ t) = true.
Proof.
  revert s. induction pat as [|c pat IH]; intros s H.
  - apply like_percent_any.
  - change (Sql.like (String c (pat +:+ "%")) (s +:+ t) = true).
    change (Sql.like (String c (pat +:+ "%")) s = true) in H.
    cbn [Sql.like] in *.
    destruct (Ascii.eqb c Sql.percent).
    + induction s as [|d s IHs].
      * apply orb_true_iff in H as [H|H]; [|done].
        apply (IH "") in H. change ("" +:+ t) with t in *.
        destruct t; rewrite H; done.
      * change (String d s +:+ t) with (String d (s +:+ t)).
        apply orb_true_iff in H as [H|H].
        -- apply (IH (String d s)) in H.
           change (String d s +:+ t) with (String d (s +:+ t)) in H. by rewrite H.
        -- rewrite (IHs H). apply orb_true_r.
    + destruct (Ascii.eqb c Sql.underscore).
      * destruct s as [|d s]; [done|]. change (String d s +:+ t) with (String d (s +:+ t)).
        by apply IH.
      * destruct s as [|d s]; [done|]. change (String d s +:+ t) with (String d (s +:+ t)).
        apply andb_true_iff in H as [-> H]. by apply IH.
Qed.

Lemma lastIndexOf_from_spec (c : ascii) (q : string) (i acc : Z) :
  let j := JsString.lastIndexOf_from c q i acc in
  j = acc
  ∨ (i ≤ j ∧ ∃ pre tail, q = pre +:+ String c tail ∧ Z.of_nat (String.length pre) = j - i).
Proof.
  revert i acc. induction q as [|a q IH]; intros i acc; simpl; [by left|].
  destruct (IH (i + 1) (if Ascii.eqb a c then i else acc)) as [Hj|(Hle & pre & tail & Hq & Hlen)].
  - destruct (Ascii.eqb_spec a c) as [->|Hne]; [|by left].
    right. split; [lia|]. exists "", q. split; [done|]. simpl. lia.
  - right. split; [lia|]. exists (String a pre), tail. split; [by rewrite Hq|].
    simpl String.length. lia.
Qed.

Lemma parentOf_inv (q pq : string) :
  parentOf q = Some pq → pq = "/" ∨ ∃ tail, q = pq +:+ String "/" tail.
Proof.
  unfold parentOf. destruct (_ || _); [done|].
  destruct (Z.leb_spec (JsString.lastIndexOf "/" q) 0) as [Hle|Hgt]; [intros [= <-]; by left|].
  intros [= <-]. right. unfold JsString.lastIndexOf in *.
  destruct (lastIndexOf_from_spec "/" q 0 (-1)) as [Hj|(_ & pre & tail & Hq & Hlen)]; [lia|].
  exists tail. unfold JsString.slice_to.
  replace (Z.to_nat (JsString.lastIndexOf_from "/" q 0 (-1))) with (String.length pre) by lia.
  rewrite Hq at 2. by rewrite substring_prefix.
Qed.

Lemma parentOf_root : parentOf "/" = None.
Proof. done. Qed.

Lemma index_consistent_empty : index_consistent empty_database.
Proof. split; intros q e; simpl; by rewrite lookup_empty. Qed.

Lemma index_consistent_same (d d' : database) :
  entries d' = entries d → index_consistent d → index_consistent d'.
Proof. intros Heq [H1 H2]. split; rewrite Heq; done. Qed.

Lemma index_consistent_delete_branch (p : string) (d : database) :
  p ≠ "/" → Sql.like (p +:+ "/%") "/" = false →
  index_consistent d → index_consistent (delete_branch p d).
Proof.
  intros Hroot Hlike [Hkey Hpar]. split.
  - intros q e. rewrite lookup_delete_branch. destruct (_ || _); [done|]. apply Hkey.
  - intros q e pq. rewrite !lookup_delete_branch.
    destruct (Sql.like (p +:+ "/%") q || String.eqb p q) eqn:Hq; [done|].
    apply orb_false_iff in Hq as [Hlq Hpq]. intros He Hpe.
    destruct (Hkey q e He) as [_ Hparent]. rewrite Hpe in Hparent. symmetry in Hparent.
    destruct (Sql.like (p +:+ "/%") pq || String.eqb p pq) eqn:Hdel; [|by eapply Hpar].
    exfalso. apply parentOf_inv in Hparent as [->|[tail ->]].
    + apply orb_true_iff in Hdel as [Hdel|Hdel]; [congruence|].
      apply String.eqb_eq in Hdel. done.
    + apply orb_true_iff in Hdel as [Hdel|Hdel].
      * assert (Hpat : p +:+ "/%" = (p +:+ "/") +:+ "%")
          by (symmetry; apply (append_assoc p "/" "%")).
        rewrite Hpat in Hdel.
        apply (like_trailing_percent _ _ (String "/" tail)) in Hdel.
        rewrite <- Hpat in Hdel. congruence.
      * apply String.eqb_eq in Hdel as <-.
        assert (below p (p +:+ String "/" tail)) as Hb.
        { unfold below. clear. induction p as [|c p IH]; [by destruct tail|].
          change (String.prefix (String c (p +:+ "/")) (String c (p +:+ String "/" tail)) = true).
          simpl. destruct (ascii_dec c c); [exact IH|done]. }
        apply like_below in Hb. congruence.
Qed.

Section Consistency.
Variable START_PATH : abspath.

Lemma index_consistent_upsert (w : world) (rel : string) (st : Stats) (d : database) :
  (∀ pq, parentOf rel = Some pq → is_Some (entries d !! pq)) →
  index_consistent d →
  index_consistent (statements.upsertEntry (entryFromStats START_PATH w rel st) d).
Proof.
  intros Hparent [Hkey Hpar]. split.
  - intros q e. simpl. rewrite lookup_insert.
    destruct (decide (rel = q)) as [<-|Hne]; [by intros [= <-]|]. apply Hkey.
  - intros q e pq. simpl. rewrite !lookup_insert.
    destruct (decide (rel = q)) as [<-|Hne].
    + intros [= <-]. simpl. intros Hp.
      destruct (decide (rel = pq)); [done|]. by apply Hparent.
    + intros He Hp. destruct (decide (rel = pq)); [done|]. by eapply Hpar.
Qed.

Lemma upsert_keeps_rows (e : Entry.t) (d : database) (k : string) :
  is_Some (entries d !! k) → is_Some (entries (statements.upsertEntry e d) !! k).
Proof.
  simpl. rewrite lookup_insert. by destruct (decide (Entry.path e = k)).
Qed.

Lemma walk_consistent (w : world) :
  (∀ n r st,
      names_ok n = true → forallb segment_ok r = true →
      (∀ pq, parentOf (normalizeRelative START_PATH (START_PATH ++ r)) = Some pq →
             is_Some (entries (db st.1) !! pq)) →
      index_consistent (db st.1) →
      index_consistent (db (walk START_PATH w (START_PATH ++ r) n st).1)
      ∧ ∀ k, is_Some (entries (db st.1) !! k) →
             is_Some (entries (db (walk START_PATH w (START_PATH ++ r) n st).1) !! k))
  ∧ (∀ cs r st,
        listing_ok cs = true → forallb segment_ok r = true →
        is_Some (entries (db st.1) !! normalizeRelative START_PATH (START_PATH ++ r)) →
        index_consistent (db st.1) →
        index_consistent (db (walk_children START_PATH w (START_PATH ++ r) cs st).1)
        ∧ ∀ k, is_Some (entries (db st.1) !! k) →
               is_Some (entries (db (walk_children START_PATH w (START_PATH ++ r) cs st).1)
                          !! k)).
Proof.
  apply fsnode_mutual_ind.
  - intros code r st _ Hr Hp Hd. simpl. destruct (shouldIgnorePath _ _ _); [done|].
    destruct (is_unsupported_code code); [|done]. simpl. by rewrite markPathUnsupported_db.
  - intros sz mt r st _ Hr Hp Hd. simpl. destruct (shouldIgnorePath _ _ _); [done|].
    destruct (bool_decide _); [done|]. simpl.
    rewrite (same_entries _ _ (git_only_refreshGitMetadataForPath _ _ _ _)).
    split; [|intros k; apply upsert_keeps_rows].
    eapply index_consistent_same;
      [apply (same_entries _ _ (git_only_refreshGitMetadataForPath _ _ _ _))|].
    by apply index_consistent_upsert.
  - intros mt l cs IH r st Hok Hr Hp Hd. simpl. destruct (shouldIgnorePath _ _ _); [done|].
    destruct (bool_decide _); [done|].
    set (e := entryFromStats START_PATH w _ _).
    set (s1 := (updateGitMetadataForDirectory START_PATH w _ _ _).2).
    assert (Hs1 : entries (db s1) = entries (statements.upsertEntry e (db st.1))).
    { subst s1. by rewrite (same_entries _ _
                               (git_only_updateGitMetadataForDirectory _ _ _ _ _)). }
    assert (Hd1 : index_consistent (db s1)).
    { eapply index_consistent_same; [exact Hs1|]. by apply index_consistent_upsert. }
    assert (Hk1 : ∀ k, is_Some (entries (db st.1) !! k) → is_Some (entries (db s1) !! k)).
    { intros k. rewrite Hs1. apply upsert_keeps_rows. }
    destruct l; [|done].
    destruct (IH r (s1, {[normalizeRelative START_PATH (START_PATH ++ r)]} ∪ st.2)) as [H1 H2];
      try done.
    { simpl. rewrite Hs1. simpl. rewrite lookup_insert_eq. eauto. }
    split; [done|]. intros k Hk. by apply H2, Hk1.
  - done.
  - intros nm c IHc rest IHrest r st Hok Hr Hdir Hd. simpl in *.
    apply andb_true_iff in Hok as [Hok Hrest]. apply andb_true_iff in Hok as [Hok Hc].
    apply andb_true_iff in Hok as [Hnm _].
    assert (Hr' : forallb segment_ok (r ++ [nm]) = true).
    { rewrite forallb_app, Hr. simpl. by rewrite Hnm. }
    rewrite <- app_assoc.
    destruct (IHc (r ++ [nm]) st Hc Hr') as [H1 H2]; [|done|].
    { intros pq. rewrite parentOf_child by done. by intros [= <-]. }
    destruct (IHrest r (walk START_PATH w (START_PATH ++ r ++ [nm]) c st) Hrest Hr)
      as [H3 H4]; [by apply H2|done|].
    split; [done|]. intros k Hk. by apply H4, H2.
Qed.

Lemma scanInitialTree_consistent (w : world) (s : server) :
  names_ok (stat w START_PATH) = true →
  index_consistent (db s) → index_consistent (db (scanInitialTree START_PATH w s)).
Proof.
  intros Hok Hd. destruct (walk_consistent w) as [Hwalk _].
  destruct (Hwalk (stat w START_PATH) [] (s, ∅)) as [H _]; try done.
  { intros pq. rewrite app_nil_r, normalizeRelative_root. done. }
  by rewrite app_nil_r in H.
Qed.

Lemma indexPath_consistent (w : world) (p : abspath) (s : server) :
  (∀ pq, parentOf (normalizeRelative START_PATH p) = Some pq →
         is_Some (entries (db s) !! pq)) →
  index_consistent (db s) → index_consistent (db (indexPath START_PATH w p s).2).
Proof.
  intros Hp Hd. unfold indexPath. destruct (shouldIgnorePath _ _ _); [done|].
  destruct (stat w p) as [code|sz mt|mt l cs]; simpl.
  - destruct (is_unsupported_code code); [|done]. by rewrite markPathUnsupported_db.
  - eapply index_consistent_same;
      [apply (same_entries _ _ (git_only_refreshGitMetadataForPath _ _ _ _))|].
    eapply (index_consistent_same (statements.upsertEntry _ (db s))); [done|].
    by apply index_consistent_upsert.
  - eapply index_consistent_same;
      [apply (same_entries _ _ (git_only_updateGitMetadataForDirectory _ _ _ _ _))|].
    by apply index_consistent_upsert.
Qed.

Lemma removePath_consistent (w : world) (p : string) (s : server) :
  p ≠ "/" → Sql.like (p +:+ "/%") "/" = false →
  index_consistent (db s) → index_consistent (db (removePath START_PATH w p s)).
Proof.
  intros Hroot Hlike Hd. destruct (removePath_db START_PATH w p s) as [He _].
  eapply index_consistent_same; [exact He|]. by apply index_consistent_delete_branch.
Qed.

Lemma deleteEntryBranch_consistent (w : world) (p : string) (s : server) :
  Sql.like (p +:+ "/%") "/" = false →
  index_consistent (db s) → index_consistent (db (deleteEntryBranch START_PATH w p s)).
Proof.
  intros Hlike Hd.
  destruct (decide (p = "/")) as [->|Hroot]; [done|].
  destruct (decide (p = "")) as [->|Hempty]; [done|].
  destruct (deleteEntryBranch_db START_PATH w p s Hroot Hempty) as [He _].
  eapply index_consistent_same; [exact He|]. by apply index_consistent_delete_branch.
Qed.

(** *** Every way the store changes *)

Lemma handleWatcherError_db (err : watcher_error) (i : nat) (s : server) :
  db (handleWatcherError START_PATH err i s) = db s.
Proof.
  unfold handleWatcherError. destruct (negb _); [done|].
  set (s1 := if watcherErrorDiagnosticsLogged s then s else _).
  assert (db s1 = db s) as <- by (subst s1; by destruct (watcherErrorDiagnosticsLogged s)).
  clearbody s1. destruct (has_unsupported_code err).
  { destruct (err_path err); [|done]. simpl. by rewrite markPathUnsupported_db. }
  destruct (isWatcherLimitError err); [|done].
  destruct (watcherMode s1); [|done].
  unfold switchWatcherMode. destruct (_ && _); [done|].
  destruct (bool_decide _); [done|]. simpl. by destruct (watcher s1).
Qed.

Lemma act_consistent (a : action) (s : server) :
  orderly START_PATH s a → index_consistent (db s) → index_consistent (db (act START_PATH a s)).
Proof.
  intros Ho Hd. destruct a as [w|w e|p k v|p k v]; simpl in *.
  - unfold bootstrap. pose proof (scanInitialTree_consistent w s Ho Hd) as H.
    unfold switchWatcherMode. destruct (_ && _); [done|].
    destruct (bool_decide _); [done|]. simpl.
    by destruct (watcher (scanInitialTree START_PATH w s)).
  - destruct e as [i ev|i err|f]; simpl.
    + unfold on_fs_event. destruct (negb _); [done|].
      destruct ev as [q|q|q|q|q].
      * pose proof (indexPath_consistent w q s Ho Hd) as H.
        by destruct (indexPath _ _ _ _) as [[] s'].
      * pose proof (indexPath_consistent w q s Ho Hd) as H.
        by destruct (indexPath _ _ _ _) as [[] s'].
      * destruct (shouldIgnorePath _ _ _); [done|]. simpl.
        destruct Ho as [H1 H2]. by apply removePath_consistent.
      * pose proof (indexPath_consistent w q s Ho Hd) as H.
        by destruct (indexPath _ _ _ _) as [[] s'].
      * destruct (shouldIgnorePath _ _ _); [done|]. simpl.
        by apply deleteEntryBranch_consistent.
    + by rewrite handleWatcherError_db.
    + unfold close_settled. destruct (watcherSwitchPromise s) as [[m]|]; [|done].
      by destruct f, m.
  - eapply index_consistent_same; [|exact Hd]. unfold post_api_tags.
    destruct p as [p|], k as [k|], v as [v|]; try done.
    destruct (_ || _); [done|]. destruct (statements.singleEntry p (db s)); [|done].
    unfold statements.addTag. destruct (bool_decide _); [done|].
    destruct (bool_decide _); done.
  - eapply index_consistent_same; [|exact Hd]. unfold delete_api_tags.
    destruct p as [p|], k as [k|], v as [v|]; try done.
    destruct (_ || _); done.
Qed.

(** C3: in every state reached from the empty server by orderly
    actions (scans of properly named trees, add, change and addDir events
    for paths whose parent has a row, removals that do not take the root's
    row, tag requests, watcher errors and switches) every row names as
    parent the parent of its own path, and that parent has a row. *)
Theorem parents_stay_indexed (s : server) :
  orderly_reachable START_PATH s → index_consistent (db s).
Proof.
  induction 1 as [|a s _ IH Ho]; [apply index_consistent_empty|].
  by apply act_consistent.
Qed.

End Consistency.

(** *** What a scan reaches *)

Section Reach.
Variable START_PATH : abspath.

Lemma shouldIgnorePath_mono (s s' : server) (p : abspath) :
  unsupportedPaths s ⊆ unsupportedPaths s' →
  shouldIgnorePath START_PATH s' p = false → shouldIgnorePath START_PATH s p = false.
Proof.
  intros Hsub. unfold shouldIgnorePath.
  destruct (bool_decide (abs_string p ∈ unsupportedPaths s')) eqn:H1; [done|].
  destruct (bool_decide (normalizeRelative START_PATH p ∈ unsupportedPaths s')) eqn:H2; [done|].
  apply bool_decide_eq_false in H1, H2. intros H.
  rewrite !bool_decide_eq_false_2; [done| |]; intros Hin; by apply Hsub in Hin.
Qed.

Lemma visits_mono (s s' : server) :
  unsupportedPaths s ⊆ unsupportedPaths s' →
  (∀ n p q m, visits START_PATH s' p n q m → visits START_PATH s p n q m)
  ∧ (∀ cs p q m, visits_in START_PATH s' p cs q m → visits_in START_PATH s p cs q m).
Proof.
  intros Hsub. apply fsnode_mutual_ind; simpl.
  - intros code p q m [_ []].
  - intros sz mt p q m [Hi H]. split; [by eapply shouldIgnorePath_mono|done].
  - intros mt l cs IH p q m [Hi H]. split; [by eapply shouldIgnorePath_mono|].
    destruct H as [H|[Hl H]]; [by left|right]. split; [done|]. by apply IH.
  - done.
  - intros nm c IHc rest IHrest p q m [H|H]; [left; by apply IHc|right; by apply IHrest].
Qed.

Lemma visits_clock_free (s0 : server) :
  (∀ n p q m, clock_free n = true → visits START_PATH s0 p n q m →
              Qeq_bool (mtimeMs (stats_of m)) 0 = false)
  ∧ (∀ cs p q m, listing_clock_free cs = true → visits_in START_PATH s0 p cs q m →
                 Qeq_bool (mtimeMs (stats_of m)) 0 = false).
Proof.
  apply fsnode_mutual_ind; simpl.
  - intros code p q m _ [_ []].
  - intros sz mt p q m Hc [_ [_ ->]]. simpl. by apply negb_true_iff.
  - intros mt l cs IH p q m Hc [_ H]. apply andb_true_iff in Hc as [Hmt Hcs].
    destruct H as [[_ ->]|[_ H]]; [simpl; by apply negb_true_iff|by eapply IH].
  - done.
  - intros nm c IHc rest IHrest p q m Hc [H|H]; apply andb_true_iff in Hc as [H1 H2];
      [by eapply IHc|by eapply IHrest].
Qed.

Lemma markPathUnsupported_grows (p : abspath) (s : server) :
  unsupportedPaths s ⊆ unsupportedPaths (markPathUnsupported START_PATH p s).
Proof.
  unfold markPathUnsupported. destruct (_ && _); simpl; intros x Hx;
    repeat (apply elem_of_union; right); done.
Qed.

Lemma scanned_entry_clock (w w' : world) (q : abspath) (m : fsnode) :
  Qeq_bool (mtimeMs (stats_of m)) 0 = false ∨ w_now w = w_now w' →
  scanned_entry START_PATH w q m = scanned_entry START_PATH w' q m.
Proof.
  intros H. unfold scanned_entry, entryFromStats. f_equal.
  destruct H as [->| ->]; done.
Qed.

Lemma key_below_child (r : list string) (nm : string) (k : string) :
  segment_ok nm = true → key_below START_PATH (r ++ [nm]) k → key_below START_PATH r k.
Proof.
  intros Hnm (r' & Hr' & ->). exists (nm :: r'). split; [simpl; by rewrite Hnm|].
  by rewrite <- app_assoc.
Qed.

Lemma key_below_distinct (r : list string) (nm nm' : string) (k : string) :
  forallb segment_ok r = true → segment_ok nm = true → segment_ok nm' = true →
  nm ≠ nm' → key_below START_PATH (r ++ [nm]) k → key_below START_PATH (r ++ [nm']) k → False.
Proof.
  intros Hr Hnm Hnm' Hne (r1 & Hr1 & ->) (r2 & Hr2 & Heq).
  apply normalizeRelative_inj in Heq.
  - rewrite <- !app_assoc in Heq. apply app_inv_head in Heq. simpl in Heq. congruence.
  - rewrite !forallb_app, Hr, Hr1. simpl. by rewrite Hnm.
  - rewrite !forallb_app, Hr, Hr2. simpl. by rewrite Hnm'.
Qed.

Lemma key_below_not_self (r : list string) (nm : string) :
  forallb segment_ok r = true → segment_ok nm = true →
  key_below START_PATH (r ++ [nm]) (normalizeRelative START_PATH (START_PATH ++ r)) → False.
Proof.
  intros Hr Hnm (r' & Hr' & Heq). apply normalizeRelative_inj in Heq; [| done |].
  - rewrite <- app_assoc in Heq. rewrite <- (app_nil_r r) in Heq at 1.
    apply app_inv_head in Heq. done.
  - rewrite !forallb_app, Hr, Hr'. simpl. by rewrite Hnm.
Qed.

End Reach.

Lemma listing_ok_names (cs : listing) (nm : string) :
  listing_ok cs = true → nm ∈ child_names cs → segment_ok nm = true.
Proof.
  induction cs as [|x c rest IH]; simpl; [intros _ H; by apply elem_of_nil in H|].
  intros Hok Hin. apply andb_true_iff in Hok as [Hok Hrest].
  apply andb_true_iff in Hok as [Hok _]. apply andb_true_iff in Hok as [Hx _].
  apply elem_of_cons in Hin as [->|Hin]; [done|by apply IH].
Qed.

Section FirstScan.
Variable START_PATH : abspath.
Variable w : world.

Abbreviation rel := (normalizeRelative START_PATH).

Lemma key_below_self (r : list string) : key_below START_PATH r (rel (START_PATH ++ r)).
Proof. exists []. by rewrite app_nil_r. Qed.

Lemma key_in_children_below (r : list string) (cs : listing) (k : string) :
  listing_ok cs = true → key_in_children START_PATH r cs k → key_below START_PATH r k.
Proof.
  intros Hok (nm & Hnm & Hk). eapply key_below_child; [|exact Hk].
  by eapply listing_ok_names.
Qed.

Lemma visits_key_below (s0 : server) :
  (∀ n r q m, names_ok n = true → visits START_PATH s0 (START_PATH ++ r) n q m →
              key_below START_PATH r (rel q))
  ∧ (∀ cs r q m, listing_ok cs = true → visits_in START_PATH s0 (START_PATH ++ r) cs q m →
                 key_in_children START_PATH r cs (rel q)).
Proof.
  apply fsnode_mutual_ind; simpl.
  - intros code r q m _ [_ []].
  - intros sz mt r q m _ [_ [-> _]]. apply key_below_self.
  - intros mt l cs IH r q m Hok [_ [[-> _]|[_ H]]]; [apply key_below_self|].
    eapply key_in_children_below; [done|]. by eapply IH.
  - done.
  - intros nm c IHc rest IHrest r q m Hok [H|H].
    + apply andb_true_iff in Hok as [Hok Hrest]. apply andb_true_iff in Hok as [Hok Hc].
      exists nm. split; [by left|]. rewrite <- app_assoc in H. by eapply IHc.
    + apply andb_true_iff in Hok as [Hok Hrest].
      destruct (IHrest r q m Hrest H) as (nm' & Hnm' & Hk).
      exists nm'. split; [by right|done].
Qed.

Lemma walk_bounds_refl (below : string → Prop) (st : server * gset string) :
  walk_bounds below st st.
Proof. split; [done|by left|done]. Qed.

Lemma upsert_then_git (s s' : server) (e : Entry.t) :
  git_only (with_db (statements.upsertEntry e) s) s' →
  entries (db s') = <[Entry.path e := e]> (entries (db s))
  ∧ unsupportedPaths s' = unsupportedPaths s.
Proof. intros [He _ Hu _ _ _ _ _ _ _ _]. by rewrite He, Hu. Qed.

Lemma first_walk :
  (∀ n r st,
      names_ok n = true → forallb segment_ok r = true →
      (∀ k, key_below START_PATH r k → k ∉ st.2) →
      let st' := walk START_PATH w (START_PATH ++ r) n st in
      walk_bounds (key_below START_PATH r) st st'
      ∧ ∀ q m, visits START_PATH st'.1 (START_PATH ++ r) n q m →
               entries (db st'.1) !! rel q = Some (scanned_entry START_PATH w q m))
  ∧ (∀ cs r st,
        listing_ok cs = true → forallb segment_ok r = true →
        (∀ k, key_in_children START_PATH r cs k → k ∉ st.2) →
        let st' := walk_children START_PATH w (START_PATH ++ r) cs st in
        walk_bounds (key_in_children START_PATH r cs) st st'
        ∧ ∀ q m, visits_in START_PATH st'.1 (START_PATH ++ r) cs q m →
                 entries (db st'.1) !! rel q = Some (scanned_entry START_PATH w q m)).
Proof.
  apply fsnode_mutual_ind.
  - (* a node without stats *)
    intros code r st _ Hr Hfresh. simpl.
    destruct (shouldIgnorePath START_PATH st.1 (START_PATH ++ r)) eqn:Hign.
    { split; [apply walk_bounds_refl|]. simpl. intros q m [_ []]. }
    destruct (is_unsupported_code code).
    + split; [|intros q m [_ []]].
      split; simpl; [apply markPathUnsupported_grows|by left|].
      intros k _. by rewrite markPathUnsupported_db.
    + split; [apply walk_bounds_refl|intros q m [_ []]].
  - (* a file *)
    intros sz mt r st _ Hr Hfresh. simpl.
    destruct (shouldIgnorePath START_PATH st.1 (START_PATH ++ r)) eqn:Hign.
    { split; [apply walk_bounds_refl|]. simpl. intros q m [Hq _]. congruence. }
    rewrite bool_decide_eq_false_2 by (apply Hfresh, key_below_self).
    match goal with |- context [refreshGitMetadataForPath ?a ?b ?c ?d] =>
      destruct (upsert_then_git _ _ _ (git_only_refreshGitMetadataForPath a b c
                  (with_db (statements.upsertEntry
                     (entryFromStats START_PATH w (rel (START_PATH ++ r))
                        (MkStats false sz mt))) st.1))) as [He Hu]
    end.
    split.
    + split; simpl.
      * by rewrite Hu.
      * intros k Hk. apply elem_of_union in Hk as [Hk|Hk]; [|by left].
        apply elem_of_singleton in Hk as ->. right. apply key_below_self.
      * intros k Hk. rewrite He. simpl. apply lookup_insert_ne.
        intros <-. apply Hk, key_below_self.
    + simpl. intros q m [_ [-> ->]]. rewrite He. simpl. by rewrite lookup_insert_eq.
  - (* a directory *)
    intros mt l cs IH r st Hok Hr Hfresh. simpl in Hok. simpl.
    destruct (shouldIgnorePath START_PATH st.1 (START_PATH ++ r)) eqn:Hign.
    { split; [apply walk_bounds_refl|]. simpl. intros q m [Hq _]. congruence. }
    rewrite bool_decide_eq_false_2 by (apply Hfresh, key_below_self).
    set (e := entryFromStats START_PATH w (rel (START_PATH ++ r)) (MkStats true 0 mt)).
    set (s1 := (updateGitMetadataForDirectory START_PATH w (START_PATH ++ r)
                  (rel (START_PATH ++ r)) (with_db (statements.upsertEntry e) st.1)).2).
    destruct (upsert_then_git st.1 s1 e) as [He Hu].
    { apply git_only_updateGitMetadataForDirectory. }
    set (seen1 := {[rel (START_PATH ++ r)]} ∪ st.2).
    assert (Hb1 : walk_bounds (key_below START_PATH r) st (s1, seen1)).
    { split; simpl.
      - by rewrite Hu.
      - intros k Hk. unfold seen1 in Hk. apply elem_of_union in Hk as [Hk|Hk]; [|by left].
        apply elem_of_singleton in Hk as ->. right. apply key_below_self.
      - intros k Hk. rewrite He. simpl. apply lookup_insert_ne.
        intros <-. apply Hk, key_below_self. }
    assert (Hself : entries (db s1) !! rel (START_PATH ++ r)
                    = Some (scanned_entry START_PATH w (START_PATH ++ r) (Dir mt l cs))).
    { rewrite He. simpl. by rewrite lookup_insert_eq. }
    destruct l.
    2:{ split; [exact Hb1|]. simpl. intros q m [_ [[-> ->]|[? _]]]; done. }
    destruct (IH r (s1, seen1) Hok Hr) as [[Hg Hs Hrows] Hvis].
    { intros k (nm & Hnm & Hk) Hin. simpl in Hin. unfold seen1 in Hin.
      apply elem_of_union in Hin as [Hin|Hin].
      - apply elem_of_singleton in Hin as ->.
        eapply key_below_not_self; [done| |exact Hk]. by eapply listing_ok_names.
      - eapply Hfresh; [|exact Hin]. eapply key_below_child; [|exact Hk].
        by eapply listing_ok_names. }
    destruct Hb1 as [Hg1 Hs1 Hrows1]. simpl in *.
    split.
    + split; simpl.
      * by etrans.
      * intros k Hk. apply Hs in Hk as [Hk|Hk]; [by apply Hs1|].
        right. by eapply key_in_children_below.
      * intros k Hk. rewrite Hrows, Hrows1; [done..|].
        intros Hc. apply Hk. by eapply key_in_children_below.
    + intros q m [_ [[-> ->]|[_ Hq]]]; [|by apply Hvis].
      rewrite Hrows; [exact Hself|].
      intros (nm & Hnm & Hk). eapply key_below_not_self; [done| |exact Hk].
      by eapply listing_ok_names.
  - (* no child left *)
    intros r st _ _ _. split; [apply walk_bounds_refl|]. by intros q m [].
  - (* a child, then the rest *)
    intros nm c IHc rest IHrest r st Hok Hr Hfresh. simpl in Hok.
    apply andb_true_iff in Hok as [Hok Hrest]. apply andb_true_iff in Hok as [Hok Hc].
    apply andb_true_iff in Hok as [Hnm Hdup].
    apply negb_true_iff, bool_decide_eq_false in Hdup.
    assert (Hr' : forallb segment_ok (r ++ [nm]) = true).
    { rewrite forallb_app, Hr. simpl. by rewrite Hnm. }
    cbn [walk_children]. rewrite <- app_assoc.
    destruct (IHc (r ++ [nm]) st Hc Hr') as [[Hg1 Hs1 Hrows1] Hvis1].
    { intros k Hk. apply Hfresh. exists nm. split; [by left|done]. }
    set (st1 := walk START_PATH w (START_PATH ++ r ++ [nm]) c st) in *.
    assert (Hsep : ∀ k, key_below START_PATH (r ++ [nm]) k → ¬ key_in_children START_PATH r rest k).
    { intros k Hk (nm' & Hnm' & Hk'). eapply (key_below_distinct START_PATH r nm nm');
        [done|done|by eapply listing_ok_names| |done|done]. by intros ->. }
    destruct (IHrest r st1 Hrest Hr) as [[Hg2 Hs2 Hrows2] Hvis2].
    { intros k Hk Hin. apply Hs1 in Hin as [Hin|Hin].
      - eapply Hfresh; [|exact Hin]. destruct Hk as (nm' & Hnm' & Hk).
        exists nm'. split; [by right|done].
      - by eapply Hsep. }
    split.
    + split; simpl.
      * by etrans.
      * intros k Hk. apply Hs2 in Hk as [Hk|(nm' & Hnm' & Hk)].
        -- apply Hs1 in Hk as [Hk|Hk]; [by left|]. right. exists nm. split; [by left|done].
        -- right. exists nm'. split; [by right|done].
      * intros k Hk. rewrite Hrows2, Hrows1; [done| |].
        -- intros Hc'. apply Hk. exists nm. split; [by left|done].
        -- intros (nm' & Hnm' & Hk'). apply Hk. exists nm'. split; [by right|done].
    + intros q m [Hq|Hq]; [|by apply Hvis2].
      rewrite <- app_assoc in Hq.
      assert (Hkb : key_below START_PATH (r ++ [nm]) (rel q)).
      { destruct (visits_key_below
                    (walk_children START_PATH w (START_PATH ++ r) rest st1).1) as [Hv _].
        by eapply Hv. }
      rewrite Hrows2 by (by apply Hsep).
      apply Hvis1. destruct (visits_mono START_PATH st1.1
        (walk_children START_PATH w (START_PATH ++ r) rest st1).1 Hg2) as [Hm _].
      by apply Hm.
Qed.

End FirstScan.

Section SecondScan.
Variable START_PATH : abspath.
Variable w : world.
(** The server as the first scan left it. *)
Variable s0 : server.

Abbreviation rel := (normalizeRelative START_PATH).

Lemma second_walk :
  (∀ n p st,
      unsupportedPaths s0 ⊆ unsupportedPaths st.1 →
      (∀ q m, visits START_PATH s0 p n q m →
              entries (db st.1) !! rel q = Some (scanned_entry START_PATH w q m)) →
      let st' := walk START_PATH w p n st in
      entries (db st'.1) = entries (db st.1)
      ∧ unsupportedPaths st.1 ⊆ unsupportedPaths st'.1)
  ∧ (∀ cs p st,
        unsupportedPaths s0 ⊆ unsupportedPaths st.1 →
        (∀ q m, visits_in START_PATH s0 p cs q m →
                entries (db st.1) !! rel q = Some (scanned_entry START_PATH w q m)) →
        let st' := walk_children START_PATH w p cs st in
        entries (db st'.1) = entries (db st.1)
        ∧ unsupportedPaths st.1 ⊆ unsupportedPaths st'.1).
Proof.
  apply fsnode_mutual_ind.
  - intros code p st Hsub Hrows. simpl.
    destruct (shouldIgnorePath START_PATH st.1 p); [done|].
    destruct (is_unsupported_code code); [|done]. simpl.
    split; [by rewrite markPathUnsupported_db|apply markPathUnsupported_grows].
  - intros sz mt p st Hsub Hrows. simpl.
    destruct (shouldIgnorePath START_PATH st.1 p) eqn:Hign; [done|].
    destruct (bool_decide _); [done|].
    match goal with |- context [refreshGitMetadataForPath ?a ?b ?c ?d] =>
      destruct (upsert_then_git _ _ _ (git_only_refreshGitMetadataForPath a b c d))
        as [He Hu]
    end.
    simpl. rewrite He, Hu. split; [|done]. simpl. apply insert_id.
    apply (Hrows p (File sz mt)). simpl. split; [|done].
    by eapply shouldIgnorePath_mono.
  - intros mt l cs IH p st Hsub Hrows. simpl.
    destruct (shouldIgnorePath START_PATH st.1 p) eqn:Hign; [done|].
    destruct (bool_decide _); [done|].
    assert (Hnot : shouldIgnorePath START_PATH s0 p = false)
      by (by eapply shouldIgnorePath_mono).
    set (e := entryFromStats START_PATH w (rel p) (MkStats true 0 mt)).
    set (s1 := (updateGitMetadataForDirectory START_PATH w p (rel p)
                  (with_db (statements.upsertEntry e) st.1)).2).
    destruct (upsert_then_git st.1 s1 e) as [He Hu].
    { apply git_only_updateGitMetadataForDirectory. }
    assert (He' : entries (db s1) = entries (db st.1)).
    { rewrite He. simpl. apply insert_id.
      apply (Hrows p (Dir mt l cs)). simpl. split; [done|by left]. }
    destruct l; [|simpl; by rewrite Hu].
    destruct (IH p (s1, {[rel p]} ∪ st.2)) as [H1 H2].
    { simpl. by rewrite Hu. }
    { intros q m Hq. simpl. rewrite He'. apply Hrows. simpl. split; [done|]. by right. }
    simpl in *. split; [by rewrite H1|]. by rewrite <- Hu.
  - done.
  - intros nm c IHc rest IHrest p st Hsub Hrows. cbn [walk_children].
    destruct (IHc (p ++ [nm]) st Hsub) as [H1 H2].
    { intros q m Hq. apply Hrows. by left. }
    destruct (IHrest p (walk START_PATH w (p ++ [nm]) c st)) as [H3 H4].
    { by etrans. }
    { intros q m Hq. rewrite H1. apply Hrows. by right. }
    cbv zeta in *. split; [etrans; [exact H3|exact H1]|by etrans].
Qed.

End SecondScan.

Section Idempotence.
Variable START_PATH : abspath.

(** C1: over the same, properly named tree, where no node has
    [mtimeMs] zero or the clock reads the same both times, a second scan
    leaves the entries table exactly as the first scan left it. *)
Theorem scan_twice_same_entries (w1 w2 : world) (s : server) :
  w_root w2 = w_root w1 →
  names_ok (stat w1 START_PATH) = true →
  clock_free (stat w1 START_PATH) = true ∨ w_now w1 = w_now w2 →
  entries (db (scanInitialTree START_PATH w2 (scanInitialTree START_PATH w1 s)))
  = entries (db (scanInitialTree START_PATH w1 s)).
Proof.
  intros Hroot Hok Hclock. unfold scanInitialTree.
  assert (Hstat : stat w2 START_PATH = stat w1 START_PATH) by (unfold stat; by rewrite Hroot).
  rewrite Hstat.
  destruct (first_walk START_PATH w1) as [Hfirst _].
  destruct (Hfirst (stat w1 START_PATH) [] (s, ∅) Hok eq_refl) as [_ Hvis].
  { intros k _. apply not_elem_of_empty. }
  rewrite app_nil_r in Hvis.
  set (st1 := walk START_PATH w1 START_PATH (stat w1 START_PATH) (s, ∅)) in *.
  destruct (second_walk START_PATH w2 st1.1) as [Hsecond _].
  destruct (Hsecond (stat w1 START_PATH) START_PATH (st1.1, ∅)) as [He _]; [done| |done].
  intros q m Hq. simpl. rewrite (Hvis q m Hq). f_equal.
  apply scanned_entry_clock. destruct Hclock as [Hc|Hc]; [left|by right].
  destruct (visits_clock_free START_PATH st1.1) as [Hv _]. by eapply Hv.
Qed.

End Idempotence.

(** *** Paths below a [.git] directory *)

Lemma prefix_append (m t : string) : String.prefix m (m +:+ t) = true.
Proof.
  induction m as [|c m IH]; [by destruct t|].
  change (String.prefix (String c m) (String c (m +:+ t)) = true).
  simpl. by destruct (ascii_dec c c).
Qed.



Lemma drop_chars_append (a y : string) : JsString.drop_chars (String.length a) (a +:+ y) = y.
Proof. induction a as [|c a IH]; [by destruct y|]. exact IH. Qed.

Lemma length_append (a b : string) :
  String.length (a +:+ b) = (String.length a + String.length b)%nat.
Proof.
  induction a as [|x a IH]; [done|].
  change (S (String.length (a +:+ b)) = S (String.length a + String.length b)).
  by rewrite IH.
Qed.






Section GitInternal.
Variable START_PATH : abspath.
Variable w : world.


End GitInternal.

(** *** A small world to run the server in *)

Lemma scan_twice_epoch_file_differs :
  w_root (epoch_world 2000) = w_root (epoch_world 1000)
  ∧ names_ok (stat (epoch_world 1000) demo_root) = true
  ∧ Entry.mtime <$> entries (db (scanInitialTree demo_root (epoch_world 1000) initial_server))
                      !! "epoch.txt" = Some 1000
  ∧ Entry.mtime <$> entries (db (scanInitialTree demo_root (epoch_world 2000)
                                   (scanInitialTree demo_root (epoch_world 1000)
                                      initial_server)))
                      !! "epoch.txt" = Some 2000.
Proof. repeat split; vm_compute; reflexivity. Qed.

Lemma scan_twice_same_entries_witness :
  w_root (demo_world 2000) = w_root (demo_world 1000)
  ∧ names_ok (stat (demo_world 1000) demo_root) = true
  ∧ clock_free (stat (demo_world 1000) demo_root) = true
  ∧ entries (db (scanInitialTree demo_root (demo_world 2000)
                   (scanInitialTree demo_root (demo_world 1000) initial_server)))
    = entries (db (scanInitialTree demo_root (demo_world 1000) initial_server)).
Proof.
  split; [reflexivity|]. split; [reflexivity|]. split; [reflexivity|].
  apply (scan_twice_same_entries demo_root (demo_world 1000) (demo_world 2000) initial_server);
    [reflexivity|reflexivity|left; reflexivity].
Defined.

Lemma remove_directory_cascades_witness :
  "src/b" ≠ "/" ∧ "src/b" ≠ ""
  ∧ branch_removed "src/b" (db demo_tagged)
      (db (deleteEntryBranch demo_root (demo_world 2000) "src/b" demo_tagged))
  ∧ branch_removed "src/b" (db demo_tagged)
      (db (removePath demo_root (demo_world 2000) "src/b" demo_tagged)).
Proof.
  split; [discriminate|]. split; [discriminate|].
  apply (remove_directory_cascades demo_root (demo_world 2000) "src/b" demo_tagged);
    discriminate.
Defined.

Example demo_cascade :
  Entry.path <$> statements.allEntries
                   (db (deleteEntryBranch demo_root (demo_world 2000) "src/b" demo_tagged))
  = ["/"; "src"; "src/a.txt"]
  ∧ tags (db (deleteEntryBranch demo_root (demo_world 2000) "src/b" demo_tagged))
    = [Tag.Build "src/a.txt" "lang" "txt"].
Proof. split; vm_compute; reflexivity. Qed.

Lemma parents_stay_indexed_witness :
  orderly_reachable demo_root demo_grown ∧ index_consistent (db demo_grown).
Proof.
  assert (orderly_reachable demo_root demo_grown) as Hr.
  { unfold demo_grown.
    apply orderly_step.
    - apply orderly_step.
      + apply orderly_step; [|exact I].
        apply orderly_step; [|intros pq [= <-]; vm_compute; eauto].
        apply orderly_step; [|intros pq [= <-]; vm_compute; eauto].
        apply orderly_step; [apply orderly_initial|reflexivity].
      + split; [discriminate|reflexivity].
    - intros pq [= <-]. vm_compute. eauto. }
  split; [exact Hr|]. exact (parents_stay_indexed demo_root demo_grown Hr).
Defined.

Example demo_grown_rows :
  (λ e, (Entry.path e, Entry.parent_path e)) <$> statements.allEntries (db demo_grown)
  = [("/", None); ("src", Some "/"); ("src/a.txt", Some "src"); ("src/b", Some "src");
     ("src/d", Some "src"); ("src/d/f.txt", Some "src/d")]
  ∧ tags (db demo_grown) = [Tag.Build "src/a.txt" "lang" "txt"].
Proof. split; vm_compute; reflexivity. Qed.

Lemma add_event_stores_orphan :
  let s := act demo_root
             (happen (later_world 2000) (fs 0%nat (add ["srv"; "a"; "b.txt"])))
             demo_running in
  Entry.parent_path <$> entries (db s) !! "a/b.txt" = Some (Some "a")
  ∧ entries (db s) !! "a" = None.
Proof. split; vm_compute; reflexivity. Qed.


Lemma dotted_name_under_root_is_stored :
  let s := scanInitialTree demo_root (dotted_world 1000) initial_server in
  let s' := on_fs_event demo_root (dotted_world 2000) 0 (add ["srv"; "..old"; "x.txt"])
              demo_running in
  names_ok (stat (dotted_world 1000) demo_root) = true
  ∧ normalizeRelative demo_root (demo_root ++ ["..cache"]) = "..cache"
  ∧ JsString.startsWith "..cache" ".." = true
  ∧ Entry.name <$> entries (db s) !! "..cache" = Some "..cache"
  ∧ Entry.parent_path <$> entries (db s) !! "..old/x.txt" = Some (Some "..old")
  ∧ Entry.name <$> entries (db s') !! "..old/x.txt" = Some "x.txt"
  ∧ is_outside_value "..cache" = false ∧ is_outside_value "..old/x.txt" = false.
Proof. repeat split; vm_compute; reflexivity. Qed.


Example nested_repository_refreshed :
  let s := on_fs_event demo_root (nested_world 2000) 0
             (change ["srv"; ".github"; ".git"; "HEAD"]) demo_nested in
  git_internal_of ".github" ".github/.git/HEAD"
  ∧ git_unowned "a/.github/b/.git/HEAD"
  ∧ GitRow.detected_at <$> git_metadata (db demo_nested) !! ".github" = Some 1000
  ∧ GitRow.detected_at <$> git_metadata (db s) !! ".github" = Some 2000
  ∧ Entry.type <$> entries (db s) !! ".github/.git/HEAD" = Some file.
Proof.
  split; [|split].
  - by apply (git_internal_nested ".github" "/HEAD"); [|..|right].
  - by apply (unowned_lookalike "a" "ub/b/.git/HEAD" "h").
  - repeat split; vm_compute; reflexivity.
Qed.

Lemma watcher_mode_switch_witness :
  reachable demo_root demo_running ∧ watcher_contract demo_root demo_running.
Proof.
  assert (reachable demo_root demo_running) as Hr
    by exact (reachable_boot demo_root (empty_world 1000)).
  split; [exact Hr|]. exact (watcher_mode_switch demo_root demo_running Hr).
Defined.

Example limit_error_when_running :
  let trace := [(empty_world 1001, error 0%nat emfile); (empty_world 1002, closed true)] in
  watcherMode (run demo_root trace demo_running) = polling
  ∧ watcher (run demo_root trace demo_running) = Some 1%nat
  ∧ mode_changes demo_root trace demo_running = 1%nat.
Proof. repeat split; vm_compute; reflexivity. Qed.

(** ** The primitives on sample inputs *)

Example normalizeRelative_ex1 :
  normalizeRelative ["srv"; "data"] ["srv"; "data"; "a"; "b.txt"] = "a/b.txt".
Proof. reflexivity. Qed.

Example normalizeRelative_ex2 :
  normalizeRelative ["srv"; "data"] ["srv"; "other"; "x"] = "../other/x".
Proof. reflexivity. Qed.

Example extname_ex : extname "a/run.SOCK" = ".SOCK" ∧ extname ".bashrc" = "" ∧ extname "x/.." = "".
Proof. repeat split; reflexivity. Qed.

Example repoPath_ex :
  repoPathFromGitInternal "a/.git/HEAD" = Some "a"
  ∧ repoPathFromGitInternal ".git/HEAD" = Some "/"
  ∧ repoPathFromGitInternal "a/.gitignore" = None
  ∧ repoPathFromGitInternal "a/.github/b/.git/HEAD" = None.
Proof. repeat split; reflexivity. Qed.

Example like_ex :
  Sql.like "a_b/%" "axB/c/d" = true ∧ Sql.like "src/%" "SRC/x" = true ∧ Sql.like "src/%" "src" = false.
Proof. repeat split; reflexivity. Qed.

(** * Further properties *)

(** ** Paths and the fields of an entry *)

Lemma normalize_segments_proper (acc r : list string) :
  forallb segment_ok r = true → normalize_segments acc r = (List.rev acc ++ r)%list.
Proof.
  revert acc. induction r as [|x r IH]; intros acc Hr; simpl.
  - by rewrite app_nil_r.
  - simpl in Hr. apply andb_prop in Hr as [Hx Hr].
    apply segment_ok_inv in Hx as (H1 & H2 & H3 & _).
    apply String.eqb_neq in H1, H2, H3. rewrite H1, H2, H3. simpl.
    rewrite IH by done. simpl. by rewrite <- app_assoc.
Qed.

Section PathFacts.

Variable START_PATH : abspath.

(** X1: for a path made of proper segments under the root,
    [absoluteFromRelative] undoes [normalizeRelative], and two such paths
    with the same relative form are the same path. *)
Theorem absolute_relative_round_trip (r : list string) :
  forallb segment_ok r = true →
  absoluteFromRelative START_PATH (normalizeRelative START_PATH (START_PATH ++ r))
  = (START_PATH ++ r)%list
  ∧ ∀ r', forallb segment_ok r' = true →
          normalizeRelative START_PATH (START_PATH ++ r)
          = normalizeRelative START_PATH (START_PATH ++ r') → r = r'.
Proof.
  intros Hr. split; [|intros r' Hr' Heq; by apply (normalizeRelative_inj START_PATH)].
  destruct (decide (r = [])) as [->|Hne].
  - rewrite app_nil_r, normalizeRelative_root. unfold absoluteFromRelative. done.
  - rewrite normalizeRelative_below by done.
    destruct (join_truthy r Hr Hne) as (c & tl & Hj & Hc).
    unfold absoluteFromRelative.
    assert (String.eqb (JsString.join "/" r) "/" = false) as ->.
    { apply String.eqb_neq. rewrite Hj. intros [= ? ?]. done. }
    assert (JsString.truthy (JsString.join "/" r) = true) as -> by by rewrite Hj.
    simpl. rewrite split_join by done.
    rewrite normalize_segments_proper by done. by rewrite rev_involutive.
Qed.


Lemma filter_truthy_proper (r : list string) :
  forallb segment_ok r = true → List.filter JsString.truthy r = r.
Proof.
  induction r as [|x r IH]; [done|]. simpl. intros H.
  apply andb_prop in H as [Hx Hr]. apply segment_ok_inv in Hx as (H1 & _).
  destruct x; [done|]. simpl. by rewrite IH.
Qed.

(** X2: the entry built for a path directly under the directory [r] is
    named by its last segment, names the relative path of [r] as its
    parent, lies one level deeper than [r], and is a directory without
    size and extension or a file with the size [stat] gives. *)
Theorem entry_fields_follow_path (w : world) (r : list string) (x : string) (st : Stats) :
  forallb segment_ok r = true → segment_ok x = true →
  let rel := normalizeRelative START_PATH (START_PATH ++ r ++ [x]) in
  let e := entryFromStats START_PATH w rel st in
  Entry.path e = rel
  ∧ Entry.name e = x
  ∧ Entry.parent_path e = Some (normalizeRelative START_PATH (START_PATH ++ r))
  ∧ Entry.depth e = Z.of_nat (length r) + 1
  ∧ (if isDirectory st
     then Entry.type e = directory ∧ Entry.size e = None ∧ Entry.extension e = ""
     else Entry.type e = file ∧ Entry.size e = Some (size st)).
Proof.
  intros Hr Hx rel e.
  assert (Hrx : forallb segment_ok (r ++ [x]) = true).
  { rewrite forallb_app, Hr. simpl. by rewrite Hx. }
  assert (Hne : (r ++ [x])%list ≠ []) by (by destruct r).
  assert (Hrel : rel = JsString.join "/" (r ++ [x])).
  { unfold rel. by rewrite normalizeRelative_below. }
  destruct (join_truthy _ Hrx Hne) as (c & tl & Hj & Hc).
  assert (Hroot : String.eqb rel "/" = false).
  { apply String.eqb_neq. rewrite Hrel, Hj. intros [= ? ?]. done. }
  assert (Htr : JsString.truthy rel = true) by (by rewrite Hrel, Hj).
  split; [done|]. split.
  { unfold e, entryFromStats. cbn [Entry.name]. rewrite Hroot.
    unfold basename. rewrite Hrel, split_join, filter_truthy_proper by done.
    by rewrite last_last. }
  split.
  { unfold e, entryFromStats. cbn [Entry.parent_path]. unfold rel.
    by apply parentOf_child. }
  split.
  { unfold e, entryFromStats. cbn [Entry.depth]. unfold depthOf.
    rewrite Hroot, Htr. simpl. rewrite Hrel, split_join by done.
    rewrite length_app. simpl. lia. }
  unfold e, entryFromStats. by destruct (isDirectory st).
Qed.

End PathFacts.

Lemma lastIndexOf_from_tail (c : ascii) (q : string) (i acc : Z) :
  acc < i →
  let j := JsString.lastIndexOf_from c q i acc in
  (j = acc ∧ has_char c q = false)
  ∨ (i ≤ j ∧ ∃ tail, JsString.drop_chars (Z.to_nat (j - i)) q = String c tail
                     ∧ has_char c tail = false).
Proof.
  revert i acc. induction q as [|a q IH]; intros i acc Hacc; simpl; [by left|].
  destruct (Ascii.eqb_spec a c) as [->|Hne]; simpl.
  - destruct (IH (i + 1) i ltac:(lia)) as [[Hj Hno]|(Hle & tail & Hd & Hno)].
    + right. rewrite Hj. split; [lia|]. exists q. by rewrite Z.sub_diag.
    + right. split; [lia|]. exists tail. split; [|done].
      replace (Z.to_nat (JsString.lastIndexOf_from c q (i + 1) i - i))
        with (S (Z.to_nat (JsString.lastIndexOf_from c q (i + 1) i - (i + 1)))) by lia.
      done.
  - destruct (IH (i + 1) acc ltac:(lia)) as [[Hj Hno]|(Hle & tail & Hd & Hno)].
    + by left.
    + right. split; [lia|]. exists tail. split; [|done].
      replace (Z.to_nat (JsString.lastIndexOf_from c q (i + 1) acc - i))
        with (S (Z.to_nat (JsString.lastIndexOf_from c q (i + 1) acc - (i + 1)))) by lia.
      done.
Qed.

Lemma lower_char_dot (c : ascii) :
  Ascii.eqb (JsString.lower_char c) "." = Ascii.eqb c ".".
Proof. destruct c as [[] [] [] [] [] [] [] []]; reflexivity. Qed.

Lemma lower_char_idem (c : ascii) :
  JsString.lower_char (JsString.lower_char c) = JsString.lower_char c.
Proof. destruct c as [[] [] [] [] [] [] [] []]; reflexivity. Qed.

Lemma toLowerCase_idem (t : string) :
  JsString.toLowerCase (JsString.toLowerCase t) = JsString.toLowerCase t.
Proof.
  unfold JsString.toLowerCase.
  induction t as [|c t IH]; [done|]. simpl. by rewrite lower_char_idem, IH.
Qed.

Lemma has_dot_toLowerCase (t : string) :
  has_char "." (JsString.toLowerCase t) = has_char "." t.
Proof.
  unfold JsString.toLowerCase.
  induction t as [|c t IH]; [done|]. simpl. by rewrite lower_char_dot, IH.
Qed.

Lemma extname_shape (p : string) :
  extname p = "" ∨ ∃ tail, extname p = String "." tail ∧ has_char "." tail = false.
Proof.
  unfold extname.
  destruct ((JsString.lastIndexOf "." (basename p) <=? 0) || String.eqb (basename p) "..")
    eqn:E; [by left|].
  apply orb_false_elim in E as [E _]. apply Z.leb_gt in E.
  unfold JsString.lastIndexOf in *.
  destruct (lastIndexOf_from_tail "." (basename p) 0 (-1) ltac:(lia))
    as [[Hj _]|(_ & tail & Hd & Hno)]; [lia|].
  right. exists tail. unfold JsString.slice_from.
  by rewrite Z.sub_0_r in Hd.
Qed.

(** X3: the extension of an entry holds no dot and [toLowerCase] leaves
    it as it is; when it is not empty the entry is a file and the
    extension is the lower-cased [path.extname] of its path without the
    leading dot. *)
Theorem extension_is_normal (START_PATH : abspath) (w : world) (relativePath : string)
    (st : Stats) :
  let ext := Entry.extension (entryFromStats START_PATH w relativePath st) in
  has_char "." ext = false ∧ JsString.toLowerCase ext = ext
  ∧ (ext ≠ "" →
     isDirectory st = false
     ∧ JsString.toLowerCase (extname relativePath) = String "." ext).
Proof.
  unfold entryFromStats. cbn [Entry.extension].
  destruct (isDirectory st); [done|].
  destruct (extname_shape relativePath) as [->|(tail & -> & Hno)]; [done|].
  rewrite has_dot_toLowerCase, toLowerCase_idem. done.
Qed.

(** ** Every step is a chain of primitive updates

    A relation between states that is reflexive and transitive and holds
    across each primitive update holds across every function of the
    server. *)

Section GitClosure.

Variable START_PATH : abspath.
Variable R : server → server → Prop.

Hypothesis R_refl : ∀ s, R s s.
Hypothesis R_trans : ∀ a b c, R a b → R b c → R a c.
Hypothesis R_log : ∀ l s, l ≠ warn_git_unavailable → R s (log l s).
Hypothesis R_runGit : ∀ A (r : gitres A) s, R s (runGitCommand r s).2.
Hypothesis R_deleteGit : ∀ p s, R s (with_db (statements.deleteGitMetadata p) s).
Hypothesis R_upsertGit :
  ∀ p row s d, statements.upsertGitMetadata p row (db s) = Done d → R s (with_db (λ _, d) s).


Lemma across_ret {A} (a : A) : across R (ret a).
Proof. intros s. apply R_refl. Qed.

Lemma across_throw {A} (e : thrown) : across R (@throw A e).
Proof. intros s. apply R_refl. Qed.

Lemma across_bind {A B} (m : M A) (k : A → M B) :
  across R m → (∀ a, across R (k a)) → across R (bind m k).
Proof.
  intros Hm Hk s. unfold bind. specialize (Hm s).
  destruct (m s) as [[a|e] s1]; simpl in *; [|done].
  eapply R_trans; [done|apply Hk].
Qed.

Lemma across_try_catch {A} (m : M A) (h : thrown → M A) :
  across R m → (∀ e, across R (h e)) → across R (try_catch m h).
Proof.
  intros Hm Hh s. unfold try_catch. specialize (Hm s).
  destruct (m s) as [[a|e] s1]; simpl in *; [done|].
  eapply R_trans; [done|apply Hh].
Qed.

Lemma across_runGitCommand {A} (r : gitres A) : across R (runGitCommand r).
Proof. intros s. apply R_runGit. Qed.

Lemma across_deleteGitMetadata_run (p : string) : across R (deleteGitMetadata_run p).
Proof. intros s. apply R_deleteGit. Qed.

Lemma across_upsertGitMetadata_run (p : string) (row : GitRow.t) :
  across R (upsertGitMetadata_run p row).
Proof.
  intros s. unfold upsertGitMetadata_run.
  destruct (statements.upsertGitMetadata p row (db s)) as [d|] eqn:E; simpl;
    [by eapply R_upsertGit|apply R_refl].
Qed.

Lemma across_or_null {A} (m : M (option A)) : across R m → across R (or_null m).
Proof.
  intros Hm. unfold or_null. apply across_try_catch; [done|].
  intros []; first [apply across_throw | apply across_ret].
Qed.

Ltac across_step :=
  first
    [ apply across_bind; [|intros ?]
    | apply across_try_catch; [|intros ?]
    | apply across_ret
    | apply across_throw
    | apply across_runGitCommand
    | apply across_deleteGitMetadata_run
    | apply across_upsertGitMetadata_run ].

Variable w : world.

Lemma across_collectGitMetadata (absolutePath : abspath) (relativePath : string) :
  across R (collectGitMetadata w absolutePath relativePath).
Proof.
  unfold collectGitMetadata.
  apply across_bind.
  { apply across_try_catch; [repeat across_step|].
    intros [|[]| |];
      first [apply across_throw | apply across_ret
            | apply across_or_null; repeat across_step]. }
  intros cb. apply across_bind; [apply across_or_null; across_step|].
  intros cc. apply across_bind; [apply across_or_null; repeat across_step|].
  intros bc. apply across_bind.
  { apply across_try_catch; [across_step|]. intros []; across_step. }
  intros rs. repeat across_step.
Qed.

Lemma across_gatherGitMetadata (absolutePath : abspath) (relativePath : string) :
  across R (gatherGitMetadata START_PATH w absolutePath relativePath).
Proof.
  unfold gatherGitMetadata.
  destruct (negb (JsString.truthy relativePath)); [across_step|].
  destruct (_ && _); [across_step|].
  assert (Hdel : across R (deleteGitMetadata_run relativePath;; ret (@None GitRow.t)))
    by repeat across_step.
  destruct (stat w absolutePath) as [code|sz mt|mt l cs].
  - destruct (String.eqb code "ENOENT"); [done|across_step].
  - done.
  - assert (Hgit : across R (λ s,
        match runGitCommand (git_show_toplevel w absolutePath) s with
        | (Threw GIT_UNAVAILABLE, s1) => (Threw GIT_UNAVAILABLE, s1)
        | (Threw (CommandFailed true), s1) =>
            (deleteGitMetadata_run relativePath ;; ret None) s1
        | (Threw _, s1) =>
            (Returned None, log (warn_git_root_failed absolutePath) s1)
        | (Returned repoRootAbsolute, s1) =>
            let repoRelative := normalizeRelative START_PATH repoRootAbsolute in
            if JsString.startsWith repoRelative ".."
            then (deleteGitMetadata_run relativePath ;; ret None) s1
            else if negb (String.eqb repoRelative relativePath)
            then (deleteGitMetadata_run relativePath ;; ret None) s1
            else collectGitMetadata w absolutePath relativePath s1
        end)).
    { intros s. pose proof (R_runGit _ (git_show_toplevel w absolutePath) s) as H1.
      destruct (runGitCommand _ s) as [[root|e] s1]; simpl in *.
      - eapply R_trans; [done|].
        destruct (JsString.startsWith _ _); [apply Hdel|].
        destruct (negb _); [apply Hdel|]. apply across_collectGitMetadata.
      - destruct e as [|[]| |]; simpl; try done.
        + eapply R_trans; [done|apply Hdel].
        + eapply R_trans; [done|by apply R_log].
        + eapply R_trans; [done|by apply R_log].
        + eapply R_trans; [done|by apply R_log]. }
    destruct (stat w (absolutePath ++ [".git"])%list) as [code|sz' mt'|mt' l' cs']; try done.
    destruct (_ || _); [done|]. destruct (is_unsupported_code code); across_step.
Qed.

End GitClosure.

Section Closure.

Variable START_PATH : abspath.
Variable R : server → server → Prop.

Hypothesis R_refl : ∀ s, R s s.
Hypothesis R_trans : ∀ a b c, R a b → R b c → R a c.
Hypothesis R_log : ∀ l s, l ≠ warn_git_unavailable → R s (log l s).
Hypothesis R_gather :
  ∀ w absolutePath relativePath s,
    R s (gatherGitMetadata START_PATH w absolutePath relativePath s).2.
Hypothesis R_deleteGit : ∀ p s, R s (with_db (statements.deleteGitMetadata p) s).
Hypothesis R_upsertEntry :
  ∀ w p st s,
    shouldIgnorePath START_PATH s p = false →
    R s (with_db (statements.upsertEntry
                    (entryFromStats START_PATH w (normalizeRelative START_PATH p) st)) s).
Hypothesis R_mark : ∀ p s, R s (markPathUnsupported START_PATH p s).
Hypothesis R_delete_branch : ∀ p s, R s (with_db (delete_branch p) s).
Hypothesis R_refreshCaches : ∀ s, R s (refreshCaches s).
Hypothesis R_broadcast : ∀ m s, R s (broadcast m s).
Hypothesis R_diag : ∀ s, R s (with_diagnostics_logged s).
Hypothesis R_watcher : ∀ wt m pr c s, R s (with_watcher wt m pr c s).
Hypothesis R_addTag :
  ∀ p k v s d, statements.addTag p k v (db s) = Done d → R s (with_db (λ _, d) s).
Hypothesis R_deleteTag : ∀ p k v s, R s (with_db (statements.deleteTag p k v) s).

Section InWorld.

Variable w : world.

Lemma across_updateGitMetadataForDirectory (absolutePath : abspath) (relativePath : string)
    (s : server) :
  R s (updateGitMetadataForDirectory START_PATH w absolutePath relativePath s).2.
Proof.
  unfold updateGitMetadataForDirectory.
  destruct (negb (JsString.truthy _)); [apply R_refl|].
  destruct (_ && _); [apply R_refl|].
  match goal with |- context [gatherGitMetadata ?a ?b ?c ?d ?e] =>
    pose proof (R_gather b c d e) as H end.
  destruct (gatherGitMetadata _ _ _ _ _) as [[r|[]] s']; simpl in *; try done;
    (eapply R_trans; [done|by apply R_log]).
Qed.

Lemma across_refreshGitMetadataForPath (relativePath : string) (s : server) :
  R s (refreshGitMetadataForPath START_PATH w relativePath s).
Proof.
  unfold refreshGitMetadataForPath.
  destruct (repoPathFromGitInternal relativePath); [|apply R_refl].
  apply across_updateGitMetadataForDirectory.
Qed.

Lemma across_walk :
  (∀ n p st, R st.1 (walk START_PATH w p n st).1)
  ∧ (∀ cs p st, R st.1 (walk_children START_PATH w p cs st).1).
Proof.
  apply fsnode_mutual_ind.
  - intros code p st. simpl. destruct (shouldIgnorePath _ _ _); [apply R_refl|].
    destruct (is_unsupported_code code); [apply R_mark|apply R_refl].
  - intros sz mt p st. simpl. destruct (shouldIgnorePath _ _ _) eqn:Hign; [apply R_refl|].
    destruct (bool_decide _); [apply R_refl|]. simpl.
    eapply R_trans; [by apply (R_upsertEntry w p (MkStats false sz mt))|].
    apply across_refreshGitMetadataForPath.
  - intros mt l cs IH p st. simpl. destruct (shouldIgnorePath _ _ _) eqn:Hign; [apply R_refl|].
    destruct (bool_decide _); [apply R_refl|].
    assert (R st.1 (updateGitMetadataForDirectory START_PATH w p (normalizeRelative START_PATH p)
                      (with_db (statements.upsertEntry
                                  (entryFromStats START_PATH w (normalizeRelative START_PATH p)
                                     (MkStats true 0 mt))) st.1)).2) as Hhere.
    { eapply R_trans; [by apply (R_upsertEntry w p (MkStats true 0 mt))|].
      apply across_updateGitMetadataForDirectory. }
    destruct l; [|done].
    eapply R_trans; [exact Hhere|]. apply (IH p (_, _)).
  - intros p st. apply R_refl.
  - intros nm c IHc rest IHrest p st. simpl.
    eapply R_trans; [apply IHc|apply IHrest].
Qed.

Lemma across_scanInitialTree (s : server) : R s (scanInitialTree START_PATH w s).
Proof. unfold scanInitialTree. apply (proj1 across_walk _ _ (s, ∅)). Qed.

Lemma across_indexPath (p : abspath) (s : server) : R s (indexPath START_PATH w p s).2.
Proof.
  unfold indexPath. destruct (shouldIgnorePath _ _ _) eqn:Hign; [apply R_refl|].
  destruct (stat w p) as [code|sz mt|mt l cs]; simpl.
  - destruct (is_unsupported_code code); [apply R_mark|apply R_refl].
  - eapply R_trans; [by apply (R_upsertEntry w p (MkStats false sz mt))|].
    eapply R_trans; [apply R_deleteGit|]. apply across_refreshGitMetadataForPath.
  - eapply R_trans; [by apply (R_upsertEntry w p (MkStats true 0 mt))|].
    apply across_updateGitMetadataForDirectory.
Qed.

Lemma across_removePath (p : string) (s : server) : R s (removePath START_PATH w p s).
Proof.
  unfold removePath. eapply R_trans; [apply (R_delete_branch p)|].
  apply across_refreshGitMetadataForPath.
Qed.

Lemma across_deleteEntryBranch (p : string) (s : server) :
  R s (deleteEntryBranch START_PATH w p s).
Proof.
  unfold deleteEntryBranch. destruct (_ || _); [apply R_refl|].
  eapply R_trans; [apply (R_delete_branch p)|].
  apply across_refreshGitMetadataForPath.
Qed.

Lemma across_on_fs_event (i : nat) (ev : fs_event) (s : server) :
  R s (on_fs_event START_PATH w i ev s).
Proof.
  unfold on_fs_event. destruct (negb _); [apply R_refl|].
  assert (Hidx : ∀ p m,
    R s (match indexPath START_PATH w p s with
         | (false, s') => s'
         | (true, s') => broadcast m (refreshCaches s')
         end)).
  { intros p m. pose proof (across_indexPath p s) as H.
    destruct (indexPath START_PATH w p s) as [[] s']; simpl in *; [|done].
    eapply R_trans; [done|]. eapply R_trans; [apply R_refreshCaches|apply R_broadcast]. }
  destruct ev as [p|p|p|p|p]; try apply Hidx.
  - destruct (shouldIgnorePath _ _ _); [apply R_refl|].
    eapply R_trans; [apply across_removePath|].
    eapply R_trans; [apply R_refreshCaches|apply R_broadcast].
  - destruct (shouldIgnorePath _ _ _); [apply R_refl|].
    eapply R_trans; [apply across_deleteEntryBranch|].
    eapply R_trans; [apply R_refreshCaches|apply R_broadcast].
Qed.

Lemma across_install_watcher (mode : watch_mode) (s : server) :
  R s (install_watcher mode s).
Proof.
  unfold install_watcher. destruct mode; [apply R_watcher|].
  eapply R_trans; [apply R_watcher|by apply (R_log warn_polling_mode)].
Qed.

Lemma across_switchWatcherMode (mode : watch_mode) (s : server) :
  R s (switchWatcherMode mode s).
Proof.
  unfold switchWatcherMode.
  destruct (_ && _); [apply R_refl|]. destruct (bool_decide _); [apply R_refl|].
  destruct (watcher s); [apply R_watcher|apply across_install_watcher].
Qed.

Lemma across_handleWatcherError (err : watcher_error) (i : nat) (s : server) :
  R s (handleWatcherError START_PATH err i s).
Proof.
  unfold handleWatcherError. destruct (negb _); [apply R_refl|].
  set (s1 := if watcherErrorDiagnosticsLogged s then s else _).
  assert (R s s1) as H1.
  { unfold s1. destruct (watcherErrorDiagnosticsLogged s); [apply R_refl|].
    eapply R_trans; [by apply (R_log warn_watcher_error_diagnostics)|apply R_diag]. }
  eapply R_trans; [exact H1|].
  destruct (has_unsupported_code err).
  - destruct (err_path err).
    + eapply R_trans; [apply R_mark|by apply R_log].
    + by apply R_log.
  - destruct (isWatcherLimitError err); [|by apply R_log].
    destruct (watcherMode s1); [|by apply R_log].
    eapply R_trans; [by apply (R_log warn_limit_switching)|apply across_switchWatcherMode].
Qed.

Lemma across_step (e : event) (s : server) : R s (step START_PATH w e s).
Proof.
  destruct e as [i ev|i err|f]; simpl.
  - apply across_on_fs_event.
  - apply across_handleWatcherError.
  - unfold close_settled. destruct (watcherSwitchPromise s) as [[m]|]; [|apply R_refl].
    destruct f; [apply across_install_watcher|].
    eapply R_trans; [by apply (R_log warn_close_failed)|apply across_install_watcher].
Qed.

Lemma across_bootstrap (s : server) : R s (bootstrap START_PATH w s).
Proof.
  unfold bootstrap. eapply R_trans; [apply across_scanInitialTree|].
  eapply R_trans; [apply R_refreshCaches|apply across_switchWatcherMode].
Qed.

End InWorld.

Lemma across_post_api_tags (relativePath key value : option string) (s : server) :
  R s (post_api_tags relativePath key value s).2.
Proof.
  unfold post_api_tags.
  destruct relativePath as [p|], key as [k|], value as [v|]; simpl; try apply R_refl.
  destruct (_ || _); [apply R_refl|].
  destruct (statements.singleEntry p (db s)); [|apply R_refl].
  destruct (statements.addTag p k v (db s)) as [d|] eqn:E; simpl; [|apply R_refl].
  eapply R_trans; [by eapply R_addTag|].
  eapply R_trans; [apply R_refreshCaches|apply R_broadcast].
Qed.

Lemma across_delete_api_tags (relativePath key value : option string) (s : server) :
  R s (delete_api_tags relativePath key value s).2.
Proof.
  unfold delete_api_tags.
  destruct relativePath as [p|], key as [k|], value as [v|]; simpl; try apply R_refl.
  destruct (_ || _); [apply R_refl|]. simpl.
  eapply R_trans; [apply R_deleteTag|].
  eapply R_trans; [apply R_refreshCaches|apply R_broadcast].
Qed.

Lemma across_act (a : action) (s : server) : R s (act START_PATH a s).
Proof.
  destruct a as [w|w e|p k v|p k v]; simpl.
  - apply across_bootstrap.
  - apply across_step.
  - apply across_post_api_tags.
  - apply across_delete_api_tags.
Qed.

End Closure.

Lemma NoDup_List_filter {A} (f : A → bool) (l : list A) :
  NoDup l → NoDup (List.filter f l).
Proof.
  induction 1 as [|x l Hx Hl IH]; simpl; [constructor|].
  destruct (f x); [|done]. constructor; [|done].
  rewrite elem_of_List_filter. tauto.
Qed.

Lemma store_sound_same_entries (d d' : database) :
  (∀ k, is_Some (entries d !! k) → is_Some (entries d' !! k)) →
  tags d' = tags d → git_metadata d' = git_metadata d →
  store_sound d → store_sound d'.
Proof.
  intros He Ht Hg [H1 H2 H3]. split.
  - intros t. rewrite Ht. intros Hin. by apply He, H1.
  - by rewrite Ht.
  - intros k row. rewrite Hg. intros Hk. by eapply He, H3.
Qed.

Lemma store_sound_fewer_tags (f : Tag.t → bool) (d : database) :
  store_sound d →
  store_sound {| entries := entries d; tags := List.filter f (tags d);
                 git_metadata := git_metadata d |}.
Proof.
  intros [H1 H2 H3]. split; simpl.
  - intros t Ht. apply elem_of_List_filter in Ht as [Ht _]. by apply H1.
  - by apply NoDup_List_filter.
  - done.
Qed.

Lemma store_sound_delete_entries (sel : string → bool) (d : database) :
  store_sound d → store_sound (statements.delete_entries sel d).
Proof.
  intros [H1 H2 H3]. split.
  - intros t Ht. apply elem_of_tags_delete_entries in Ht as [Ht Hkeep].
    rewrite lookup_delete_entries.
    destruct (sel (Tag.entry_path t)) eqn:Hs; [|by apply H1].
    destruct Hkeep. split; [done|by apply H1].
  - unfold statements.delete_entries. simpl.
    by apply NoDup_List_filter.
  - intros k row Hk. unfold statements.delete_entries in Hk. simpl in Hk.
    apply map_lookup_filter_Some in Hk as [Hk Hgone]. simpl in Hgone.
    rewrite lookup_delete_entries.
    destruct (sel k) eqn:Hs; [|by eapply H3].
    simpl in Hgone. apply bool_decide_eq_false in Hgone. destruct Hgone. by eapply H3.
Qed.

Lemma store_sound_delete_branch (p : string) (d : database) :
  store_sound d → store_sound (delete_branch p d).
Proof.
  intros H. unfold delete_branch, statements.removeEntriesUnder, statements.removeEntry.
  do 2 apply store_sound_delete_entries.
  unfold statements.deleteTagsUnder, statements.deleteTagsForEntry. simpl.
  apply (store_sound_fewer_tags _
           {| entries := entries d; tags := List.filter _ (tags d);
              git_metadata := git_metadata d |}).
  by apply store_sound_fewer_tags.
Qed.


Lemma keeps_refl (P : server → Prop) (s : server) : keeps P s s.
Proof. by intros H. Qed.

Lemma keeps_trans (P : server → Prop) (a b c : server) :
  keeps P a b → keeps P b c → keeps P a c.
Proof. unfold keeps. auto. Qed.

Lemma keeps_same_db (P : database → Prop) (s s' : server) :
  db s' = db s → keeps (λ s, P (db s)) s s'.
Proof. intros E H. by rewrite E. Qed.

Lemma store_sound_upsertEntry (e : Entry.t) (d : database) :
  store_sound d → store_sound (statements.upsertEntry e d).
Proof.
  apply store_sound_same_entries; [|done..].
  intros k. apply upsert_keeps_rows.
Qed.

Lemma store_sound_deleteGitMetadata (p : string) (d : database) :
  store_sound d → store_sound (statements.deleteGitMetadata p d).
Proof.
  intros [H1 H2 H3]. split; [done..|]. simpl. intros k row Hk.
  apply lookup_delete_Some in Hk as [_ Hk]. by eapply H3.
Qed.

Lemma store_sound_upsertGitMetadata (p : string) (row : GitRow.t) (d d' : database) :
  statements.upsertGitMetadata p row d = Done d' → store_sound d → store_sound d'.
Proof.
  unfold statements.upsertGitMetadata. case_bool_decide as Hp; [|done].
  intros [= <-] [H1 H2 H3]. split; [done..|]. simpl. intros k r Hk.
  destruct (decide (p = k)) as [<-|Hne]; [done|].
  rewrite lookup_insert_ne in Hk by done. by eapply H3.
Qed.

Lemma store_sound_addTag (p k v : string) (d d' : database) :
  statements.addTag p k v d = Done d' → store_sound d → store_sound d'.
Proof.
  unfold statements.addTag. case_bool_decide as Hin; [by intros [= <-]|].
  case_bool_decide as Hp; [|done].
  intros [= <-] [H1 H2 H3]. split; simpl; [| |done].
  - intros t Ht. apply elem_of_app in Ht as [Ht|Ht]; [by apply H1|].
    apply list_elem_of_singleton in Ht as ->. done.
  - apply NoDup_app. split; [done|]. split; [|apply NoDup_singleton].
    intros t Ht Ht'. apply list_elem_of_singleton in Ht' as ->. done.
Qed.

Lemma store_sound_deleteTag (p k v : string) (d : database) :
  store_sound d → store_sound (statements.deleteTag p k v d).
Proof. apply store_sound_fewer_tags. Qed.

Lemma store_sound_empty : store_sound empty_database.
Proof. split; simpl; [intros t Ht; by apply elem_of_nil in Ht|constructor|done]. Qed.

Section StoreInvariant.

Variable START_PATH : abspath.

Lemma store_sound_gather (w : world) (absolutePath : abspath) (relativePath : string)
    (s : server) :
  keeps (λ s, store_sound (db s)) s
    (gatherGitMetadata START_PATH w absolutePath relativePath s).2.
Proof.
  apply (across_gatherGitMetadata START_PATH (keeps (λ s, store_sound (db s)))).
  - apply keeps_refl.
  - apply keeps_trans.
  - intros l s0 _. by apply (keeps_same_db store_sound).
  - intros A r s0. apply (keeps_same_db store_sound), keeps_db_runGitCommand.
  - intros p s0. unfold keeps. simpl. apply store_sound_deleteGitMetadata.
  - intros p row s0 d E. unfold keeps. simpl. by apply store_sound_upsertGitMetadata with p row.
Qed.

Lemma store_sound_act (a : action) (s : server) :
  store_sound (db s) → store_sound (db (act START_PATH a s)).
Proof.
  apply (across_act START_PATH (keeps (λ s, store_sound (db s)))).
  - apply keeps_refl.
  - apply keeps_trans.
  - intros l s0 _. by apply (keeps_same_db store_sound).
  - apply store_sound_gather.
  - intros p s0. unfold keeps. simpl. apply store_sound_deleteGitMetadata.
  - intros w p st s0 _. unfold keeps. simpl. apply store_sound_upsertEntry.
  - intros p s0. apply (keeps_same_db store_sound), markPathUnsupported_db.
  - intros p s0. unfold keeps. simpl. apply store_sound_delete_branch.
  - intros s0. by apply (keeps_same_db store_sound).
  - intros m s0. by apply (keeps_same_db store_sound).
  - intros s0. by apply (keeps_same_db store_sound).
  - intros wt m pr c s0. by apply (keeps_same_db store_sound).
  - intros p k v s0 d E. unfold keeps. simpl. by apply store_sound_addTag with p k v.
  - intros p k v s0. unfold keeps. simpl. apply store_sound_deleteTag.
Qed.

(** X4: whatever the actions, every tag and every git row of the store
    belongs to a stored entry, and no (path, key, value) triple is stored
    twice. *)
Theorem store_stays_sound (s : server) :
  run_reachable START_PATH s → store_sound (db s).
Proof.
  induction 1 as [|a s _ IH]; [apply store_sound_empty|by apply store_sound_act].
Qed.

End StoreInvariant.

(** *** Sockets *)

Section Sockets.

Variable START_PATH : abspath.

Lemma no_socket_entries_subset (d d' : database) :
  (∀ q e, entries d' !! q = Some e → entries d !! q = Some e) →
  no_socket_entries d → no_socket_entries d'.
Proof. intros Hsub H q e Hq. eapply H. by apply Hsub. Qed.

Lemma no_socket_act (a : action) (s : server) :
  no_socket_entries (db s) → no_socket_entries (db (act START_PATH a s)).
Proof.
  assert (Hgit : ∀ w absolutePath relativePath s,
    keeps (λ s, no_socket_entries (db s)) s
      (gatherGitMetadata START_PATH w absolutePath relativePath s).2).
  { intros w absolutePath relativePath s0 H.
    eapply no_socket_entries_subset; [|exact H].
    intros q e.
    by rewrite (same_entries _ _ (frames_gatherGitMetadata START_PATH w absolutePath
                                     relativePath s0)). }
  apply (across_act START_PATH (keeps (λ s, no_socket_entries (db s)))).
  - apply keeps_refl.
  - apply keeps_trans.
  - intros l s0 _. by apply (keeps_same_db no_socket_entries).
  - apply Hgit.
  - intros p s0 H. exact H.
  - intros w p st s0 Hign H q e. simpl.
    destruct (decide (normalizeRelative START_PATH p = q)) as [<-|Hne].
    + intros _ Hin. unfold shouldIgnorePath in Hign.
      repeat case_bool_decide; try done. rewrite Hin in Hign.
      by apply String.eqb_neq in Hign.
    + rewrite lookup_insert_ne by done. apply H.
  - intros p s0. apply (keeps_same_db no_socket_entries), markPathUnsupported_db.
  - intros p s0. unfold keeps. simpl. apply no_socket_entries_subset.
    intros q e. rewrite lookup_delete_branch. by destruct (_ || _).
  - intros s0. by apply (keeps_same_db no_socket_entries).
  - intros m s0. by apply (keeps_same_db no_socket_entries).
  - intros s0. by apply (keeps_same_db no_socket_entries).
  - intros wt m pr c s0. by apply (keeps_same_db no_socket_entries).
  - intros p k v s0 d E. unfold keeps. simpl. apply no_socket_entries_subset.
    unfold statements.addTag in E. repeat case_bool_decide; by inversion E.
  - intros p k v s0 H. exact H.
Qed.

(** X5: whatever the actions, no entry whose path does not begin with
    [..] has the extension [.sock], in any letter case. *)
Theorem sockets_never_indexed (s : server) :
  run_reachable START_PATH s → no_socket_entries (db s).
Proof.
  induction 1 as [|a s _ IH]; [by intros q e Hq|by apply no_socket_act].
Qed.

End Sockets.

(** *** The ignore set *)

Section Ignoring.

Variable START_PATH : abspath.

Lemma unsupportedPaths_act (a : action) (s : server) :
  unsupportedPaths s ⊆ unsupportedPaths (act START_PATH a s).
Proof.
  assert (Hgit : ∀ w absolutePath relativePath s,
    unsupportedPaths s
    ⊆ unsupportedPaths (gatherGitMetadata START_PATH w absolutePath relativePath s).2).
  { intros w absolutePath relativePath s0.
    by rewrite (same_unsupported _ _ (frames_gatherGitMetadata START_PATH w absolutePath
                                        relativePath s0)). }
  apply (across_act START_PATH (λ s s', unsupportedPaths s ⊆ unsupportedPaths s'));
    try done.
  - intros x y z Hxy Hyz. by transitivity (unsupportedPaths y).
  - apply markPathUnsupported_grows.
Qed.

Lemma unsupportedPaths_perform (actions : list action) (s : server) :
  unsupportedPaths s ⊆ unsupportedPaths (perform START_PATH actions s).
Proof.
  revert s. induction actions as [|a actions IH]; intros s; simpl; [done|].
  transitivity (unsupportedPaths (act START_PATH a s));
    [apply unsupportedPaths_act|apply IH].
Qed.

(** X6: a path marked unsupported is ignored from then on, and a path
    that is ignored stays ignored, whatever actions follow. *)
Theorem unsupported_path_stays_ignored (absolutePath : abspath) (actions : list action)
    (s : server) :
  shouldIgnorePath START_PATH
    (perform START_PATH actions (markPathUnsupported START_PATH absolutePath s))
    absolutePath = true
  ∧ ∀ p, shouldIgnorePath START_PATH s p = true →
         shouldIgnorePath START_PATH (perform START_PATH actions s) p = true.
Proof.
  assert (Hmono : ∀ s p, shouldIgnorePath START_PATH s p = true →
                         shouldIgnorePath START_PATH (perform START_PATH actions s) p = true).
  { intros s0 p Hp.
    destruct (shouldIgnorePath START_PATH (perform START_PATH actions s0) p) eqn:E; [done|].
    apply (shouldIgnorePath_mono START_PATH s0) in E; [congruence|].
    apply unsupportedPaths_perform. }
  split; [|apply Hmono]. apply Hmono.
  unfold shouldIgnorePath, markPathUnsupported.
  rewrite bool_decide_eq_true_2; [done|].
  destruct (_ && _); simpl; set_solver.
Qed.

End Ignoring.

(** *** The warning about a missing git *)

Lemma warned_once_same (s s' : server) :
  console s' = console s → gitUnavailableLogged s' = gitUnavailableLogged s →
  keeps warned_once s s'.
Proof. unfold keeps, warned_once, git_warnings. intros -> ->. done. Qed.

Lemma git_warnings_log (l : log_line) (s : server) :
  git_warnings (log l s)
  = (git_warnings s + match l with warn_git_unavailable => 1 | _ => 0 end)%nat.
Proof.
  unfold git_warnings. simpl. rewrite List.filter_app, length_app. simpl.
  by destruct l.
Qed.

Lemma warned_once_log (l : log_line) (s : server) :
  l ≠ warn_git_unavailable → keeps warned_once s (log l s).
Proof.
  intros Hl [H1 H2]. unfold warned_once. rewrite git_warnings_log.
  simpl. destruct l; try done; rewrite Nat.add_0_r; done.
Qed.

Lemma warned_once_runGitCommand {A} (r : gitres A) (s : server) :
  keeps warned_once s (runGitCommand r s).2.
Proof.
  unfold runGitCommand.
  destruct (gitBinaryUnavailable s) eqn:Hu; [apply keeps_refl|].
  destruct r as [out| |nr]; simpl.
  - by apply warned_once_same.
  - destruct (gitUnavailableLogged s) eqn:Hl; simpl.
    + by apply warned_once_same.
    + intros [H1 H2]. specialize (H2 Hl).
      unfold warned_once, git_warnings in *. simpl in *.
      rewrite List.filter_app, length_app, H2. simpl. split; [lia|done].
  - rewrite andb_false_r. apply keeps_refl.
Qed.

Section Warning.

Variable START_PATH : abspath.

Lemma warned_once_act (a : action) (s : server) :
  warned_once s → warned_once (act START_PATH a s).
Proof.
  apply (across_act START_PATH (keeps warned_once)).
  - apply keeps_refl.
  - apply keeps_trans.
  - apply warned_once_log.
  - intros w absolutePath relativePath.
    apply (across_gatherGitMetadata START_PATH (keeps warned_once)).
    + apply keeps_refl.
    + apply keeps_trans.
    + apply warned_once_log.
    + intros A r s0. apply warned_once_runGitCommand.
    + intros p s0. by apply warned_once_same.
    + intros p row s0 d _. by apply warned_once_same.
  - intros p s0. by apply warned_once_same.
  - intros w p st s0 _. by apply warned_once_same.
  - intros p s0. apply warned_once_same; unfold markPathUnsupported;
      by destruct (_ && _).
  - intros p s0. by apply warned_once_same.
  - intros s0. by apply warned_once_same.
  - intros m s0. by apply warned_once_same.
  - intros s0. by apply warned_once_same.
  - intros wt m pr c s0. by apply warned_once_same.
  - intros p k v s0 d _. by apply warned_once_same.
  - intros p k v s0. by apply warned_once_same.
Qed.

(** X7: whatever the actions, the warning that git is missing is on the
    console at most once, and not at all while its flag is unset. *)
Theorem git_warning_is_logged_once (s : server) :
  run_reachable START_PATH s → warned_once s.
Proof.
  induction 1 as [|a s _ IH]; [|by apply warned_once_act].
  split; [cbv; lia|done].
Qed.

End Warning.

(** *** What a scan leaves behind *)

Section ScanResult.

Variable START_PATH : abspath.

(** X10: after a scan of a properly named tree, every node the walk
    gets to has its row, built from that node's stats; rows keyed outside
    the tree are as before, no row has gone, and the tags are
    untouched. *)
Theorem scan_stores_every_visited_node (w : world) (s : server) :
  names_ok (stat w START_PATH) = true →
  let s' := scanInitialTree START_PATH w s in
  (∀ q m, visits START_PATH s' START_PATH (stat w START_PATH) q m →
          entries (db s') !! normalizeRelative START_PATH q
          = Some (scanned_entry START_PATH w q m))
  ∧ (∀ k, ¬ key_below START_PATH [] k → entries (db s') !! k = entries (db s) !! k)
  ∧ (∀ k, is_Some (entries (db s) !! k) → is_Some (entries (db s') !! k))
  ∧ tags (db s') = tags (db s).
Proof.
  intros Hok s'. unfold s', scanInitialTree.
  destruct (first_walk START_PATH w) as [Hfirst _].
  destruct (Hfirst (stat w START_PATH) [] (s, ∅) Hok eq_refl) as [Hb Hvis].
  { intros k _. apply not_elem_of_empty. }
  rewrite app_nil_r in Hvis, Hb.
  split; [exact Hvis|]. split; [apply (rows_bound _ _ _ Hb)|].
  apply (across_scanInitialTree START_PATH
           (λ s s', (∀ k, is_Some (entries (db s) !! k) → is_Some (entries (db s') !! k))
                    ∧ tags (db s') = tags (db s))).
  - done.
  - intros a b c [H1 H2] [H3 H4]. split; [auto|congruence].
  - done.
  - intros w0 absolutePath relativePath s0.
    pose proof (frames_gatherGitMetadata START_PATH w0 absolutePath relativePath s0) as H.
    split; [|apply (same_tags _ _ H)]. intros k. by rewrite (same_entries _ _ H).
  - intros w0 p st s0 _. split; [|done]. intros k. apply upsert_keeps_rows.
  - intros p s0. by rewrite markPathUnsupported_db.
Qed.

(** X11: [indexPath] answers [true] and has written exactly the row of
    its path, built from what [stat] returned, leaving tags and the ignore
    set alone; or it answers [false] and has left the store alone, the
    path being ignored or without stats, and marked as ignored when the
    error code is an unsupported one. *)
Theorem indexPath_stores_or_leaves (w : world) (absolutePath : abspath) (s : server) :
  let relativePath := normalizeRelative START_PATH absolutePath in
  let r := indexPath START_PATH w absolutePath s in
  if r.1
  then shouldIgnorePath START_PATH s absolutePath = false
       ∧ entries (db r.2)
         = <[relativePath := entryFromStats START_PATH w relativePath
                               (stats_of (stat w absolutePath))]> (entries (db s))
       ∧ tags (db r.2) = tags (db s)
       ∧ unsupportedPaths r.2 = unsupportedPaths s
  else db r.2 = db s
       ∧ unsupportedPaths s ⊆ unsupportedPaths r.2
       ∧ (shouldIgnorePath START_PATH s absolutePath = true
          ∨ ∃ code, stat w absolutePath = Broken code
                    ∧ (is_unsupported_code code = true →
                       shouldIgnorePath START_PATH r.2 absolutePath = true)).
Proof.
  intros relativePath r. unfold r, indexPath.
  destruct (shouldIgnorePath START_PATH s absolutePath) eqn:Hign; simpl.
  { split; [done|]. split; [done|by left]. }
  destruct (stat w absolutePath) as [code|sz mt|mt l cs]; simpl.
  - split; [by destruct (is_unsupported_code code); [apply markPathUnsupported_db|]|].
    split; [destruct (is_unsupported_code code); [apply markPathUnsupported_grows|done]|].
    right. exists code. split; [done|]. intros ->.
    unfold shouldIgnorePath, markPathUnsupported.
    rewrite bool_decide_eq_true_2; [done|]. destruct (_ && _); simpl; set_solver.
  - split; [done|].
    match goal with |- context [refreshGitMetadataForPath ?a ?b ?c ?d] =>
      pose proof (git_only_refreshGitMetadataForPath a b c d) as H end.
    rewrite (same_entries _ _ H), (same_tags _ _ H), (same_unsupported _ _ H). done.
  - split; [done|].
    match goal with |- context [updateGitMetadataForDirectory ?a ?b ?c ?d ?e] =>
      pose proof (git_only_updateGitMetadataForDirectory a b c d e) as H end.
    rewrite (same_entries _ _ H), (same_tags _ _ H), (same_unsupported _ _ H). done.
Qed.

End ScanResult.

(** *** Removal without wildcards *)

Lemma like_literal_prefix (pat q : string) :
  wildcard_free pat = true → Sql.like (pat +:+ "%") q = prefix_nocase pat q.
Proof.
  revert q. induction pat as [|a pat IH]; intros q Hfree.
  - change ("" +:+ "%") with "%". by rewrite like_percent_any.
  - unfold wildcard_free in Hfree. simpl in Hfree.
    apply andb_prop in Hfree as [H1 H2].
    apply negb_true_iff, orb_false_elim in H1 as [Ha1 Hp1].
    apply negb_true_iff, orb_false_elim in H2 as [Ha2 Hp2].
    change (String a pat +:+ "%") with (String a (pat +:+ "%")).
    cbn [Sql.like prefix_nocase]. rewrite Ha1, Ha2.
    destruct q as [|b q]; [done|]. rewrite IH; [done|].
    unfold wildcard_free. by rewrite Hp1, Hp2.
Qed.

Lemma wildcard_free_slash (p : string) :
  wildcard_free p = true → wildcard_free (p +:+ "/") = true.
Proof.
  unfold wildcard_free. induction p as [|a p IH]; [done|].
  change (String a p +:+ "/") with (String a (p +:+ "/")). simpl.
  intros H. apply andb_prop in H as [H1 H2].
  apply negb_true_iff, orb_false_elim in H1 as [Ha1 Hp1].
  apply negb_true_iff, orb_false_elim in H2 as [Ha2 Hp2].
  rewrite Ha1, Ha2. simpl. apply IH. by rewrite Hp1, Hp2.
Qed.

Section ExactRemoval.

Variable START_PATH : abspath.
Variable w : world.

(** X12: for a path without [%] and [_], [removePath] deletes exactly
    the rows and tags at that path or under it (ASCII letters compared
    without case) and nothing else, and [deleteEntryBranch] leaves the same
    store. *)
Theorem removal_is_exact (p : string) (s : server) :
  wildcard_free p = true →
  let s' := removePath START_PATH w p s in
  (∀ q, entries (db s') !! q = (if at_or_under p q then None else entries (db s) !! q))
  ∧ (∀ t, t ∈ tags (db s') ↔ t ∈ tags (db s) ∧ at_or_under p (Tag.entry_path t) = false)
  ∧ (p ≠ "/" → p ≠ "" →
     db (deleteEntryBranch START_PATH w p s) = db s').
Proof.
  intros Hfree s'.
  assert (Hpat : ∀ q, Sql.like (p +:+ "/%") q = prefix_nocase (p +:+ "/") q).
  { intros q.
    assert (p +:+ "/%" = (p +:+ "/") +:+ "%") as ->
      by (symmetry; apply (append_assoc p "/" "%")).
    by apply like_literal_prefix, wildcard_free_slash. }
  destruct (removePath_db START_PATH w p s) as [He Ht].
  split; [|split].
  - intros q. unfold s'. rewrite He, lookup_delete_branch, Hpat.
    unfold at_or_under. by rewrite orb_comm.
  - intros t. unfold s'. rewrite Ht, elem_of_tags_delete_branch, Hpat.
    unfold at_or_under. split.
    + intros (H1 & H2 & H3). split; [done|].
      apply orb_false_intro; [by apply String.eqb_neq|done].
    + intros [H1 H2]. apply orb_false_elim in H2 as [H2 H3].
      by apply String.eqb_neq in H2.
  - intros Hroot Hempty. unfold s', deleteEntryBranch, removePath.
    assert (String.eqb p "/" = false) as -> by (by apply String.eqb_neq).
    destruct p; [done|]. done.
Qed.

End ExactRemoval.

(** *** The owner of a git-internal path *)

Lemma indexOf_found (m s : string) :
  0 ≤ JsString.indexOf m s →
  ∃ pre post, s = pre +:+ m +:+ post ∧ Z.of_nat (String.length pre) = JsString.indexOf m s.
Proof.
  induction s as [|a s IH]; cbn [JsString.indexOf].
  - destruct (String.prefix m "") eqn:Hp; [|lia]. intros _.
    apply prefix_split in Hp as [rest Hrest]. by exists "", rest.
  - destruct (String.prefix m (String a s)) eqn:Hp.
    + intros _. apply prefix_split in Hp as [rest Hrest]. by exists "", rest.
    + destruct (JsString.indexOf m s <? 0) eqn:Hneg; [lia|]. intros _.
      apply Z.ltb_ge in Hneg. destruct (IH Hneg) as (pre & post & -> & Hlen).
      exists (String a pre), post. split; [done|]. simpl String.length. lia.
Qed.

(** X13: when [repoPathFromGitInternal] names a repository, the path is
    [.git], or begins with [.git/], or reads [candidate/.git] followed by
    nothing or by [/...], and the repository is [candidate], the root when
    [candidate] is empty. *)
Theorem repoPathFromGitInternal_sound (relativePath repo : string) :
  repoPathFromGitInternal relativePath = Some repo →
  (repo = "/" ∧ (relativePath = ".git" ∨ JsString.startsWith relativePath ".git/" = true))
  ∨ ∃ candidate suffix,
      relativePath = candidate +:+ "/.git" +:+ suffix
      ∧ (suffix = "" ∨ JsString.startsWith suffix "/" = true)
      ∧ repo = (if JsString.truthy candidate then candidate else "/").
Proof.
  unfold repoPathFromGitInternal.
  destruct (negb (JsString.truthy relativePath)); [done|].
  destruct (String.eqb relativePath ".git" || JsString.startsWith relativePath ".git/") eqn:Hg.
  { intros [= <-]. left. split; [done|].
    apply orb_prop in Hg as [Hg|Hg]; [left; by apply String.eqb_eq|by right]. }
  destruct (JsString.indexOf "/.git" relativePath =? -1) eqn:Hidx; [done|].
  apply Z.eqb_neq in Hidx.
  assert (0 ≤ JsString.indexOf "/.git" relativePath) as Hpos.
  { clear -Hidx. revert Hidx. generalize relativePath. intros s.
    induction s as [|a s IH]; cbn [JsString.indexOf].
    - destruct (String.prefix _ _); lia.
    - destruct (String.prefix _ _); [lia|].
      destruct (JsString.indexOf "/.git" s <? 0) eqn:E; [lia|]. apply Z.ltb_ge in E. lia. }
  destruct (indexOf_found _ _ Hpos) as (pre & post & Hrel & Hlen).
  rewrite <- Hlen.
  assert (Hto : JsString.slice_to relativePath (Z.of_nat (String.length pre)) = pre).
  { unfold JsString.slice_to. rewrite Nat2Z.id, Hrel. apply substring_prefix. }
  assert (Hfrom : JsString.slice_from relativePath
                    (Z.of_nat (String.length pre) + Z.of_nat (String.length "/.git")) = post).
  { unfold JsString.slice_from.
    replace (Z.to_nat (Z.of_nat (String.length pre) + Z.of_nat (String.length "/.git")))
      with (String.length (pre +:+ "/.git")) by (rewrite length_append; lia).
    rewrite Hrel, <- append_assoc. apply drop_chars_append. }
  rewrite Hfrom, Hto.
  destruct post as [|c post].
  - intros [= <-]. right. exists pre, "". split; [done|]. split; [by left|done].
  - destruct (Ascii.eqb_spec c "/") as [->|Hne]; simpl; [|done].
    intros [= <-]. right. exists pre, (String "/" post). split; [done|].
    split; [right|done]. unfold JsString.startsWith. simpl.
    by destruct post.
Qed.

(** *** Adding and removing a tag *)

(** X14: DELETE /api/tags answers 400 and changes nothing when path,
    key or value is missing; otherwise it succeeds whether or not the
    entry or the tag exists, removes that triple and no other, leaves the
    entries alone, refreshes the caches and broadcasts the removal. *)
Theorem delete_api_tags_contract (relativePath key value : option string) (s : server) :
  let r := delete_api_tags relativePath key value s in
  if missing relativePath || missing key || missing value
  then r = (status 400 "path, key, and value are required", s)
  else ∃ p k v,
      relativePath = Some p ∧ key = Some k ∧ value = Some v
      ∧ r.1 = json true
      ∧ entries (db r.2) = entries (db s)
      ∧ git_metadata (db r.2) = git_metadata (db s)
      ∧ (∀ t, t ∈ tags (db r.2) ↔ t ∈ tags (db s) ∧ t ≠ Tag.Build p k v)
      ∧ (Tag.Build p k v ∉ tags (db s) → tags (db r.2) = tags (db s))
      ∧ caches_fresh r.2
      ∧ sent r.2 = (sent s ++ [tag_removed p k v])%list.
Proof.
  intros r. unfold r, delete_api_tags.
  destruct relativePath as [p|], key as [k|], value as [v|]; simpl;
    try (rewrite ?orb_true_r; done).
  destruct (JsString.truthy p); simpl; [|done].
  destruct (JsString.truthy k); simpl; [|done].
  destruct (JsString.truthy v); simpl; [|done].
  exists p, k, v. do 6 (split; [done|]).
  split.
  { intros t. rewrite elem_of_List_filter. rewrite negb_true_iff, bool_decide_eq_false. done. }
  split; [|done].
  intros Hnot. induction (tags (db s)) as [|t l IH]; [done|]. simpl.
  apply not_elem_of_cons in Hnot as [Hne Hnot].
  rewrite bool_decide_eq_false_2 by done. simpl. by rewrite IH.
Qed.

(** X15: adding a tag that an entry does not have and removing it again
    gives back the store as it was; in between the tag is in the tag
    cache, and the two changes are broadcast in this order. *)
Theorem tag_add_then_remove (p k v : string) (s : server) :
  is_Some (entries (db s) !! p) →
  JsString.truthy p = true → JsString.truthy k = true → JsString.truthy v = true →
  Tag.Build p k v ∉ tags (db s) →
  let added := (post_api_tags (Some p) (Some k) (Some v) s).2 in
  let removed := (delete_api_tags (Some p) (Some k) (Some v) added).2 in
  Tag.Build p k v ∈ tagCache added
  ∧ db removed = db s
  ∧ tagCache removed = tags (db s)
  ∧ sent removed = (sent s ++ [tag_added p k v; tag_removed p k v])%list.
Proof.
  intros [e He] Hp Hk Hv Hnot added removed.
  unfold removed, added, delete_api_tags, post_api_tags. rewrite Hp, Hk, Hv. simpl.
  unfold statements.singleEntry. rewrite He. unfold statements.addTag.
  rewrite bool_decide_eq_false_2 by done.
  rewrite bool_decide_eq_true_2 by (by rewrite He). simpl.
  assert (Hfilter : List.filter (λ t, negb (bool_decide (t = Tag.Build p k v)))
                      (tags (db s) ++ [Tag.Build p k v]) = tags (db s)).
  { rewrite List.filter_app. simpl. rewrite bool_decide_eq_true_2 by done. simpl.
    rewrite app_nil_r. clear -Hnot.
    induction (tags (db s)) as [|t l IH]; [done|]. simpl.
    apply not_elem_of_cons in Hnot as [Hne Hnot].
    rewrite bool_decide_eq_false_2 by done. simpl. by rewrite IH. }
  split; [unfold statements.allTags; simpl; set_solver|].
  split.
  { unfold statements.deleteTag. simpl. rewrite Hfilter. by destruct (db s). }
  split; [unfold statements.allTags; simpl; by rewrite Hfilter|].
  by rewrite <- app_assoc.
Qed.

(** *** Trimming *)

Lemma length_trimStart (s : string) : (String.length (JsString.trimStart s) ≤ String.length s)%nat.
Proof.
  induction s as [|c s IH]; [done|]. simpl.
  destruct (JsString.is_whitespace c); simpl; lia.
Qed.

Lemma length_trimEnd (s : string) : (String.length (JsString.trimEnd s) ≤ String.length s)%nat.
Proof.
  induction s as [|c s IH]; [done|]. simpl.
  destruct (JsString.trimEnd s); [destruct (JsString.is_whitespace c)|]; simpl in *; lia.
Qed.

Lemma trimStart_head (s : string) :
  match JsString.trimStart s with
  | EmptyString => True
  | String c _ => JsString.is_whitespace c = false
  end.
Proof.
  induction s as [|c s IH]; [done|]. simpl.
  destruct (JsString.is_whitespace c) eqn:E; [done|]. by rewrite E.
Qed.

Lemma trimStart_id (s : string) :
  match s with
  | EmptyString => True
  | String c _ => JsString.is_whitespace c = false
  end → JsString.trimStart s = s.
Proof. destruct s as [|c s]; [done|]. simpl. by intros ->. Qed.

Lemma trimEnd_head (c : ascii) (s : string) :
  JsString.trimEnd (String c s) = "" ∨ ∃ t, JsString.trimEnd (String c s) = String c t.
Proof.
  simpl. destruct (JsString.trimEnd s); [destruct (JsString.is_whitespace c)|]; eauto.
Qed.

Lemma trimEnd_idem (s : string) : JsString.trimEnd (JsString.trimEnd s) = JsString.trimEnd s.
Proof.
  induction s as [|c s IH]; [done|]. simpl.
  destruct (JsString.trimEnd s) as [|d t] eqn:E.
  - destruct (JsString.is_whitespace c) eqn:Hc; [done|]. cbn [JsString.trimEnd]. by rewrite Hc.
  - cbn [JsString.trimEnd]. cbn [JsString.trimEnd] in IH. by rewrite IH.
Qed.

Lemma trim_idem (s : string) : JsString.trim (JsString.trim s) = JsString.trim s.
Proof.
  unfold JsString.trim. pose proof (trimStart_head s) as Hh.
  destruct (JsString.trimStart s) as [|c t]; [done|].
  destruct (trimEnd_head c t) as [->|[u Hu]]; [done|].
  rewrite Hu, trimStart_id by done. by rewrite <- Hu, trimEnd_idem.
Qed.

Lemma trim_fixed (s : string) :
  JsString.trim s = s → JsString.trimStart s = s ∧ JsString.trimEnd s = s.
Proof.
  intros H. assert (JsString.trimStart s = s) as Hs.
  { pose proof (length_trimEnd (JsString.trimStart s)) as H1.
    unfold JsString.trim in H. rewrite H in H1.
    destruct s as [|c s]; [done|]. simpl in *.
    destruct (JsString.is_whitespace c); [|done].
    pose proof (length_trimStart s). lia. }
  split; [done|]. unfold JsString.trim in H. by rewrite Hs in H.
Qed.

Lemma trimEnd_append (a b : string) :
  JsString.trimEnd b ≠ "" → JsString.trimEnd (a +:+ b) = a +:+ JsString.trimEnd b.
Proof.
  intros Hb. induction a as [|c a IH]; [done|].
  change (String c a +:+ b) with (String c (a +:+ b)). cbn [JsString.trimEnd].
  rewrite IH.
  change (String c a +:+ JsString.trimEnd b) with (String c (a +:+ JsString.trimEnd b)).
  destruct (a +:+ JsString.trimEnd b) eqn:E; [|done].
  exfalso. destruct a as [|d a]; [by apply Hb|].
  change (String d a +:+ JsString.trimEnd b) with (String d (a +:+ JsString.trimEnd b)) in E.
  discriminate E.
Qed.

Lemma tidy_inv (s : string) :
  tidy s = true →
  ∃ c t, s = String c t ∧ JsString.is_whitespace c = false
         ∧ JsString.trimEnd s = s ∧ JsString.trim s = s.
Proof.
  unfold tidy. intros H. apply andb_prop in H as [Ht He]. apply String.eqb_eq in He.
  destruct (trim_fixed s He) as [Hs Hend].
  destruct s as [|c t]; [done|]. exists c, t. split; [done|]. split; [|done].
  simpl in Hs. destruct (JsString.is_whitespace c); [|done].
  pose proof (length_trimStart t) as Hl. rewrite Hs in Hl. simpl in Hl. lia.
Qed.

(** *** One-character separators *)

Lemma indexOf_char (c : ascii) (k v : string) :
  has_char c k = false →
  JsString.indexOf (String c "") (k +:+ String c v) = Z.of_nat (String.length k).
Proof.
  intros Hk. induction k as [|a k IH].
  - change ("" +:+ String c v) with (String c v). cbn [JsString.indexOf].
    assert (String.prefix (String c "") (String c v) = true) as ->; [|done].
    simpl. destruct (ascii_dec c c); [by destruct v|done].
  - simpl in Hk. apply orb_false_elim in Hk as [Ha Hk].
    change (String a k +:+ String c v) with (String a (k +:+ String c v)).
    cbn [JsString.indexOf].
    assert (String.prefix (String c "") (String a (k +:+ String c v)) = false) as ->.
    { simpl. destruct (ascii_dec c a) as [->|]; [|done]. by rewrite Ascii.eqb_refl in Ha. }
    rewrite IH by done. destruct (_ <? 0) eqn:E; [apply Z.ltb_lt in E; lia|].
    simpl String.length. lia.
Qed.

Lemma indexOf_char_absent (c : ascii) (s : string) :
  has_char c s = false → JsString.indexOf (String c "") s = -1.
Proof.
  induction s as [|a s IH]; [done|]. intros H. simpl in H.
  apply orb_false_elim in H as [Ha Hs]. cbn [JsString.indexOf].
  assert (String.prefix (String c "") (String a s) = false) as ->.
  { simpl. destruct (ascii_dec c a) as [->|]; [|done]. by rewrite Ascii.eqb_refl in Ha. }
  by rewrite IH.
Qed.

Lemma indexOf_char_split (c : ascii) (s : string) :
  JsString.indexOf (String c "") s ≠ -1 →
  ∃ k v, s = k +:+ String c v ∧ has_char c k = false
         ∧ JsString.indexOf (String c "") s = Z.of_nat (String.length k).
Proof.
  intros H. destruct (has_char c s) eqn:Hs; [|by rewrite indexOf_char_absent in H].
  clear H. induction s as [|a s IH]; [done|]. simpl in Hs.
  destruct (Ascii.eqb_spec a c) as [->|Hne].
  - exists "", s. split; [done|]. split; [done|]. by apply (indexOf_char c "" s).
  - simpl in Hs. destruct (IH Hs) as (k & v & -> & Hk & _).
    exists (String a k), v. split; [done|].
    assert (has_char c (String a k) = false) as Hak.
    { simpl. rewrite Hk. by destruct (Ascii.eqb_spec a c). }
    split; [done|]. by apply (indexOf_char c (String a k) v).
Qed.

Lemma split_char_absent (c : ascii) (x : string) :
  has_char c x = false → JsString.split c x = [x].
Proof.
  induction x as [|a x IH]; [done|]. simpl. intros H.
  apply orb_false_elim in H as [Ha Hx]. rewrite Ha, IH by done. done.
Qed.

Lemma split_char_cons (c : ascii) (x rest : string) :
  has_char c x = false →
  JsString.split c (x +:+ String c rest) = x :: JsString.split c rest.
Proof.
  induction x as [|a x IH]; intros H.
  - change ("" +:+ String c rest) with (String c rest). simpl. by rewrite Ascii.eqb_refl.
  - simpl in H. apply orb_false_elim in H as [Ha Hx].
    change (String a x +:+ String c rest) with (String a (x +:+ String c rest)).
    simpl. rewrite Ha, IH by done. done.
Qed.

Lemma split_join_char (c : ascii) (l : list string) :
  l ≠ [] → Forall (λ x, has_char c x = false) l →
  JsString.split c (JsString.join (String c "") l) = l.
Proof.
  intros Hne Hl. induction Hl as [|x l Hx Hl IH]; [done|].
  destruct l as [|y l].
  - simpl. by apply split_char_absent.
  - change (JsString.join (String c "") (x :: y :: l))
      with (x +:+ String c (JsString.join (String c "") (y :: l))).
    rewrite split_char_cons by done. by rewrite IH.
Qed.

(** *** The tag filters of a search *)

Lemma has_char_append (c : ascii) (a b : string) :
  has_char c (a +:+ b) = has_char c a || has_char c b.
Proof.
  induction a as [|d a IH]; [done|].
  change (String d a +:+ b) with (String d (a +:+ b)). simpl. by rewrite IH, orb_assoc.
Qed.

Lemma has_char_trimStart (c : ascii) (s : string) :
  has_char c s = false → has_char c (JsString.trimStart s) = false.
Proof.
  induction s as [|a s IH]; [done|]. intros H. simpl in H.
  apply orb_false_elim in H as [Ha Hs]. simpl.
  destruct (JsString.is_whitespace a); [by apply IH|]. simpl. by rewrite Ha, Hs.
Qed.

Lemma has_char_trimEnd (c : ascii) (s : string) :
  has_char c s = false → has_char c (JsString.trimEnd s) = false.
Proof.
  induction s as [|a s IH]; [done|]. intros H. simpl in H.
  apply orb_false_elim in H as [Ha Hs]. cbn [JsString.trimEnd].
  specialize (IH Hs). destruct (JsString.trimEnd s) as [|d t].
  - destruct (JsString.is_whitespace a); [done|]. simpl. by rewrite Ha.
  - cbn [has_char]. cbn [has_char] in IH. by rewrite Ha, IH.
Qed.

Lemma has_char_trim (c : ascii) (s : string) :
  has_char c s = false → has_char c (JsString.trim s) = false.
Proof. intros H. by apply has_char_trimEnd, has_char_trimStart. Qed.

Lemma slice_around (c : ascii) (k v : string) :
  JsString.slice_to (k +:+ String c v) (Z.of_nat (String.length k)) = k
  ∧ JsString.slice_from (k +:+ String c v) (Z.of_nat (String.length k) + 1) = v.
Proof.
  split.
  - unfold JsString.slice_to. rewrite Nat2Z.id. apply substring_prefix.
  - unfold JsString.slice_from.
    replace (Z.to_nat (Z.of_nat (String.length k) + 1))
      with (String.length (k +:+ String c "")) by (rewrite length_append; simpl; lia).
    change (k +:+ String c v) with (k +:+ (String c "" +:+ v)).
    rewrite <- append_assoc. apply drop_chars_append.
Qed.

Lemma parseTagFilters_loop_acc (raw : list string) (clean : list tag_filter) :
  parseTagFilters_loop raw clean = (clean ++ omap filter_of_piece raw)%list.
Proof.
  revert clean. induction raw as [|piece rest IH]; intros clean; simpl.
  - by rewrite app_nil_r.
  - unfold filter_of_piece. cbn [parseTagFilters_loop].
    destruct (negb (JsString.truthy (JsString.trim piece))); [apply IH|].
    destruct (_ =? -1); [apply IH|].
    destruct (_ && _); [|apply IH].
    rewrite IH. simpl. by rewrite <- app_assoc.
Qed.

Lemma filter_of_piece_well_formed (piece : string) (f : tag_filter) :
  filter_of_piece piece = Some f → well_formed_filter f.
Proof.
  unfold filter_of_piece. cbn [parseTagFilters_loop].
  destruct (negb (JsString.truthy (JsString.trim piece))); [done|].
  destruct (JsString.indexOf ":" (JsString.trim piece) =? -1) eqn:Hidx; [done|].
  apply Z.eqb_neq in Hidx.
  destruct (indexOf_char_split ":" _ Hidx) as (k & v & Hkv & Hk & Hi).
  rewrite Hi, Hkv. destruct (slice_around ":" k v) as [-> ->].
  destruct (JsString.truthy (JsString.trim k)) eqn:Hkt; [|done].
  destruct (JsString.truthy (JsString.trim v)) eqn:Hvt; [|done].
  simpl. intros [= <-]. unfold well_formed_filter, tidy. simpl.
  rewrite Hkt, Hvt, !trim_idem, !String.eqb_refl. split; [done|]. split; [done|].
  by apply has_char_trim.
Qed.

(** X16: every filter [parseTagFilters] returns has a key and a value
    that are non-empty and trimmed, and a key without colon; an absent or
    empty parameter gives no filter, and an array gives at most one filter
    per item. *)
Theorem parseTagFilters_well_formed (tagParam : query_value) :
  Forall well_formed_filter (parseTagFilters tagParam)
  ∧ parseTagFilters QAbsent = []
  ∧ parseTagFilters (QString "") = []
  ∧ parseTagFilters (QArray []) = []
  ∧ ∀ items, (length (parseTagFilters (QArray items)) ≤ length items)%nat.
Proof.
  assert (Hloop : ∀ raw, Forall well_formed_filter (parseTagFilters_loop raw [])).
  { intros raw. rewrite parseTagFilters_loop_acc. simpl.
    apply Forall_forall. intros f Hf. apply list_elem_of_omap in Hf as (piece & _ & Hp).
    by eapply filter_of_piece_well_formed. }
  split.
  { destruct tagParam as [|str|items]; simpl; [constructor| |apply Hloop].
    destruct (negb _); [constructor|apply Hloop]. }
  do 3 (split; [done|]).
  intros items. simpl. rewrite parseTagFilters_loop_acc. simpl.
  induction items as [|x items IH]; [done|]. simpl.
  destruct (filter_of_piece x); simpl; change (list_omap _ _ filter_of_piece items)
    with (omap filter_of_piece items); lia.
Qed.

Lemma filter_of_encoded (f : tag_filter) :
  encodable f = true →
  filter_of_piece (filter_key f +:+ ":" +:+ filter_value f) = Some f.
Proof.
  destruct f as [k v]. unfold encodable. simpl. intros H.
  apply andb_prop in H as [H Hcolon]. apply andb_prop in H as [H _].
  apply andb_prop in H as [H _]. apply andb_prop in H as [Hk Hv].
  apply negb_true_iff in Hcolon.
  destruct (tidy_inv k Hk) as (c & t & -> & Hc & Hkend & Hktrim).
  destruct (tidy_inv v Hv) as (d & u & -> & Hd & Hvend & Hvtrim).
  set (k := String c t) in *. set (v := String d u) in *.
  assert (Htrim : JsString.trim (k +:+ ":" +:+ v) = k +:+ ":" +:+ v).
  { unfold JsString.trim.
    assert (JsString.trimStart (k +:+ ":" +:+ v) = k +:+ ":" +:+ v) as ->.
    { unfold k. change (String c t +:+ ":" +:+ v) with (String c (t +:+ ":" +:+ v)).
      simpl. by rewrite Hc. }
    assert (JsString.trimEnd (":" +:+ v) = ":" +:+ v) as Hcv.
    { rewrite (trimEnd_append ":" v); [by rewrite Hvend|by rewrite Hvend]. }
    rewrite trimEnd_append; [by rewrite Hcv|by rewrite Hcv]. }
  unfold filter_of_piece. cbn [parseTagFilters_loop]. rewrite Htrim.
  assert (JsString.truthy (k +:+ ":" +:+ v) = true) as -> by done.
  change (k +:+ ":" +:+ v) with (k +:+ String ":" v).
  rewrite (indexOf_char ":" k v Hcolon). simpl negb. cbv iota.
  assert ((Z.of_nat (String.length k) =? -1) = false) as -> by (apply Z.eqb_neq; lia).
  destruct (slice_around ":" k v) as [-> ->].
  rewrite Hktrim, Hvtrim. done.
Qed.

(** X17: the filters the client encodes as [key:value,key:value] are
    read back unchanged by [parseTagFilters], when keys and values are
    trimmed, non-empty and without comma and the keys hold no colon. *)
Theorem tag_filters_round_trip (filters : list tag_filter) :
  forallb encodable filters = true →
  parseTagFilters (QString (encodeTagFilters filters)) = filters.
Proof.
  intros Hall. unfold parseTagFilters, encodeTagFilters.
  destruct filters as [|f0 rest]; [done|].
  set (pieces := List.map _ (f0 :: rest)).
  assert (Hpieces : Forall (λ x, has_char "," x = false) pieces).
  { unfold pieces. apply Forall_forall. intros x Hx.
    apply elem_of_List_map in Hx as (f & -> & Hf).
    rewrite forallb_forall in Hall. specialize (Hall f).
    rewrite <- list_elem_of_In in Hall. specialize (Hall Hf).
    unfold encodable in Hall.
    apply andb_prop in Hall as [H _]. apply andb_prop in H as [H Hv].
    apply andb_prop in H as [_ Hk]. apply negb_true_iff in Hk, Hv.
    by rewrite !has_char_append, Hk, Hv. }
  assert (Hsplit : JsString.split "," (JsString.join "," pieces) = pieces)
    by (by apply split_join_char).
  assert (Homap : omap filter_of_piece pieces = f0 :: rest).
  { unfold pieces. clear -Hall. induction (f0 :: rest) as [|f l IH]; [done|].
    simpl in Hall. apply andb_prop in Hall as [Hf Hl]. simpl.
    rewrite filter_of_encoded by done. simpl. f_equal. exact (IH Hl). }
  destruct (JsString.truthy (JsString.join "," pieces)) eqn:Ht; cbn [negb].
  - by rewrite Hsplit, parseTagFilters_loop_acc.
  - destruct (JsString.join "," pieces); [|done]. simpl in Hsplit.
    rewrite <- Hsplit in Homap. done.
Qed.

(** *** Search results *)

Lemma collect_matches_fresh (set : option (list string)) (results : list Entry.t)
    (seen : list string) (acc : list Entry.t) :
  seen = Entry.path <$> acc → NoDup seen →
  NoDup (Entry.path <$> collect_matches set results seen acc)
  ∧ (length (collect_matches set results seen acc) ≤ length acc + length results)%nat
  ∧ ∀ e, e ∈ collect_matches set results seen acc → e ∈ acc ∨ e ∈ results.
Proof.
  revert seen acc. induction results as [|r results IH]; intros seen acc Hseen Hnd.
  - simpl. split; [by rewrite <- Hseen|]. split; [lia|]. by left.
  - cbn [collect_matches].
    assert (Hskip :
      NoDup (Entry.path <$> collect_matches set results seen acc)
      ∧ (length (collect_matches set results seen acc)
         ≤ length acc + length (r :: results))%nat
      ∧ ∀ e, e ∈ collect_matches set results seen acc → e ∈ acc ∨ e ∈ r :: results).
    { destruct (IH seen acc Hseen Hnd) as (H1 & H2 & H3).
      split; [done|]. split; [simpl; lia|].
      intros e He. destruct (H3 e He); [by left|right; by right]. }
    destruct (match set with Some s0 => _ | None => false end); [exact Hskip|].
    destruct (Set_has seen (Entry.path r)) eqn:Hin; simpl; [exact Hskip|].
    destruct (IH (seen ++ [Entry.path r]) (acc ++ [r])) as (H1 & H2 & H3).
    { by rewrite fmap_app, Hseen. }
    { apply NoDup_app. split; [done|]. split; [|apply NoDup_singleton].
      intros x Hx Hx'. apply list_elem_of_singleton in Hx' as ->.
      apply Set_has_true in Hx. congruence. }
    split; [done|]. split.
    + rewrite length_app in H2. simpl in *. lia.
    + intros e He. destruct (H3 e He) as [Ha|Hr]; [|right; by right].
      apply elem_of_app in Ha as [Ha|Ha]; [by left|].
      apply list_elem_of_singleton in Ha as ->. right. by left.
Qed.

Section SearchBounds.

Variable entryFuse_rank : list Entry.t → string → list Entry.t.

Lemma gatherSearchResults_bounded (query : string) (tagFilters : list tag_filter)
    (s : server) :
  let results := gatherSearchResults entryFuse_rank query tagFilters s in
  (length results ≤ 50)%nat
  ∧ (∀ r, r ∈ results → hit_tags r = statements.entryTags (Entry.path (hit r)) (db s))
  ∧ (if JsString.truthy query
     then NoDup (Entry.path <$> (hit <$> results))
          ∧ ∀ r, r ∈ results → hit r ∈ entryFuse_rank (entryCache s) query
     else hit <$> results `sublist_of` entryCache s).
Proof.
  intros results. unfold results, gatherSearchResults.
  set (decorate := λ entry : Entry.t, _).
  assert (Hhit : ∀ l, hit <$> List.map decorate l = l).
  { induction l as [|x l IH]; [done|]. simpl. by f_equal. }
  destruct (JsString.truthy query).
  - destruct (collect_matches_fresh (filterPathsByTags tagFilters s)
                (entryFuse_search entryFuse_rank s query 50) [] [] eq_refl)
      as (H1 & H2 & H3); [constructor|].
    split.
    { rewrite length_map. unfold entryFuse_search in *. rewrite length_take in H2.
      change (Z.to_nat 50) with 50%nat in *. cbn [length] in H2. lia. }
    split.
    { intros r Hr. apply elem_of_List_map in Hr as (e & -> & _). done. }
    split; [by rewrite Hhit|].
    intros r Hr. apply elem_of_List_map in Hr as (e & -> & He). simpl.
    destruct (H3 e He) as [Hnil|Hin]; [by apply elem_of_nil in Hnil|].
    unfold entryFuse_search in Hin. by apply elem_of_take in Hin as (i & Hin%list_elem_of_lookup_2 & _).
  - split; [rewrite length_map, length_take; lia|].
    split.
    { intros r Hr. apply elem_of_List_map in Hr as (e & -> & _). done. }
    rewrite Hhit. etrans; [apply sublist_take|].
    destruct (filterPathsByTags tagFilters s); [|done].
    induction (entryCache s) as [|x cache IH]; [done|]. simpl.
    destruct (Set_has _ _); [by constructor|by constructor].
Qed.

(** X18: GET /api/search returns at most 50 results, each with the tags
    the store holds for its path; with a query no path comes twice and
    every hit is one of the fuzzy matches, without a query the hits are
    cached entries in cache order. *)
Theorem search_results_are_bounded (q tags : query_value) (s : server) :
  let query := JsString.trim (string_param q) in
  let results := get_api_search entryFuse_rank q tags s in
  (length results ≤ 50)%nat
  ∧ (∀ r, r ∈ results → hit_tags r = statements.entryTags (Entry.path (hit r)) (db s))
  ∧ (if JsString.truthy query
     then NoDup (Entry.path <$> (hit <$> results))
          ∧ ∀ r, r ∈ results → hit r ∈ entryFuse_rank (entryCache s) query
     else hit <$> results `sublist_of` entryCache s).
Proof. apply gatherSearchResults_bounded. Qed.

End SearchBounds.

(** *** Listing the tags *)

Lemma post_api_tags_effect (p k v : string) (e : Entry.t) (s : server) :
  entries (db s) !! p = Some e →
  JsString.truthy p = true → JsString.truthy k = true → JsString.truthy v = true →
  let s' := (post_api_tags (Some p) (Some k) (Some v) s).2 in
  entries (db s') = entries (db s)
  ∧ Tag.Build p k v ∈ tags (db s')
  ∧ caches_fresh s'.
Proof.
  intros He Hp Hk Hv. cbv zeta. unfold post_api_tags. rewrite Hp, Hk, Hv. simpl.
  unfold statements.singleEntry. rewrite He. unfold statements.addTag.
  destruct (bool_decide (Tag.Build p k v ∈ tags (db s))) eqn:Hdup.
  - apply bool_decide_eq_true in Hdup. simpl. by destruct (db s).
  - rewrite bool_decide_eq_true_2 by (by rewrite He). simpl.
    split; [done|]. split; [|done]. apply elem_of_app. right. by apply list_elem_of_singleton.
Qed.

Lemma delete_api_tags_effect (p k v : string) (s : server) :
  JsString.truthy p = true → JsString.truthy k = true → JsString.truthy v = true →
  let s' := (delete_api_tags (Some p) (Some k) (Some v) s).2 in
  entries (db s') = entries (db s)
  ∧ (Tag.Build p k v ∉ tags (db s'))
  ∧ caches_fresh s'.
Proof.
  intros Hp Hk Hv. cbv zeta. unfold delete_api_tags. rewrite Hp, Hk, Hv. simpl.
  split; [done|]. split; [|done].
  rewrite elem_of_List_filter, negb_true_iff, bool_decide_eq_false. by intros [_ Hne].
Qed.

(** X19: a tag added to an existing entry is listed by GET /api/tags
    for that path and for all paths, and is on neither list once deleted;
    the list for a path holds exactly the stored tags of that path; a path
    without entry gets 404. *)
Theorem added_tag_is_listed (p k v : string) (s : server) :
  is_Some (entries (db s) !! p) →
  JsString.truthy p = true → JsString.truthy k = true → JsString.truthy v = true →
  let added := (post_api_tags (Some p) (Some k) (Some v) s).2 in
  let removed := (delete_api_tags (Some p) (Some k) (Some v) added).2 in
  (∃ rows, get_api_tags (QString p) added = json rows
           ∧ Tag.Build p k v ∈ rows
           ∧ ∀ t, t ∈ rows ↔ t ∈ tags (db added) ∧ Tag.entry_path t = p)
  ∧ (∃ rows, get_api_tags QAbsent added = json rows ∧ Tag.Build p k v ∈ rows)
  ∧ (∃ rows, get_api_tags (QString p) removed = json rows ∧ Tag.Build p k v ∉ rows)
  ∧ (∃ rows, get_api_tags QAbsent removed = json rows ∧ Tag.Build p k v ∉ rows)
  ∧ ∀ q, entries (db s) !! q = None →
         JsString.truthy q = true →
         get_api_tags (QString q) added = status 404 "Entry not found".
Proof.
  intros [e He] Hp Hk Hv. cbv zeta.
  destruct (post_api_tags_effect p k v e s He Hp Hk Hv) as (Hent & Hin & Hfresh).
  set (s1 := (post_api_tags (Some p) (Some k) (Some v) s).2) in *.
  destruct (delete_api_tags_effect p k v s1 Hp Hk Hv) as (Hent' & Hout & Hfresh').
  set (removed := (delete_api_tags (Some p) (Some k) (Some v) s1).2) in *.
  assert (Hrows : ∀ s0 t,
    t ∈ List.map (λ tag, Tag.Build p (Tag.key tag) (Tag.value tag)) (listTagsForPath p s0)
    ↔ t ∈ tags (db s0) ∧ Tag.entry_path t = p).
  { intros s0 t. rewrite elem_of_List_map. unfold listTagsForPath. split.
    - intros (x & -> & Hx). apply elem_of_entryTags in Hx as [Hx <-]. by destruct x.
    - intros [Ht <-]. exists t. split; [by destruct t|]. by apply elem_of_entryTags. }
  assert (Hall : ∀ s0 t,
    t ∈ List.map (λ tag, Tag.Build (Tag.entry_path tag) (Tag.key tag) (Tag.value tag)) (tagCache s0)
    ↔ t ∈ tagCache s0).
  { intros s0 t. rewrite elem_of_List_map. split.
    - intros (x & -> & Hx). by destruct x.
    - intros Ht. exists t. split; [by destruct t|done]. }
  split.
  { unfold get_api_tags. simpl. rewrite Hp. unfold statements.singleEntry.
    rewrite Hent, He. eexists. split; [done|]. split; [|apply Hrows].
    apply Hrows. by split. }
  split.
  { unfold get_api_tags. simpl. eexists. split; [done|]. apply Hall.
    by destruct Hfresh as [_ ->]. }
  split.
  { unfold get_api_tags. simpl. rewrite Hp. unfold statements.singleEntry.
    rewrite Hent', Hent, He. eexists. split; [done|].
    rewrite Hrows. by intros [Hin' _]. }
  split.
  { unfold get_api_tags. simpl. eexists. split; [done|]. rewrite Hall.
    by destruct Hfresh' as [_ ->]. }
  intros q Hq Hqt. unfold get_api_tags. simpl. rewrite Hqt.
  unfold statements.singleEntry. by rewrite Hent, Hq.
Qed.

(** *** Suggestions *)

Lemma Map_get_add (map : list (string * list string)) (k v k' x : string) :
  x ∈ Map_get (Map_add_value map k v) k' → x ∈ Map_get map k' ∨ (k' = k ∧ x = v).
Proof.
  induction map as [|[k0 values] rest IH]; simpl.
  - destruct (String.eqb_spec k k') as [->|]; [|by left].
    intros Hx. apply list_elem_of_singleton in Hx. by right.
  - destruct (String.eqb_spec k0 k) as [->|Hne]; simpl.
    + destruct (String.eqb_spec k k') as [->|]; [|by left].
      destruct (Set_has values v); [by left|].
      intros Hx. apply elem_of_app in Hx as [Hx|Hx]; [by left|].
      apply list_elem_of_singleton in Hx. by right.
    + destruct (String.eqb_spec k0 k'); [by left|apply IH].
Qed.

Lemma Map_add_value_NoDup (map : list (string * list string)) (k v : string) :
  Forall (λ kv, NoDup kv.2) map → Forall (λ kv, NoDup kv.2) (Map_add_value map k v).
Proof.
  induction 1 as [|[k0 values] rest Hv Hrest IH]; simpl.
  - constructor; [apply NoDup_singleton|constructor].
  - destruct (String.eqb k0 k); constructor; try done. simpl in *.
    destruct (Set_has values v) eqn:Hin; [done|].
    apply NoDup_app. split; [done|]. split; [|apply NoDup_singleton].
    intros x Hx Hx'. apply list_elem_of_singleton in Hx' as ->.
    apply Set_has_true in Hx. congruence.
Qed.

Lemma Map_get_NoDup (map : list (string * list string)) (k : string) :
  Forall (λ kv, NoDup kv.2) map → NoDup (Map_get map k).
Proof.
  induction 1 as [|[k0 values] rest Hv Hrest IH]; simpl; [constructor|].
  by destruct (String.eqb k0 k).
Qed.

Lemma Map_keys_add (map : list (string * list string)) (k v k' : string) :
  k' ∈ List.map fst (Map_add_value map k v) → k' ∈ List.map fst map ∨ k' = k.
Proof.
  induction map as [|[k0 values] rest IH]; simpl.
  - intros H. apply list_elem_of_singleton in H. by right.
  - destruct (String.eqb_spec k0 k) as [->|Hne]; simpl; [by left|].
    intros H. apply elem_of_cons in H as [->|H]; [left; by left|].
    destruct (IH H); [left; by right|by right].
Qed.

Lemma Map_keys_add_NoDup (map : list (string * list string)) (k v : string) :
  NoDup (List.map fst map) → NoDup (List.map fst (Map_add_value map k v)).
Proof.
  induction map as [|[k0 values] rest IH]; simpl; [intros _; apply NoDup_singleton|].
  intros Hnd. apply NoDup_cons in Hnd as [Hk0 Hnd].
  destruct (String.eqb_spec k0 k) as [->|Hne]; simpl; [by constructor|].
  constructor; [|by apply IH].
  intros H. apply Map_keys_add in H as [H|H]; [done|congruence].
Qed.

Lemma tagValuesByKey_sound (s : server) :
  Forall (λ kv, NoDup kv.2) (tagValuesByKey s)
  ∧ NoDup (List.map fst (tagValuesByKey s))
  ∧ (∀ k v, v ∈ Map_get (tagValuesByKey s) k →
            ∃ t, t ∈ tagCache s ∧ Tag.key t = k ∧ Tag.value t = v)
  ∧ ∀ k, k ∈ List.map fst (tagValuesByKey s) → ∃ t, t ∈ tagCache s ∧ Tag.key t = k.
Proof.
  unfold tagValuesByKey.
  assert (H : ∀ l map,
    Forall (λ kv, NoDup kv.2) map → NoDup (List.map fst map) →
    let out := foldl (λ map row, Map_add_value map (Tag.key row) (Tag.value row)) map l in
    Forall (λ kv, NoDup kv.2) out
    ∧ NoDup (List.map fst out)
    ∧ (∀ k v, v ∈ Map_get out k →
              v ∈ Map_get map k ∨ ∃ t, t ∈ l ∧ Tag.key t = k ∧ Tag.value t = v)
    ∧ ∀ k, k ∈ List.map fst out → k ∈ List.map fst map ∨ ∃ t, t ∈ l ∧ Tag.key t = k).
  { induction l as [|row l IH]; intros map Hv Hk; simpl.
    - split; [done|]. split; [done|]. split; by left.
    - destruct (IH (Map_add_value map (Tag.key row) (Tag.value row)))
        as (H1 & H2 & H3 & H4);
        [by apply Map_add_value_NoDup|by apply Map_keys_add_NoDup|].
      split; [done|]. split; [done|]. split.
      + intros k v Hin. destruct (H3 k v Hin) as [Hm|(t & Ht & Hkv)].
        * apply Map_get_add in Hm as [Hm|[-> ->]]; [by left|].
          right. exists row. split; [by left|done].
        * right. exists t. split; [by right|done].
      + intros k Hin. destruct (H4 k Hin) as [Hm|(t & Ht & Hkv)].
        * apply Map_keys_add in Hm as [Hm| ->]; [by left|].
          right. exists row. split; [by left|done].
        * right. exists t. split; [by right|done]. }
  destruct (H (tagCache s) []) as (H1 & H2 & H3 & H4); [constructor|constructor|].
  split; [done|]. split; [done|]. split.
  - intros k v Hin. destruct (H3 k v Hin) as [Hnil|Ht]; [by apply elem_of_nil in Hnil|done].
  - intros k Hin. destruct (H4 k Hin) as [Hnil|Ht]; [by apply elem_of_nil in Hnil|done].
Qed.

Lemma unique_suggestions_NoDup (merged : list suggestion) (seen : list string)
    (unique : list suggestion) :
  seen = (λ sg, type_name (sg_type sg) +:+ ":" +:+ sg_value sg) <$> unique →
  NoDup seen →
  NoDup (unique_suggestions merged seen unique)
  ∧ ∀ sg, sg ∈ unique_suggestions merged seen unique → sg ∈ unique ∨ sg ∈ merged.
Proof.
  revert seen unique. induction merged as [|sg merged IH]; intros seen unique Hseen Hnd.
  - simpl. split; [|by left]. rewrite Hseen in Hnd. by apply NoDup_fmap_1 in Hnd.
  - cbn [unique_suggestions].
    destruct (Set_has seen _) eqn:Hin; cbn [negb].
    + destruct (IH seen unique Hseen Hnd) as [H1 H2]. split; [done|].
      intros x Hx. destruct (H2 x Hx); [by left|right; by right].
    + destruct (IH (seen ++ [type_name (sg_type sg) +:+ ":" +:+ sg_value sg])
                  (unique ++ [sg])) as [H1 H2].
      { by rewrite fmap_app, Hseen. }
      { apply NoDup_app. split; [done|]. split; [|apply NoDup_singleton].
        intros x Hx Hx'. apply list_elem_of_singleton in Hx' as ->.
        apply Set_has_true in Hx. congruence. }
      split; [done|]. intros x Hx. destruct (H2 x Hx) as [Hu|Hm]; [|right; by right].
      apply elem_of_app in Hu as [Hu|Hu]; [by left|].
      apply list_elem_of_singleton in Hu as ->. right. by left.
Qed.

Lemma NoDup_take {A} (n : nat) (l : list A) : NoDup l → NoDup (take n l).
Proof. intros H. eapply sublist_NoDup; [exact H|apply sublist_take]. Qed.

Lemma NoDup_List_map {A B} (f : A → B) (l : list A) :
  (∀ x y, f x = f y → x = y) → NoDup l → NoDup (List.map f l).
Proof.
  intros Hinj. induction 1 as [|x l Hx Hl IH]; simpl; [constructor|].
  constructor; [|done]. intros Hin. apply elem_of_List_map in Hin as (y & Hy & Hin).
  apply Hinj in Hy as ->. done.
Qed.

Lemma append_inj (pre a b : string) : pre +:+ a = pre +:+ b → a = b.
Proof.
  induction pre as [|c pre IH]; [done|].
  change (String c pre +:+ a) with (String c (pre +:+ a)).
  change (String c pre +:+ b) with (String c (pre +:+ b)). intros [= H]. auto.
Qed.

Section SuggestionFacts.

Variable entryFuse_rank : list Entry.t → string → list Entry.t.
Variable tagFuse_rank : list Tag.t → string → list (Tag.t * Q).

(** X20: [buildSuggestions] returns at most 10 suggestions; for a
    non-blank query none comes twice, a word with a colon is completed
    only to [key:value] pairs of cached tags with that key, and every key
    suggestion is the key of a cached tag; for a blank query every
    suggestion is the path of a cached directory other than the root. *)
Theorem suggestions_are_sound (queryRaw : string) (s : server) :
  let out := buildSuggestions entryFuse_rank tagFuse_rank queryRaw s in
  let current := current_word queryRaw in
  (length out ≤ 10)%nat
  ∧ (if JsString.truthy (JsString.trim queryRaw)
     then NoDup out
          ∧ (-1 < JsString.indexOf ":" current →
             ∀ sg, sg ∈ out →
                   ∃ t, t ∈ tagCache s
                        ∧ Tag.key t = JsString.slice_to current (JsString.indexOf ":" current)
                        ∧ sg = Suggestion sg_tag (Tag.key t +:+ ":" +:+ Tag.value t))
          ∧ ∀ sg, sg ∈ out → sg_type sg = sg_tagKey →
                  ∃ t, t ∈ tagCache s ∧ sg_value sg = Tag.key t +:+ ":"
     else ∀ sg, sg ∈ out →
                ∃ e, e ∈ entryCache s ∧ Entry.type e = directory ∧ Entry.path e ≠ "/"
                     ∧ sg = Suggestion sg_path (Entry.path e)).
Proof.
  intros out current. unfold out, buildSuggestions. fold (current_word queryRaw).
  fold current.
  destruct (tagValuesByKey_sound s) as (Hvals & Hkeys & Hget & Hkey).
  destruct (JsString.truthy (JsString.trim queryRaw)); cbn [negb].
  - destruct (-1 <? JsString.indexOf ":" current) eqn:Hcolon.
    + split; [rewrite length_map, length_take; lia|]. split; [|split].
      * apply NoDup_List_map.
        { intros x y [= H]. apply append_inj in H. by inversion H. }
        by apply NoDup_take, NoDup_List_filter, Map_get_NoDup.
      * intros _ sg Hsg. apply elem_of_List_map in Hsg as (v & -> & Hv).
        apply elem_of_take in Hv as (i & Hv%list_elem_of_lookup_2 & _).
        apply elem_of_List_filter in Hv as [Hv _].
        destruct (Hget _ _ Hv) as (t & Ht & Hk & Hval).
        exists t. split; [done|]. split; [done|]. by rewrite Hk, Hval.
      * intros sg Hsg Hty. apply elem_of_List_map in Hsg as (v & -> & _). done.
    + split; [rewrite length_take; lia|].
      match goal with |- context [unique_suggestions ?m [] []] =>
        destruct (unique_suggestions_NoDup m [] [] eq_refl) as [Hnd Hin];
          [constructor|] end.
      split; [by apply NoDup_take|]. split.
      * intros Hpos. apply Z.ltb_ge in Hcolon. lia.
      * intros sg Hsg Hty.
        apply elem_of_take in Hsg as (i & Hsg%list_elem_of_lookup_2 & _).
        destruct (Hin sg Hsg) as [Hnil|Hm]; [by apply elem_of_nil in Hnil|].
        apply elem_of_app in Hm as [Hm|Hm].
        { apply elem_of_List_map in Hm as (e & -> & _). done. }
        apply elem_of_app in Hm as [Hm|Hm].
        { apply elem_of_List_map in Hm as (e & -> & _). done. }
        apply elem_of_List_map in Hm as (key & -> & Hk).
        apply elem_of_take in Hk as (j & Hk%list_elem_of_lookup_2 & _).
        apply elem_of_List_filter in Hk as [Hk _].
        destruct (Hkey _ Hk) as (t & Ht & <-). by exists t.
  - split; [rewrite length_map, length_take; lia|].
    intros sg Hsg. apply elem_of_List_map in Hsg as (e & -> & He).
    apply elem_of_take in He as (i & He%list_elem_of_lookup_2 & _).
    apply elem_of_List_filter in He as [He Hf].
    apply andb_prop in Hf as [Hd Hr]. apply bool_decide_eq_true in Hd.
    apply negb_true_iff, String.eqb_neq in Hr. by exists e.
Qed.

End SuggestionFacts.

(** *** Snippets *)

Lemma length_substring (a n : nat) (s : string) :
  (String.length (String.substring a n s) ≤ n)%nat.
Proof.
  revert a n. induction s as [|c s IH]; intros a n.
  - destruct a, n; simpl; lia.
  - destruct a as [|a].
    + destruct n as [|n]; simpl; [lia|]. specialize (IH 0%nat n). lia.
    + simpl. apply IH.
Qed.

Lemma length_toLowerCase (s : string) :
  String.length (JsString.toLowerCase s) = String.length s.
Proof.
  unfold JsString.toLowerCase. induction s as [|c s IH]; [done|]. simpl. by rewrite IH.
Qed.

Lemma toLowerCase_append (a b : string) :
  JsString.toLowerCase (a +:+ b) = JsString.toLowerCase a +:+ JsString.toLowerCase b.
Proof.
  unfold JsString.toLowerCase. induction a as [|c a IH]; [done|].
  change (String c a +:+ b) with (String c (a +:+ b)). simpl.
  rewrite IH. done.
Qed.

Lemma toLowerCase_substring (a n : nat) (s : string) :
  JsString.toLowerCase (String.substring a n s)
  = String.substring a n (JsString.toLowerCase s).
Proof.
  unfold JsString.toLowerCase. revert a n. induction s as [|c s IH]; intros a n.
  - by destruct a, n.
  - destruct a as [|a]; simpl.
    + destruct n as [|n]; simpl; [done|]. by rewrite IH.
    + apply IH.
Qed.

Lemma indexOf_range (m s : string) : JsString.indexOf m s = -1 ∨ 0 ≤ JsString.indexOf m s.
Proof.
  induction s as [|c s IH]; cbn [JsString.indexOf].
  - destruct (String.prefix m ""); [by right|by left].
  - destruct (String.prefix m (String c s)); [by right|].
    destruct (JsString.indexOf m s <? 0) eqn:E; [by left|].
    apply Z.ltb_ge in E. right. lia.
Qed.

Lemma prefix_length (m s : string) :
  String.prefix m s = true → (String.length m ≤ String.length s)%nat.
Proof. intros H. apply prefix_split in H as [rest ->]. rewrite length_append. lia. Qed.

Lemma prefix_substring (m s : string) (n : nat) :
  String.prefix m s = true → (String.length m ≤ n)%nat →
  String.prefix m (String.substring 0 n s) = true.
Proof.
  revert s n. induction m as [|c m IH]; intros s n Hp Hn.
  - by destruct (String.substring 0 n s).
  - destruct s as [|d s]; [done|]. simpl in Hp, Hn.
    destruct n as [|n]; [lia|]. simpl.
    destruct (ascii_dec c d); [|done]. apply IH; [done|lia].
Qed.

Lemma prefix_append_right (m s t : string) :
  String.prefix m s = true → String.prefix m (s +:+ t) = true.
Proof.
  intros H. apply prefix_split in H as [rest ->].
  rewrite append_assoc. apply prefix_append.
Qed.

Lemma indexOf_substring (m s : string) (a n : nat) :
  0 ≤ JsString.indexOf m s →
  Z.of_nat a ≤ JsString.indexOf m s →
  JsString.indexOf m s + Z.of_nat (String.length m) ≤ Z.of_nat a + Z.of_nat n →
  0 ≤ JsString.indexOf m (String.substring a n s).
Proof.
  revert a n. induction s as [|c s IH]; intros a n; cbn [JsString.indexOf].
  - destruct (String.prefix m "") eqn:Hp; [|lia]. intros _ Ha Hn.
    assert (m = "") as -> by (by destruct m). by destruct a, n.
  - destruct (String.prefix m (String c s)) eqn:Hp.
    + intros _ Ha Hn. assert (a = 0%nat) as -> by lia.
      assert (String.prefix m (String.substring 0 n (String c s)) = true) as Hq
        by (apply prefix_substring; [done|lia]).
      destruct (String.substring 0 n (String c s)); cbn [JsString.indexOf]; by rewrite Hq.
    + destruct (JsString.indexOf m s <? 0) eqn:E; [lia|]. apply Z.ltb_ge in E.
      intros _ Ha Hn. destruct a as [|a].
      * destruct n as [|n].
        { pose proof (indexOf_found m s E) as (pre & post & -> & Hlen). lia. }
        simpl String.substring. cbn [JsString.indexOf].
        destruct (String.prefix m (String c (String.substring 0 n s))); [done|].
        assert (0 ≤ JsString.indexOf m (String.substring 0 n s)) as Hrec
          by (apply IH; lia).
        destruct (JsString.indexOf m (String.substring 0 n s) <? 0) eqn:E';
          [apply Z.ltb_lt in E'; lia|lia].
      * simpl String.substring. apply IH; lia.
Qed.

Lemma indexOf_append_left (m a s : string) :
  0 ≤ JsString.indexOf m s → 0 ≤ JsString.indexOf m (a +:+ s).
Proof.
  intros H. induction a as [|c a IH]; [done|].
  change (String c a +:+ s) with (String c (a +:+ s)). cbn [JsString.indexOf].
  destruct (String.prefix m (String c (a +:+ s))); [done|].
  destruct (JsString.indexOf m (a +:+ s) <? 0) eqn:E; [apply Z.ltb_lt in E; lia|lia].
Qed.

Lemma indexOf_append_right (m s b : string) :
  0 ≤ JsString.indexOf m s → 0 ≤ JsString.indexOf m (s +:+ b).
Proof.
  induction s as [|c s IH]; cbn [JsString.indexOf].
  - destruct (String.prefix m "") eqn:Hp; [|lia]. intros _.
    assert (m = "") as -> by (by destruct m).
    change ("" +:+ b) with b. by destruct b.
  - destruct (String.prefix m (String c s)) eqn:Hp.
    + intros _. apply (prefix_append_right _ _ b) in Hp.
      change (String c s +:+ b) with (String c (s +:+ b)) in *.
      cbn [JsString.indexOf]. by rewrite Hp.
    + destruct (JsString.indexOf m s <? 0) eqn:E; [lia|]. apply Z.ltb_ge in E. intros _.
      change (String c s +:+ b) with (String c (s +:+ b)). cbn [JsString.indexOf].
      destruct (String.prefix m (String c (s +:+ b))); [done|].
      specialize (IH E).
      destruct (JsString.indexOf m (s +:+ b) <? 0) eqn:E'; [apply Z.ltb_lt in E'; lia|lia].
Qed.

Section SnippetFacts.

Variable ellipsis : ascii.

Lemma clipped_length (t : string) :
  (String.length
     (if (string_length t <=? 240)%Z then t
      else JsString.slice_to t (240 - 1)%Z +:+ String ellipsis "") ≤ 240)%nat.
Proof.
  unfold string_length. destruct (_ <=? 240) eqn:E.
  - apply Z.leb_le in E. lia.
  - rewrite length_append. unfold JsString.slice_to.
    pose proof (length_substring 0 (Z.to_nat (240 - 1)) t). simpl String.length. lia.
Qed.

(** X21: a snippet of the empty line is empty; a snippet is never longer
    than 240 characters when the query is blank or does not occur in the
    line, and never longer than the query plus 182 characters when it
    occurs, in which case the snippet contains the query, letters compared
    without case. *)
Theorem snippet_is_bounded (lineText query : string) :
  let snippet := buildFileSnippet ellipsis lineText query in
  let lowerQuery := JsString.toLowerCase (JsString.trim query) in
  let lowerText := JsString.toLowerCase (expand_tabs lineText) in
  buildFileSnippet ellipsis "" query = ""
  ∧ (String.length snippet ≤ Nat.max 240 (String.length lowerQuery + 182))%nat
  ∧ (JsString.truthy lowerQuery = false ∨ JsString.includes lowerText lowerQuery = false →
     (String.length snippet ≤ 240)%nat)
  ∧ (JsString.truthy lineText = true → JsString.truthy lowerQuery = true →
     JsString.includes lowerText lowerQuery = true →
     JsString.includes (JsString.toLowerCase snippet) lowerQuery = true
     ∧ (String.length snippet ≤ String.length lowerQuery + 182)%nat).
Proof.
  intros snippet lowerQuery lowerText.
  assert (Htq : JsString.truthy (JsString.trim query) = JsString.truthy lowerQuery).
  { unfold lowerQuery, JsString.toLowerCase. by destruct (JsString.trim query). }
  split; [done|].
  assert (Hmatch :
    JsString.truthy lineText = true → JsString.truthy lowerQuery = true →
    JsString.includes lowerText lowerQuery = true →
    JsString.includes (JsString.toLowerCase snippet) lowerQuery = true
    ∧ (String.length snippet ≤ String.length lowerQuery + 182)%nat).
  { intros Hline Hq Hinc. unfold snippet, buildFileSnippet.
    rewrite Hline, Htq, Hq. cbn [negb]. fold lowerQuery lowerText.
    unfold JsString.includes in Hinc. apply Z.leb_le in Hinc.
    assert ((JsString.indexOf lowerQuery lowerText =? -1) = false) as ->
      by (apply Z.eqb_neq; lia).
    set (index := JsString.indexOf lowerQuery lowerText) in *.
    set (t := expand_tabs lineText) in *.
    assert (Hlen : string_length lowerText = string_length t)
      by (unfold string_length, lowerText; by rewrite length_toLowerCase).
    destruct (indexOf_found lowerQuery lowerText Hinc) as (pre & post & Hsplit & Hpre).
    assert (Hfit : index + string_length lowerQuery ≤ string_length t).
    { rewrite <- Hlen. unfold string_length. rewrite Hsplit, !length_append.
      fold index in Hpre. lia. }
    set (start := Z.max 0 (index - 60)).
    set (end_ := Z.min (string_length t) (index + string_length lowerQuery + 120)).
    assert (Hcore : 0 ≤ JsString.indexOf lowerQuery (JsString.toLowerCase (slice t start end_))).
    { unfold slice. rewrite toLowerCase_substring. fold lowerText.
      apply indexOf_substring; [done|unfold start; fold index; lia|].
      fold index. unfold string_length in *. unfold start, end_, string_length. lia. }
    assert (Hwidth : (String.length (slice t start end_) ≤ String.length lowerQuery + 180)%nat).
    { unfold slice. etrans; [apply length_substring|].
      unfold start, end_, string_length in *. lia. }
    split.
    - unfold JsString.includes. apply Z.leb_le.
      destruct (0 <? start), (end_ <? string_length t);
        rewrite ?toLowerCase_append;
        auto using indexOf_append_left, indexOf_append_right.
    - destruct (0 <? start), (end_ <? string_length t);
        rewrite ?length_append; simpl String.length; lia. }
  assert (Hclip :
    JsString.truthy lowerQuery = false ∨ JsString.includes lowerText lowerQuery = false →
    (String.length snippet ≤ 240)%nat).
  { intros Hno. unfold snippet, buildFileSnippet.
    destruct (JsString.truthy lineText); cbn [negb]; [|simpl; lia].
    rewrite Htq. destruct (JsString.truthy lowerQuery) eqn:Hq; cbn [negb];
      [|apply clipped_length].
    destruct Hno as [Hno|Hno]; [done|]. fold lowerQuery lowerText.
    unfold JsString.includes in Hno. apply Z.leb_gt in Hno.
    destruct (indexOf_range lowerQuery lowerText) as [Hi|Hi]; [|lia].
    rewrite Hi. simpl (_ =? _). cbv iota. apply clipped_length. }
  split; [|split; [exact Hclip|exact Hmatch]].
  destruct (JsString.truthy lowerQuery) eqn:Hq; [|specialize (Hclip (or_introl eq_refl)); lia].
  destruct (JsString.includes lowerText lowerQuery) eqn:Hinc;
    [|specialize (Hclip (or_intror eq_refl)); lia].
  destruct (JsString.truthy lineText) eqn:Hline.
  - destruct (Hmatch eq_refl eq_refl eq_refl). lia.
  - unfold snippet, buildFileSnippet. rewrite Hline. simpl. lia.
Qed.

End SnippetFacts.

(** *** Remotes *)

Lemma trimEnd_tail (c : ascii) (s : string) :
  JsString.trimEnd (String c s) = String c s → s = "" ∨ (JsString.trimEnd s = s ∧ s ≠ "").
Proof.
  cbn [JsString.trimEnd]. destruct (JsString.trimEnd s) as [|d t] eqn:E.
  - destruct (JsString.is_whitespace c); [done|]. intros [= <-]. by left.
  - intros [= <-]. by right.
Qed.

Lemma split_spaces_parts (s : string) (gap : bool) :
  JsString.trimEnd s = s → s ≠ "" →
  gap = true ∨ (∃ c t, s = String c t ∧ JsString.is_whitespace c = false) →
  Forall (λ part, JsString.truthy part = true) (split_spaces s gap).
Proof.
  revert gap. induction s as [|c s IH]; intros gap Hend Hne Hhead; [done|].
  cbn [split_spaces]. destruct (JsString.is_whitespace c) eqn:Hc.
  - destruct Hhead as [->|(c' & t & [= <- <-] & Hc')]; [|congruence].
    destruct (trimEnd_tail c s Hend) as [->|[Hs Hs']].
    { cbn [JsString.trimEnd] in Hend. by rewrite Hc in Hend. }
    apply IH; [done|done|by left].
  - destruct (trimEnd_tail c s Hend) as [->|[Hs Hs']]; [by repeat constructor|].
    destruct s as [|d s]; [done|].
    destruct (JsString.is_whitespace d) eqn:Hd.
    + specialize (IH true Hs Hs' (or_introl eq_refl)).
      cbn [split_spaces] in *. rewrite Hd in *. by constructor.
    + specialize (IH false Hs Hs' (or_intror (ex_intro _ d (ex_intro _ s (conj eq_refl Hd))))).
      destruct (split_spaces (String d s) false) as [|h t]; [by repeat constructor|].
      apply Forall_cons in IH as [_ IH]. by constructor.
Qed.

Lemma split_spaces_trimmed (rawLine : string) :
  JsString.truthy (JsString.trim rawLine) = true →
  Forall (λ part, JsString.truthy part = true) (split_spaces (JsString.trim rawLine) false).
Proof.
  intros Ht. pose proof (trim_idem rawLine) as Hid.
  destruct (trim_fixed _ Hid) as [Hstart Hend].
  apply split_spaces_parts; [done|by destruct (JsString.trim rawLine)|].
  right. pose proof (trimStart_head (JsString.trim rawLine)) as Hh. rewrite Hstart in Hh.
  destruct (JsString.trim rawLine) as [|c t]; [done|]. by exists c, t.
Qed.

Lemma remotes_update_names (remotes : list GitRow.remote) (name : string)
    (f : GitRow.remote → GitRow.remote) :
  (∀ remote, GitRow.remote_name (f remote) = GitRow.remote_name remote) →
  GitRow.remote_name <$> remotes_update remotes name f
  = if bool_decide (name ∈ GitRow.remote_name <$> remotes)
    then GitRow.remote_name <$> remotes
    else (GitRow.remote_name <$> remotes) ++ [name].
Proof.
  intros Hf. induction remotes as [|r rest IH]; cbn [remotes_update].
  - simpl. by rewrite Hf.
  - destruct (String.eqb_spec (GitRow.remote_name r) name) as [<-|Hne].
    + rewrite !fmap_cons, Hf. by rewrite bool_decide_eq_true_2 by (by left).
    + rewrite !fmap_cons, IH. case_bool_decide as Hin.
      * by rewrite bool_decide_eq_true_2 by (by right).
      * rewrite bool_decide_eq_false_2; [done|].
        intros H. apply elem_of_cons in H as [H|H]; [congruence|done].
Qed.

Lemma remotes_update_Forall (P : GitRow.remote → Prop) (remotes : list GitRow.remote)
    (name : string) (f : GitRow.remote → GitRow.remote) :
  (∀ remote, GitRow.remote_name remote = name →
             P remote ∨ remote = GitRow.Remote name None None → P (f remote)) →
  Forall P remotes → Forall P (remotes_update remotes name f).
Proof.
  intros Hf. induction 1 as [|r rest Hr Hrest IH]; simpl.
  - constructor; [|constructor]. apply Hf; [done|by right].
  - destruct (String.eqb_spec (GitRow.remote_name r) name) as [Heq|Hne].
    + constructor; [|done]. apply Hf; [done|by left].
    + by constructor.
Qed.

Lemma parse_remote_line_inv (remotes : list GitRow.remote) (rawLine : string) :
  remotes_inv remotes → remotes_inv (parse_remote_line remotes rawLine).
Proof.
  intros [Hnd Hall]. unfold parse_remote_line.
  destruct (JsString.truthy (JsString.trim rawLine)) eqn:Ht; cbn [negb]; [|done].
  pose proof (split_spaces_trimmed rawLine Ht) as Hparts.
  destruct (split_spaces (JsString.trim rawLine) false) as [|name [|url rest]]; [done..|].
  apply Forall_cons in Hparts as [Hname Hparts].
  apply Forall_cons in Hparts as [Hurl _].
  split.
  - rewrite remotes_update_names.
    + case_bool_decide as Hin; [done|].
      apply NoDup_app. split; [done|]. split; [|apply NoDup_singleton].
      intros x Hx Hx'. apply list_elem_of_singleton in Hx' as ->. done.
    + intros remote. by repeat case_bool_decide.
  - apply remotes_update_Forall; [|done].
    intros remote Hrn Hremote.
    assert (Hold :
      (∀ u, GitRow.fetchUrl remote = Some u → JsString.truthy u = true)
      ∧ (∀ u, GitRow.pushUrl remote = Some u → JsString.truthy u = true)).
    { destruct Hremote as [(_ & _ & H1 & H2)| ->]; [done|]. by split. }
    destruct Hold as [Hf Hp].
    assert (Hsome : ∀ u, Some url = Some u → JsString.truthy u = true)
      by (by intros u [= <-]).
    repeat case_bool_decide; simpl; rewrite ?Hrn, ?Hname, ?Hurl; simpl.
    + split; [done|]. split; [by left|]. by split.
    + split; [done|]. split; [by right|]. by split.
    + split; [done|].
      destruct (falsy (GitRow.fetchUrl remote)) eqn:E1,
               (falsy (GitRow.pushUrl remote)) eqn:E2; simpl; rewrite ?Hurl; simpl;
        (split; [by auto|]); by split.
Qed.

Lemma nonempty_falsy (x : option string) :
  nonempty x = if falsy x then None else x.
Proof. destruct x as [[|c t]|]; done. Qed.

(** X22: [parseGitRemoteOutput] returns every remote name once, each
    with a non-empty name and a non-empty push address (the fetch address
    when no push line was seen), at most one remote per line, and nothing
    for an empty output. *)
Theorem parseGitRemoteOutput_sound (output : string) :
  let remotes := parseGitRemoteOutput output in
  NoDup (GitRow.remote_name <$> remotes)
  ∧ Forall remote_ok remotes
  ∧ (length remotes ≤ length (JsString.split "010" output))%nat
  ∧ parseGitRemoteOutput "" = [].
Proof.
  intros remotes. unfold remotes, parseGitRemoteOutput.
  destruct (JsString.truthy output); cbn [negb];
    [|split; [constructor|]; split; [constructor|]; split; [simpl; lia|done]].
  assert (Hfold : ∀ lines start,
    remotes_inv start →
    remotes_inv (foldl parse_remote_line start lines)
    ∧ (length (foldl parse_remote_line start lines) ≤ length start + length lines)%nat).
  { induction lines as [|l lines IH]; intros start Hstart; simpl; [split; [done|lia]|].
    destruct (IH (parse_remote_line start l)) as [H1 H2];
      [by apply parse_remote_line_inv|].
    split; [done|].
    assert (length (parse_remote_line start l) ≤ S (length start))%nat; [|lia].
    clear. unfold parse_remote_line. destruct (negb _); [lia|].
    destruct (split_spaces _ _) as [|name [|url rest]]; [lia..|].
    generalize (λ remote : GitRow.remote,
             if bool_decide (head rest = Some "(fetch)") then
               GitRow.Remote (GitRow.remote_name remote) (Some url) (GitRow.pushUrl remote)
             else if bool_decide (head rest = Some "(push)") then
               GitRow.Remote (GitRow.remote_name remote) (GitRow.fetchUrl remote) (Some url)
             else
               GitRow.Remote (GitRow.remote_name remote)
                 (if falsy (GitRow.fetchUrl remote) then Some url
                  else GitRow.fetchUrl remote)
                 (if falsy (GitRow.pushUrl remote) then Some url
                  else GitRow.pushUrl remote)).
    intros f. induction start as [|r start IHs]; simpl; [lia|].
    destruct (String.eqb _ _); simpl; lia. }
  destruct (Hfold (JsString.split "010" output) []) as [[Hnd Hall] Hlen].
  { split; constructor. }
  set (found := foldl parse_remote_line [] (JsString.split "010" output)) in *.
  split.
  { assert (GitRow.remote_name <$> List.map _ found = GitRow.remote_name <$> found) as ->; [|done].
    clear. induction found as [|r l IH]; [done|]. simpl. by f_equal. }
  split; [|split; [rewrite length_map; simpl in Hlen; lia|done]].
  apply Forall_forall. intros r Hr. apply elem_of_List_map in Hr as (r0 & -> & Hr0).
  rewrite Forall_forall in Hall. destruct (Hall r0 Hr0) as (Hn & Hsome & Hf & Hp).
  unfold remote_ok. simpl. rewrite !nonempty_falsy. split; [done|]. split.
  - destruct (falsy (GitRow.pushUrl r0)) eqn:E2.
    + destruct Hsome as [E1|E1]; [|congruence]. rewrite E1.
      destruct (GitRow.fetchUrl r0) as [u|] eqn:Efu; [|done]. exists u. auto.
    + destruct (GitRow.pushUrl r0) as [u|] eqn:Epu; [|done]. exists u. auto.
  - intros url. destruct (falsy (GitRow.fetchUrl r0)); [done|]. apply Hf.
Qed.

(** *** The tree *)

Lemma elem_of_allEntries (d : database) (e : Entry.t) :
  e ∈ statements.allEntries d ↔ ∃ k, entries d !! k = Some e.
Proof.
  unfold statements.allEntries. rewrite merge_sort_Permutation.
  rewrite list_elem_of_fmap. split.
  - intros ([k e'] & -> & Hin). exists k. by apply elem_of_map_to_list in Hin.
  - intros [k Hk]. exists (k, e). split; [done|]. by apply elem_of_map_to_list.
Qed.

Lemma allEntries_NoDup (d : database) :
  (∀ q e, entries d !! q = Some e → Entry.path e = q) →
  NoDup (Entry.path <$> statements.allEntries d).
Proof.
  intros Hkeyed. unfold statements.allEntries. rewrite merge_sort_Permutation.
  assert (Entry.path <$> (map_to_list (entries d)).*2 = (map_to_list (entries d)).*1) as ->.
  { assert (H : ∀ kv, kv ∈ map_to_list (entries d) → Entry.path kv.2 = kv.1).
    { intros [k e] Hin. apply elem_of_map_to_list in Hin. by apply Hkeyed. }
    induction (map_to_list (entries d)) as [|kv l IH]; [done|]. simpl.
    f_equal; [apply H; by left|]. apply IH. intros x Hx. apply H. by right. }
  apply NoDup_fst_map_to_list.
Qed.

Lemma foldl_insert_lookup {V} (key : Entry.t → string) (mk : Entry.t → V)
    (l : list Entry.t) (m0 : gmap string V) :
  NoDup (key <$> l) →
  let out := foldl (λ m e, <[key e := mk e]> m) m0 l in
  (∀ e, e ∈ l → out !! key e = Some (mk e))
  ∧ ∀ q, q ∉ key <$> l → out !! q = m0 !! q.
Proof.
  revert m0. induction l as [|x l IH]; intros m0 Hnd; simpl.
  - split; [intros e He; by apply elem_of_nil in He|done].
  - rewrite fmap_cons in Hnd. apply NoDup_cons in Hnd as [Hx Hnd].
    destruct (IH (<[key x := mk x]> m0) Hnd) as [H1 H2]. split.
    + intros e He. apply elem_of_cons in He as [->|He]; [|by apply H1].
      rewrite H2 by done. apply lookup_insert_eq.
    + intros q Hq. apply not_elem_of_cons in Hq as [Hne Hq].
      rewrite H2 by done. by apply lookup_insert_ne.
Qed.

Lemma with_children_children (c : list string) (n : tree_node) :
  tn_children (with_children c n) = c.
Proof. done. Qed.

Lemma with_children_twice (c1 c2 : list string) (n : tree_node) :
  with_children c2 (with_children c1 n) = with_children c2 n.
Proof. done. Qed.

Lemma foldl_attach_lookup (l : list Entry.t) (nodes : gmap string tree_node) (p : string) :
  (∀ e, e ∈ l → is_Some (nodes !! Entry.path e)) →
  foldl attach nodes l !! p
  = (λ n, with_children (tn_children n ++ children_of l p) n) <$> nodes !! p.
Proof.
  revert nodes. induction l as [|x l IH]; intros nodes Hall.
  - simpl. destruct (nodes !! p) as [n|]; [|done]. simpl. unfold children_of. simpl.
    rewrite app_nil_r. by destruct n.
  - cbn [foldl]. unfold children_of. cbn [List.filter].
    assert (Hx : is_Some (nodes !! Entry.path x)) by (apply Hall; by left).
    assert (Hrest : ∀ nodes' : gmap string tree_node,
                      (∀ k, is_Some (nodes !! k) → is_Some (nodes' !! k)) →
                              ∀ e, e ∈ l → is_Some (nodes' !! Entry.path e)).
    { intros nodes' Hsub e He. apply Hsub, Hall. by right. }
    unfold attach at 2.
    destruct (nonempty (Entry.parent_path x)) as [pp|] eqn:Hpp.
    + destruct (nodes !! pp) as [parent|] eqn:Hparent.
      * destruct Hx as [node ->].
        rewrite IH.
        2:{ apply Hrest. intros k Hk. destruct (decide (pp = k)) as [<-|Hne].
            - rewrite lookup_insert_eq. eauto.
            - by rewrite lookup_insert_ne. }
        destruct (decide (pp = p)) as [<-|Hne].
        -- rewrite lookup_insert_eq, Hparent. simpl.
           rewrite bool_decide_eq_true_2 by done. simpl.
           rewrite with_children_twice, <- app_assoc. done.
        -- rewrite lookup_insert_ne by done.
           rewrite bool_decide_eq_false_2 by congruence. done.
      * rewrite IH by (apply Hrest; auto).
        destruct (decide (pp = p)) as [<-|Hne].
        -- by rewrite Hparent.
        -- rewrite bool_decide_eq_false_2 by congruence. done.
    + rewrite IH by (apply Hrest; auto).
      rewrite bool_decide_eq_false_2 by congruence. done.
Qed.

Lemma elem_of_children_of (l : list Entry.t) (p c : string) :
  c ∈ children_of l p
  ↔ ∃ e, e ∈ l ∧ Entry.path e = c ∧ nonempty (Entry.parent_path e) = Some p.
Proof.
  unfold children_of. rewrite list_elem_of_fmap. split.
  - intros (e & -> & He). apply elem_of_List_filter in He as [He Hp].
    apply bool_decide_eq_true in Hp. by exists e.
  - intros (e & He & <- & Hp). exists e. split; [done|].
    apply elem_of_List_filter. split; [done|]. by apply bool_decide_eq_true.
Qed.

Lemma children_of_NoDup (l : list Entry.t) (p : string) :
  NoDup (Entry.path <$> l) → NoDup (children_of l p).
Proof.
  unfold children_of. induction l as [|x l IH]; [done|].
  rewrite fmap_cons. intros Hnd. apply NoDup_cons in Hnd as [Hx Hnd]. simpl.
  destruct (bool_decide _); [|by apply IH].
  rewrite fmap_cons. constructor; [|by apply IH].
  intros Hin. apply Hx. apply list_elem_of_fmap in Hin as (e & -> & He).
  apply elem_of_List_filter in He as [He _]. apply list_elem_of_fmap. by exists e.
Qed.

Lemma Array_sort_Permutation {A} (compare : A → A → Z) (l : list A) :
  Array_sort compare l ≡ₚ l.
Proof.
  assert (Hins : ∀ x sorted, Array_insert compare x sorted ≡ₚ x :: sorted).
  { intros x sorted. induction sorted as [|y rest IH]; [done|]. simpl.
    destruct (compare x y <=? 0); [done|]. rewrite IH. apply Permutation_swap. }
  induction l as [|x l IH]; [done|]. simpl. by rewrite Hins, IH.
Qed.

Lemma parentOf_nonempty (q pq : string) : parentOf q = Some pq → pq ≠ "".
Proof.
  unfold parentOf. destruct (_ || _); [done|].
  destruct (JsString.lastIndexOf "/" q <=? 0) eqn:E; [by intros [= <-]|].
  apply Z.leb_gt in E. intros [= <-]. unfold JsString.lastIndexOf in *.
  destruct (lastIndexOf_from_spec "/" q 0 (-1)) as [Hj|(_ & pre & tail & Hq & Hlen)]; [lia|].
  rewrite Z.sub_0_r in Hlen. rewrite <- Hlen. unfold JsString.slice_to.
  rewrite Nat2Z.id. rewrite Hq at 1. rewrite substring_prefix.
  destruct pre; [simpl in Hlen; lia|done].
Qed.

Section TreeFacts.

Variable START_PATH : abspath.
Variable localeCompare : string → string → Z.

Lemma buildTree_nodes (s : server) :
  (∀ q e, entries (db s) !! q = Some e → Entry.path e = q) →
  let nodes := (buildTree START_PATH localeCompare s).1 in
  (∀ q, is_Some (nodes !! q) ↔ is_Some (entries (db s) !! q))
  ∧ (∀ q node, nodes !! q = Some node →
               tn_children node ≡ₚ children_of (statements.allEntries (db s)) q
               ∧ ∃ e, entries (db s) !! q = Some e
                      ∧ tn_path node = q ∧ tn_type node = Entry.type e
                      ∧ tn_size node = Entry.size e
                      ∧ tn_tags node = listTagsForPath q s).
Proof.
  intros Hkeyed. unfold buildTree. cbn [fst].
  set (l := statements.allEntries (db s)).
  set (mk := new_node START_PATH s).
  pose proof (allEntries_NoDup (db s) Hkeyed) as Hnd. fold l in Hnd.
  destruct (foldl_insert_lookup Entry.path mk l ∅ Hnd) as [Hin Hout].
  set (nodes1 := foldl (λ nodes entry, <[Entry.path entry := mk entry]> nodes) ∅ l) in *.
  assert (Hl : ∀ e, e ∈ l ↔ entries (db s) !! Entry.path e = Some e).
  { intros e. unfold l. rewrite elem_of_allEntries. split.
    - intros [k Hk]. by rewrite (Hkeyed _ _ Hk).
    - eauto. }
  assert (H1 : ∀ q, nodes1 !! q = mk <$> entries (db s) !! q).
  { intros q. destruct (entries (db s) !! q) as [e|] eqn:He.
    - pose proof (Hkeyed _ _ He) as <-. apply Hin. by apply Hl.
    - rewrite Hout; [done|]. intros Hq. apply list_elem_of_fmap in Hq as (e & -> & Hq).
      apply Hl in Hq. congruence. }
  assert (H2 : ∀ q, foldl attach nodes1 l !! q
                    = (λ e, with_children (children_of l q) (mk e)) <$> entries (db s) !! q).
  { intros q. rewrite foldl_attach_lookup.
    - rewrite H1. by destruct (entries (db s) !! q).
    - intros e He. rewrite H1. apply Hl in He. by rewrite He. }
  set (nodes2 := foldl attach nodes1 l) in *.
  split.
  - intros q. rewrite lookup_fmap, H2. rewrite !fmap_is_Some. done.
  - intros q node. rewrite lookup_fmap, H2.
    destruct (entries (db s) !! q) as [e|] eqn:He; [|done]. simpl. intros [= <-]. split.
    + simpl. apply Array_sort_Permutation.
    + exists e. pose proof (Hkeyed _ _ He) as Hp. by rewrite <- Hp.
Qed.

(** X23: when every row names the parent of its own path and that parent
    has a row, [buildTree] makes one node per entry, its root is the node
    of [/] when there is one, the children of a node are exactly the
    entries that name it as parent, none of them twice, and every entry
    with a non-empty path is reached from the root. *)
Theorem tree_shows_every_entry (s : server) :
  index_consistent (db s) →
  let tree := buildTree START_PATH localeCompare s in
  tree.2 = match entries (db s) !! "/" with Some _ => Some "/" | None => None end
  ∧ (∀ q, is_Some (tree.1 !! q) ↔ is_Some (entries (db s) !! q))
  ∧ (∀ p c, tree_child tree.1 p c
            ↔ is_Some (entries (db s) !! p)
              ∧ ∃ e, entries (db s) !! c = Some e
                     ∧ nonempty (Entry.parent_path e) = Some p)
  ∧ (∀ p node, tree.1 !! p = Some node → NoDup (tn_children node))
  ∧ (is_Some (entries (db s) !! "/") →
     ∀ q, is_Some (entries (db s) !! q) → q ≠ "" → tree_reach tree.1 "/" q).
Proof.
  intros [Hkeyed Hparents] tree.
  assert (Hk : ∀ q e, entries (db s) !! q = Some e → Entry.path e = q)
    by (intros q e He; by apply Hkeyed).
  destruct (buildTree_nodes s Hk) as [Hdom Hnode]. fold tree in Hdom, Hnode.
  assert (Hchild : ∀ p c, tree_child tree.1 p c
            ↔ is_Some (entries (db s) !! p)
              ∧ ∃ e, entries (db s) !! c = Some e
                     ∧ nonempty (Entry.parent_path e) = Some p).
  { intros p c. unfold tree_child. split.
    - intros (node & Hp & Hc). split; [apply Hdom; eauto|].
      destruct (Hnode p node Hp) as [Hperm _]. rewrite Hperm in Hc.
      apply elem_of_children_of in Hc as (e & He & <- & Hpar).
      exists e. split; [|done]. apply elem_of_allEntries in He as [k He].
      by rewrite (Hk _ _ He).
    - intros [Hp (e & He & Hpar)]. apply Hdom in Hp as [node Hp]. exists node.
      split; [done|]. destruct (Hnode p node Hp) as [Hperm _]. rewrite Hperm.
      apply elem_of_children_of. exists e. split; [|split; [by apply Hk|done]].
      apply elem_of_allEntries. eauto. }
  split.
  { unfold tree, buildTree. cbn [snd].
    set (mk := new_node START_PATH s).
    pose proof (allEntries_NoDup (db s) Hk) as Hnd.
    destruct (foldl_insert_lookup Entry.path mk (statements.allEntries (db s)) ∅ Hnd)
      as [Hin Hout].
    destruct (entries (db s) !! "/") as [e|] eqn:He.
    - pose proof (Hk _ _ He) as Hp.
      assert (e ∈ statements.allEntries (db s)) as Hel by (apply elem_of_allEntries; eauto).
      specialize (Hin e Hel). rewrite Hp in Hin. cbv zeta in Hin. by rewrite Hin.
    - rewrite Hout; [done|]. intros Hq. apply list_elem_of_fmap in Hq as (e & Hp & Hq).
      apply elem_of_allEntries in Hq as [k Hq]. rewrite (Hk _ _ Hq) in Hp. congruence. }
  split; [exact Hdom|]. split; [exact Hchild|]. split.
  { intros p node Hp. destruct (Hnode p node Hp) as [Hperm _]. rewrite Hperm.
    by apply children_of_NoDup, allEntries_NoDup. }
  intros Hroot.
  assert (Hreach : ∀ n q, (String.length q ≤ n)%nat → is_Some (entries (db s) !! q) →
                          q ≠ "" → tree_reach tree.1 "/" q).
  { induction n as [|n IH]; intros q Hlen Hq Hne; [destruct q; [done|simpl in Hlen; lia]|].
    destruct (decide (q = "/")) as [->|Hnr]; [apply reach_here; by apply Hdom|].
    destruct Hq as [e He]. destruct (Hkeyed q e He) as [_ Hpar].
    destruct (parentOf q) as [pq|] eqn:Hpq.
    2:{ unfold parentOf in Hpq. apply String.eqb_neq in Hnr. rewrite Hnr in Hpq.
        destruct q; [done|]. simpl in Hpq. by destruct (_ <=? _). }
    pose proof (parentOf_nonempty q pq Hpq) as Hpqne.
    assert (is_Some (entries (db s) !! pq)) as Hpqe by (eapply Hparents; [exact He|congruence]).
    apply (reach_step _ "/" pq q).
    - destruct (parentOf_inv q pq Hpq) as [->|[tail Htail]]; [apply reach_here; by apply Hdom|].
      apply IH; [|done|done]. rewrite Htail, length_append in Hlen. simpl in Hlen. lia.
    - apply Hchild. split; [done|]. exists e. split; [done|]. rewrite Hpar.
      by destruct pq. }
  intros q Hq Hne. by apply (Hreach (String.length q)).
Qed.

End TreeFacts.

(** *** Events for ignored paths *)

Section IgnoredEvents.

Variable START_PATH : abspath.

(** X24: An event for a path that the server ignores changes nothing, now or
    later: once [shouldIgnorePath] answers true for the path of a filesystem
    event, then after any further actions of the server (scans, watcher
    events, errors, tag requests) that event leaves the whole state as it
    is: no row is written or removed, no cache is rebuilt, nothing is
    broadcast or logged. *)
Theorem ignored_path_events_are_dropped (w : world) (i : nat) (ev : fs_event)
    (actions : list action) (s : server) :
  shouldIgnorePath START_PATH s (event_path ev) = true →
  let s' := perform START_PATH actions s in
  on_fs_event START_PATH w i ev s' = s'.
Proof.
  intros Hign s'.
  assert (Hign' : shouldIgnorePath START_PATH s' (event_path ev) = true).
  { destruct (shouldIgnorePath START_PATH s' (event_path ev)) eqn:E; [done|].
    apply (shouldIgnorePath_mono START_PATH s) in E; [congruence|].
    apply unsupportedPaths_perform. }
  unfold on_fs_event. destruct (negb _); [done|].
  destruct ev as [p|p|p|p|p]; simpl in Hign'; unfold indexPath; by rewrite Hign'.
Qed.

End IgnoredEvents.

Lemma run_reachable_perform (START_PATH : abspath) (actions : list action) (s : server) :
  run_reachable START_PATH s → run_reachable START_PATH (perform START_PATH actions s).
Proof.
  revert s. induction actions as [|a actions IH]; intros s Hs; [done|].
  simpl. apply IH. by constructor.
Qed.

Lemma absolute_relative_round_trip_witness :
  forallb segment_ok ["src"; "b"; "c.txt"] = true
  ∧ absoluteFromRelative demo_root
      (normalizeRelative demo_root (demo_root ++ ["src"; "b"; "c.txt"]))
    = (demo_root ++ ["src"; "b"; "c.txt"])%list.
Proof.
  split; [reflexivity|].
  apply (absolute_relative_round_trip demo_root ["src"; "b"; "c.txt"]). reflexivity.
Defined.

Lemma entry_fields_follow_path_witness :
  forallb segment_ok ["src"; "b"] = true ∧ segment_ok "c.txt" = true
  ∧ (let rel := normalizeRelative demo_root (demo_root ++ ["src"; "b"] ++ ["c.txt"]) in
     let e := entryFromStats demo_root (demo_world 1000) rel (MkStats false 7 1700000000400) in
     Entry.path e = rel
     ∧ Entry.name e = "c.txt"
     ∧ Entry.parent_path e = Some (normalizeRelative demo_root (demo_root ++ ["src"; "b"]))
     ∧ Entry.depth e = Z.of_nat (length ["src"; "b"]) + 1
     ∧ Entry.type e = file ∧ Entry.size e = Some 7).
Proof.
  split; [reflexivity|]. split; [reflexivity|].
  apply (entry_fields_follow_path demo_root (demo_world 1000) ["src"; "b"] "c.txt"
           (MkStats false 7 1700000000400)); reflexivity.
Defined.

Lemma store_stays_sound_witness :
  run_reachable demo_root demo_session ∧ store_sound (db demo_session).
Proof.
  assert (run_reachable demo_root demo_session) as Hr
    by apply run_reachable_perform, run_initial.
  split; [exact Hr|]. exact (store_stays_sound demo_root demo_session Hr).
Defined.

Lemma sockets_never_indexed_witness :
  run_reachable demo_root demo_session ∧ no_socket_entries (db demo_session).
Proof.
  assert (run_reachable demo_root demo_session) as Hr
    by apply run_reachable_perform, run_initial.
  split; [exact Hr|]. exact (sockets_never_indexed demo_root demo_session Hr).
Defined.

Lemma git_warning_is_logged_once_witness :
  run_reachable demo_root demo_gitless ∧ warned_once demo_gitless.
Proof.
  assert (run_reachable demo_root demo_gitless) as Hr
    by apply run_reachable_perform, run_initial.
  split; [exact Hr|]. exact (git_warning_is_logged_once demo_root demo_gitless Hr).
Defined.

Example demo_gitless_warned :
  gitBinaryUnavailable demo_gitless = true ∧ git_warnings demo_gitless = 1%nat
  ∧ git_metadata (db demo_gitless) = ∅.
Proof. repeat split; vm_compute; reflexivity. Qed.

Example demo_session_cache :
  Entry.path <$> entryCache demo_session = ["/"; "src"; "src/a.txt"; "src/b"; "src/b/c.txt"]
  ∧ tagCache demo_session = [Tag.Build "src/a.txt" "lang" "txt"].
Proof. split; vm_compute; reflexivity. Qed.

Lemma scan_stores_every_visited_node_witness :
  names_ok (stat (demo_world 1000) demo_root) = true
  ∧ (let s' := scanInitialTree demo_root (demo_world 1000) demo_tagged in
     (∀ q m, visits demo_root s' demo_root (stat (demo_world 1000) demo_root) q m →
             entries (db s') !! normalizeRelative demo_root q
             = Some (scanned_entry demo_root (demo_world 1000) q m))
     ∧ (∀ k, ¬ key_below demo_root [] k → entries (db s') !! k = entries (db demo_tagged) !! k)
     ∧ (∀ k, is_Some (entries (db demo_tagged) !! k) → is_Some (entries (db s') !! k))
     ∧ tags (db s') = tags (db demo_tagged)).
Proof.
  split; [reflexivity|].
  apply (scan_stores_every_visited_node demo_root (demo_world 1000) demo_tagged). reflexivity.
Defined.

Lemma removal_is_exact_witness :
  wildcard_free "src/b" = true
  ∧ (let s' := removePath demo_root (demo_world 2000) "src/b" demo_tagged in
     (∀ q, entries (db s') !! q
           = (if at_or_under "src/b" q then None else entries (db demo_tagged) !! q))
     ∧ (∀ t, t ∈ tags (db s')
             ↔ t ∈ tags (db demo_tagged) ∧ at_or_under "src/b" (Tag.entry_path t) = false)
     ∧ ("src/b" ≠ "/" → "src/b" ≠ "" →
        db (deleteEntryBranch demo_root (demo_world 2000) "src/b" demo_tagged) = db s')).
Proof.
  split; [reflexivity|].
  apply (removal_is_exact demo_root (demo_world 2000) "src/b" demo_tagged). reflexivity.
Defined.

Lemma repoPathFromGitInternal_sound_witness :
  repoPathFromGitInternal "pkg/.git/refs/heads/main" = Some "pkg"
  ∧ (("pkg" = "/" ∧ ("pkg/.git/refs/heads/main" = ".git"
                    ∨ JsString.startsWith "pkg/.git/refs/heads/main" ".git/" = true))
     ∨ ∃ candidate suffix,
         "pkg/.git/refs/heads/main" = candidate +:+ "/.git" +:+ suffix
         ∧ (suffix = "" ∨ JsString.startsWith suffix "/" = true)
         ∧ "pkg" = (if JsString.truthy candidate then candidate else "/")).
Proof.
  split; [reflexivity|].
  apply (repoPathFromGitInternal_sound "pkg/.git/refs/heads/main" "pkg"). reflexivity.
Defined.

Lemma tag_add_then_remove_witness :
  is_Some (entries (db demo_tagged) !! "src/b")
  ∧ JsString.truthy "src/b" = true ∧ JsString.truthy "kind" = true
  ∧ JsString.truthy "dir" = true
  ∧ (Tag.Build "src/b" "kind" "dir" ∉ tags (db demo_tagged))
  ∧ (let added := (post_api_tags (Some "src/b") (Some "kind") (Some "dir") demo_tagged).2 in
     let removed := (delete_api_tags (Some "src/b") (Some "kind") (Some "dir") added).2 in
     Tag.Build "src/b" "kind" "dir" ∈ tagCache added
     ∧ db removed = db demo_tagged
     ∧ tagCache removed = tags (db demo_tagged)
     ∧ sent removed = (sent demo_tagged ++ [tag_added "src/b" "kind" "dir";
                                              tag_removed "src/b" "kind" "dir"])%list).
Proof.
  assert (is_Some (entries (db demo_tagged) !! "src/b")) as He by (vm_compute; eauto).
  assert (Tag.Build "src/b" "kind" "dir" ∉ tags (db demo_tagged)) as Hn.
  { vm_compute. intros H. repeat (apply elem_of_cons in H as [H|H]; [discriminate H|]).
    by apply elem_of_nil in H. }
  split; [exact He|]. do 3 (split; [reflexivity|]). split; [exact Hn|].
  apply (tag_add_then_remove "src/b" "kind" "dir" demo_tagged He); [reflexivity..|exact Hn].
Defined.

Lemma tag_filters_round_trip_witness :
  let filters := [TagFilter "lang" "txt"; TagFilter "owner" "me:dev ops"] in
  forallb encodable filters = true
  ∧ encodeTagFilters filters = "lang:txt,owner:me:dev ops"
  ∧ parseTagFilters (QString (encodeTagFilters filters)) = filters.
Proof.
  split; [reflexivity|]. split; [reflexivity|].
  apply (tag_filters_round_trip [TagFilter "lang" "txt"; TagFilter "owner" "me:dev ops"]).
  reflexivity.
Defined.

Lemma added_tag_is_listed_witness :
  is_Some (entries (db demo_tagged) !! "src/b")
  ∧ JsString.truthy "src/b" = true ∧ JsString.truthy "kind" = true
  ∧ JsString.truthy "dir" = true
  ∧ (let added := (post_api_tags (Some "src/b") (Some "kind") (Some "dir") demo_tagged).2 in
     let removed := (delete_api_tags (Some "src/b") (Some "kind") (Some "dir") added).2 in
     (∃ rows, get_api_tags (QString "src/b") added = json rows
              ∧ Tag.Build "src/b" "kind" "dir" ∈ rows
              ∧ ∀ t, t ∈ rows ↔ t ∈ tags (db added) ∧ Tag.entry_path t = "src/b")
     ∧ (∃ rows, get_api_tags QAbsent added = json rows ∧ Tag.Build "src/b" "kind" "dir" ∈ rows)
     ∧ (∃ rows, get_api_tags (QString "src/b") removed = json rows
                ∧ Tag.Build "src/b" "kind" "dir" ∉ rows)
     ∧ (∃ rows, get_api_tags QAbsent removed = json rows
                ∧ Tag.Build "src/b" "kind" "dir" ∉ rows)
     ∧ ∀ q, entries (db demo_tagged) !! q = None →
            JsString.truthy q = true →
            get_api_tags (QString q) added = status 404 "Entry not found").
Proof.
  assert (is_Some (entries (db demo_tagged) !! "src/b")) as He by (vm_compute; eauto).
  split; [exact He|]. do 3 (split; [reflexivity|]).
  apply (added_tag_is_listed "src/b" "kind" "dir" demo_tagged He); reflexivity.
Defined.

Lemma tree_shows_every_entry_witness :
  index_consistent (db demo_scanned)
  ∧ (let tree := buildTree demo_root compare_by_code demo_scanned in
     tree.2 = match entries (db demo_scanned) !! "/" with Some _ => Some "/" | None => None end
     ∧ (∀ q, is_Some (tree.1 !! q) ↔ is_Some (entries (db demo_scanned) !! q))
     ∧ (∀ p c, tree_child tree.1 p c
               ↔ is_Some (entries (db demo_scanned) !! p)
                 ∧ ∃ e, entries (db demo_scanned) !! c = Some e
                        ∧ nonempty (Entry.parent_path e) = Some p)
     ∧ (∀ p node, tree.1 !! p = Some node → NoDup (tn_children node))
     ∧ (is_Some (entries (db demo_scanned) !! "/") →
        ∀ q, is_Some (entries (db demo_scanned) !! q) → q ≠ "" → tree_reach tree.1 "/" q)).
Proof.
  assert (index_consistent (db demo_scanned)) as Hc.
  { apply scanInitialTree_consistent; [reflexivity|apply index_consistent_empty]. }
  split; [exact Hc|].
  exact (tree_shows_every_entry demo_root compare_by_code demo_scanned Hc).
Defined.

Example demo_tree_children :
  let tree := buildTree demo_root compare_by_code demo_scanned in
  tree.2 = Some "/"
  ∧ tn_children <$> tree.1 !! "/" = Some ["src"]
  ∧ tn_children <$> tree.1 !! "src" = Some ["src/b"; "src/a.txt"]
  ∧ tn_name <$> tree.1 !! "/" = Some "srv".
Proof. repeat split; vm_compute; reflexivity. Qed.

Lemma ignored_path_events_are_dropped_witness :
  let s := markPathUnsupported demo_root ["srv"; "sock"] demo_running in
  let actions := [happen (demo_world 2000) (fs 0 (add ["srv"; "src"; "a.txt"]))] in
  shouldIgnorePath demo_root s (event_path (add ["srv"; "sock"])) = true
  ∧ on_fs_event demo_root (demo_world 3000) 0 (add ["srv"; "sock"]) (perform demo_root actions s)
    = perform demo_root actions s.
Proof.
  split; [reflexivity|].
  apply (ignored_path_events_are_dropped demo_root (demo_world 3000) 0 (add ["srv"; "sock"])).
  reflexivity.
Defined.

(** ** The read side on sample inputs *)

Example parseTagFilters_examples :
  parseTagFilters (QString " lang : txt ,, broken, :x, y: ,owner:me")
  = [TagFilter "lang" "txt"; TagFilter "owner" "me"]
  ∧ parseTagFilters (QArray ["a:b"; "c"; "d:e:f"]) = [TagFilter "a" "b"; TagFilter "d" "e:f"].
Proof. split; reflexivity. Qed.

Example split_spaces_examples :
  split_spaces "tag lang:t" false = ["tag"; "lang:t"]
  ∧ split_spaces "a   b" false = ["a"; "b"]
  ∧ split_spaces " a " false = [""; "a"; ""].
Proof. repeat split; reflexivity. Qed.

Example parseGitRemoteOutput_example :
  parseGitRemoteOutput
    ("origin  https://example.org/r.git (fetch)" +:+ String "010"
       ("origin  ssh://example.org/r.git (push)" +:+ String "010"
          ("backup /mnt/r.git" +:+ String "010" "")))
  = [GitRow.Remote "origin" (Some "https://example.org/r.git") (Some "ssh://example.org/r.git");
     GitRow.Remote "backup" (Some "/mnt/r.git") (Some "/mnt/r.git")].
Proof. reflexivity. Qed.

Example buildFileSnippet_examples :
  buildFileSnippet "~" "say Hello there" " hello " = "say Hello there"
  ∧ buildFileSnippet "~" (String "009" "x") "" = "    x".
Proof. split; reflexivity. Qed.
